(** * JayceON: a shallow embedding of jayceon.c and its verification

    The C source is a recursive-descent JSON parser that builds a tree of
    tagged values, keeps the pairs of every object sorted by key, and offers
    read-only navigation over the tree.

    Conventions of the embedding.
    - A C string is the [string] of its bytes before the terminating NUL;
      reading the byte under a cursor that reached the end yields NUL
      ([peek]).  The parsers never step over a NUL, so a cursor is the
      remaining input; where the source tests a byte against NUL, so does
      the embedding.
    - A parser that returns [const char *] returns the new cursor together
      with what it wrote through its [out] parameter, or nothing for [NULL].
    - [size_t] is [N], [ptrdiff_t] is [Z], [int] is [Z] with the 32-bit
      two's-complement wrap-around written out ([wrap_int]): signed
      overflow, which C leaves undefined, wraps as it does on the usual
      targets.  [double] is IEEE-754 binary64 as specified by [SpecFloat];
      every operation rounds to nearest even on its own.
    - A buffer is the list of its live slots together with its capacity;
      the [count] field is the length of that list.
    - [malloc] and [realloc] are taken to succeed; the module [Mem] keeps
      the calls of the allocator, and the branches taken when it refuses.
    - The build is the default one: comments are supported
      ([JAYCEON_NO_COMMENT_SUPPORT] is not defined) and the three growth
      increments are 16. *)

From Stdlib Require Import ZArith NArith List Ascii String Bool Lia.
From Stdlib Require Import Floats.SpecFloat.
From Equations Require Import Equations.
Import ListNotations.

Local Open Scope string_scope.
Local Open Scope Z_scope.

(** ** Bytes and cursors *)

Definition NUL : ascii := "000"%char.
Definition LF : ascii := "010"%char.
Definition CR : ascii := "013"%char.
Definition BS : ascii := "008"%char.
Definition FF : ascii := "012"%char.
Definition TAB : ascii := "009"%char.
Definition DQUOTE : ascii := "034"%char.
Definition BACKSLASH : ascii := "092"%char.
Definition SLASH : ascii := "047"%char.
Definition STAR : ascii := "042"%char.

(** The value of a byte read as [unsigned char]. *)
Definition byte (c : ascii) : Z := Z.of_N (N_of_ascii c).

(** [*string] *)
Definition peek (s : string) : ascii :=
  match s with
  | EmptyString => NUL
  | String c _ => c
  end.

(** [isspace] of the C locale: space, and the controls 9 to 13. *)
Definition isspace (c : ascii) : bool :=
  (byte c =? 32) || ((9 <=? byte c) && (byte c <=? 13)).

(** [c >= '0' && c <= '9'] *)
Definition is_digit (c : ascii) : bool :=
  (48 <=? byte c) && (byte c <=? 57).

(** [c - '0'] *)
Definition digit_val (c : ascii) : Z := byte c - 48.

(** ** [int] arithmetic *)

Definition wrap_int (z : Z) : Z := (z + 2 ^ 31) mod 2 ^ 32 - 2 ^ 31.

(** [abs] of <stdlib.h>; [abs(INT_MIN)] wraps back to [INT_MIN]. *)
Definition abs_int (y : Z) : Z := wrap_int (Z.abs y).

(** ** [double] arithmetic (binary64) *)

Definition double := spec_float.

Module Dbl.
Definition prec : Z := 53.
Definition emax : Z := 1024.
Definition mul : double -> double -> double := SFmul prec emax.
Definition add : double -> double -> double := SFadd prec emax.
Definition div : double -> double -> double := SFdiv prec emax.
Definition eqb : double -> double -> bool := SFeqb.
(** Conversion of an [int] to [double]; exact for the values used here. *)
Definition of_int (z : Z) : double := binary_normalize prec emax z 0 false.
Definition zero : double := S754_zero false.
Definition neg_zero : double := S754_zero true.
Definition one : double := of_int 1.
Definition minus_one : double := of_int (-1).
Definition ten : double := of_int 10.
(** The literal [0.1]: the binary64 number nearest to one tenth. *)
Definition tenth : double := S754_finite false 7205759403792794 (-56).
End Dbl.

(** ** The data model *)

Inductive Type_ : Set :=
| TYPE_NULL | TYPE_BOOL | TYPE_NUMBER | TYPE_STRING | TYPE_ARRAY | TYPE_OBJECT.

(** A growable buffer of [V]: [values] are the live slots [0 .. count), the
    slots [count .. capacity) are allocated and uninitialised.  The buffer
    pointer is [NULL] exactly when [capacity] is 0. *)
Record JYArray_ (V : Type) : Type := mkArray {
  values : list V;
  a_capacity : N
}.
Arguments mkArray {V}.
Arguments values {V}.
Arguments a_capacity {V}.

Record Pair_ (V : Type) : Type := mkPair {
  key : string;
  value : V
}.
Arguments mkPair {V}.
Arguments key {V}.
Arguments value {V}.

Record JYObject_ (V : Type) : Type := mkObject {
  pairs : list (Pair_ V);
  o_capacity : N
}.
Arguments mkObject {V}.
Arguments pairs {V}.
Arguments o_capacity {V}.

(** [struct JYValue_]: the tag and the active member of the union. *)
#[warnings="-register-all"]
Inductive JYValue : Type :=
| VNull
| VBool (_bool : Z)
| VNumber (_number : double)
| VString (_string : string)
| VArray (_array : JYArray_ JYValue)
| VObject (_object : JYObject_ JYValue).

Abbreviation JYArray := (JYArray_ JYValue).
Abbreviation JYObject := (JYObject_ JYValue).
Abbreviation Pair := (Pair_ JYValue).

Record JYDocument : Type := mkDocument { root : JYObject }.

Definition type_of (v : JYValue) : Type_ :=
  match v with
  | VNull => TYPE_NULL
  | VBool _ => TYPE_BOOL
  | VNumber _ => TYPE_NUMBER
  | VString _ => TYPE_STRING
  | VArray _ => TYPE_ARRAY
  | VObject _ => TYPE_OBJECT
  end.

(** [array->count] and [object->count] *)
Definition a_count (a : JYArray) : N := N.of_nat (List.length (values a)).
Definition o_count (o : JYObject) : N := N.of_nat (List.length (pairs o)).

Definition JAYCEON_STRING_GROWTH : N := 16.
Definition JAYCEON_ARRAY_GROWTH : N := 16.
Definition JAYCEON_OBJECT_GROWTH : N := 16.

(** ** [pow10] *)

(** [for (i = 0; i < n; ++i) x *= f;] *)
Fixpoint scale_loop (f : double) (n : nat) (x : double) : double :=
  match n with
  | O => x
  | S n' => scale_loop f n' (Dbl.mul x f)
  end.

Definition pow10 (x : double) (y : Z) : double :=
  if 30 <? abs_int y then Dbl.zero
  else
    let x := scale_loop Dbl.ten (Z.to_nat y) x in
    scale_loop Dbl.tenth (Z.to_nat (wrap_int (- y))) x.

(** ** The scanner *)

(** The body of a line comment: the cursor advances to the next newline or
    to the end of the input, whichever comes first, without consuming it;
    then the rest of the outer loop, [k]. *)
Definition skip_line (k : string -> string) : string -> string :=
  fix go (t : string) : string :=
    match t with
    | EmptyString => k t
    | String c t' =>
        if Ascii.eqb c NUL || Ascii.eqb c LF then k t else go t'
    end.

(** The body of a block comment: up to and including the first [*/], or to
    the end of the input; then the rest of the outer loop, [k]. *)
Definition skip_block (k : string -> string) : string -> string :=
  fix go (t : string) : string :=
    match t with
    | EmptyString => k t
    | String c t' =>
        if Ascii.eqb c NUL then k t
        else if Ascii.eqb c STAR then
          match t' with
          | String d t'' => if Ascii.eqb d SLASH then k t'' else go t'
          | EmptyString => go t'
          end
        else go t'
    end.

Fixpoint parse_space (s : string) : string :=
  match s with
  | EmptyString => s
  | String c s' =>
      if isspace c then parse_space s'
      else if Ascii.eqb c SLASH then
        match s' with
        | String d s'' =>
            if Ascii.eqb d SLASH then skip_line parse_space s''
            else if Ascii.eqb d STAR then skip_block parse_space s''
            else s
        | EmptyString => s
        end
      else s
  end.

(** [++string]; the parsers only step over a byte they have just read and
    found different from NUL. *)
Definition advance (s : string) : string :=
  match s with
  | EmptyString => EmptyString
  | String _ s' => s'
  end.

(** ** Scalar parsers *)

(** Compare the input with a literal, byte by byte, the way the loops of
    [parse_null] and [parse_bool] do; the cursor after the literal. *)
Fixpoint match_word (word s : string) : option string :=
  match word with
  | EmptyString => Some s
  | String w word' =>
      match s with
      | EmptyString => None
      | String c s' => if Ascii.eqb w c then match_word word' s' else None
      end
  end.

Definition parse_null (s : string) : option string := match_word "null" s.

Definition parse_bool (s : string) : option (Z * string) :=
  let word := if Ascii.eqb (peek s) "t" then "true" else "false" in
  let val := if Ascii.eqb (peek word) "t" then 1 else 0 in
  match match_word word s with
  | None => None
  | Some s' => Some (val, s')
  end.

(** [val = val * 10.0 + (double) (c - '0')] over the run of digits. *)
Fixpoint int_digits (s : string) (val : double) : double * string :=
  match s with
  | EmptyString => (val, s)
  | String c s' =>
      if is_digit c
      then int_digits s' (Dbl.add (Dbl.mul val Dbl.ten) (Dbl.of_int (digit_val c)))
      else (val, s)
  end.

(** [frac *= 0.1; val += (double) (c - '0') * frac] over the run of digits. *)
Fixpoint frac_digits (s : string) (frac val : double) : double * string :=
  match s with
  | EmptyString => (val, s)
  | String c s' =>
      if is_digit c
      then
        let frac := Dbl.mul frac Dbl.tenth in
        frac_digits s' frac (Dbl.add val (Dbl.mul (Dbl.of_int (digit_val c)) frac))
      else (val, s)
  end.

(** [exp = exp * 10 + c - '0'] over the run of digits, in [int]. *)
Fixpoint exp_digits (s : string) (exp : Z) : Z * string :=
  match s with
  | EmptyString => (exp, s)
  | String c s' =>
      if is_digit c
      then exp_digits s' (wrap_int (exp * 10 + byte c - 48))
      else (exp, s)
  end.

(** The integer part: a single [0], or a run of digits whose accumulated
    value is not zero (the cursor itself is never [NULL]). *)
Definition number_int (s : string) : option (double * string) :=
  let val := Dbl.zero in
  if Ascii.eqb (peek s) "0" then Some (val, advance s)
  else
    let '(val, s) := int_digits s val in
    if Dbl.eqb val Dbl.zero then None else Some (val, s).

(** The optional fraction. *)
Definition number_frac (val : double) (s : string) : option (double * string) :=
  if Ascii.eqb (peek s) "." then
    let s := advance s in
    if negb (is_digit (peek s)) then None
    else Some (frac_digits s Dbl.one val)
  else Some (val, s).

(** The optional exponent. *)
Definition number_exp (val : double) (s : string) : option (double * string) :=
  if Ascii.eqb (peek s) "e" || Ascii.eqb (peek s) "E" then
    let s := advance s in
    match (if Ascii.eqb (peek s) "+" then Some 0
           else if Ascii.eqb (peek s) "-" then Some 1
           else None) with
    | None => None
    | Some sign =>
        let s := advance s in
        if negb (is_digit (peek s)) then None
        else
          let '(exp, s) := exp_digits s 0 in
          let exp := if sign =? 0 then exp else wrap_int (exp * -1) in
          Some (pow10 val exp, s)
    end
  else Some (val, s).

Definition parse_number (s : string) : option (double * string) :=
  let '(sign, s) :=
    if Ascii.eqb (peek s) "-" then (1, advance s) else (0, s) in
  match number_int s with
  | None => None
  | Some (val, s) =>
      match number_frac val s with
      | None => None
      | Some (val, s) =>
          match number_exp val s with
          | None => None
          | Some (val, s) =>
              let val := if sign =? 0 then val else Dbl.mul val Dbl.minus_one in
              Some (val, s)
          end
      end
  end.

(** ** The string parser *)

(** The byte an escape letter stands for. *)
Definition escape (c : ascii) : option ascii :=
  if Ascii.eqb c "n" then Some LF
  else if Ascii.eqb c "r" then Some CR
  else if Ascii.eqb c "b" then Some BS
  else if Ascii.eqb c "f" then Some FF
  else if Ascii.eqb c "t" then Some TAB
  else if Ascii.eqb c DQUOTE || Ascii.eqb c BACKSLASH || Ascii.eqb c SLASH
  then Some c
  else None.

(** [val[len++] = c], after growing the buffer by [GROWTH] when it is full;
    the buffer is its content together with its capacity. *)
Definition string_push (val : string) (cap : N) (c : ascii) : string * N :=
  let len := N.of_nat (String.length val) in
  let cap := if N.eqb len cap then (cap + JAYCEON_STRING_GROWTH)%N else cap in
  (val ++ String c EmptyString, cap).

(** The loop of [parse_string], entered after the opening quote; it ends
    at the closing quote, with the cursor still on it. *)
Fixpoint parse_string_loop (s : string) (val : string) (cap : N)
  : option (string * N * string) :=
  match s with
  | EmptyString => None
  | String c s' =>
      if Ascii.eqb c DQUOTE then Some (val, cap, s)
      else if Ascii.eqb c LF || Ascii.eqb c NUL then None
      else if Ascii.eqb c BACKSLASH then
        match s' with
        | EmptyString => None
        | String e s'' =>
            match escape e with
            | None => None
            | Some c' =>
                let '(val, cap) := string_push val cap c' in
                parse_string_loop s'' val cap
            end
        end
      else
        let '(val, cap) := string_push val cap c in
        parse_string_loop s' val cap
  end.

Definition parse_string (s : string) : option (string * string) :=
  if negb (Ascii.eqb (peek s) DQUOTE) then None
  else
    match parse_string_loop (advance s) EmptyString 0%N with
    | None => None
    | Some (val, cap, s) =>
        (* room for the terminator, then the buffer is trimmed to len + 1 *)
        let len := N.of_nat (String.length val) in
        let cap := if N.eqb cap len then (cap + 1)%N else cap in
        Some (val, advance s)
    end.

(** ** Byte-wise key order *)

(** [strcmp]: the sign of the difference at the first position where the
    two strings differ, bytes read as [unsigned char]; a string that ends
    first is the smaller one. *)
Fixpoint strcmp (s1 s2 : string) : Z :=
  match s1, s2 with
  | EmptyString, EmptyString => 0
  | EmptyString, String _ _ => -1
  | String _ _, EmptyString => 1
  | String c1 r1, String c2 r2 =>
      match byte c1 ?= byte c2 with
      | Eq => strcmp r1 r2
      | Lt => -1
      | Gt => 1
      end
  end.

(** ** Binary search over the sorted pairs

    [jy_index_s] and the insertion of [parse_object] run the same loop:
    [l = 0, r = count - 1; while (l <= r) { m = (l + r) / 2; ... }].  It
    ends on the slot whose key equals the searched one, or with [l] past
    every smaller key.  [Stray] is a read outside the live slots, which the
    bounds [0 <= l] and [r < count] exclude. *)
Inductive search_result : Set :=
| Found (m : Z)
| Absent (l : Z)
| Stray.

Definition slot_key (ps : list Pair) (m : Z) : option string :=
  if m <? 0 then None
  else option_map key (nth_error ps (Z.to_nat m)).

Equations? key_search (ps : list Pair) (k : string) (l r : Z) : search_result
  by wf (Z.to_nat (r - l + 1)) lt :=
  key_search ps k l r with Z_le_gt_dec l r => {
    | right _ := Absent l
    | left _ with slot_key ps (Z.quot (l + r) 2) => {
        | None := Stray
        | Some km with Z_dec (strcmp k km) 0 => {
            | inleft (right _) := key_search ps k (Z.quot (l + r) 2 + 1) r
            | inleft (left _) := key_search ps k l (Z.quot (l + r) 2 - 1)
            | inright _ := Found (Z.quot (l + r) 2)
          }
      }
  }.
Proof.
  all: pose proof (Z.quot_rem' (l + r) 2);
    pose proof (Z.rem_bound_abs (l + r) 2); lia.
Qed.

(** ** Containers *)

(** The outcome of a recursive parser: the value written through [out] and
    the new cursor, [NULL], or the recursion budget of the embedding used
    up (the C code has no such budget; [parse_value_total] shows that the
    budget taken by [jy_parse] is never used up). *)
Inductive result (A : Type) : Type :=
| Ok (a : A) (rest : string)
| Fail
| OutOfFuel.
Arguments Ok {A}.
Arguments Fail {A}.
Arguments OutOfFuel {A}.

(** [out->values[out->count++] = res], after growing the buffer by
    [GROWTH] slots when it is full. *)
Definition array_push (out : JYArray) (res : JYValue) : JYArray :=
  let cap :=
    if N.eqb (a_count out) (a_capacity out)
    then (a_capacity out + JAYCEON_ARRAY_GROWTH)%N else a_capacity out in
  mkArray (values out ++ [res]) cap.

(** The [memmove] that shifts the slots [l .. count) up by one, and the
    store into slot [l]. *)
Definition insert_at (ps : list Pair) (l : Z) (p : Pair) : list Pair :=
  firstn (Z.to_nat l) ps ++ p :: skipn (Z.to_nat l) ps.

(** Growth of the pair buffer, then the sorted insertion; [None] when the
    key is already there. *)
Definition object_insert (out : JYObject) (k : string) (val : JYValue)
  : option JYObject :=
  let cap :=
    if N.eqb (o_count out) (o_capacity out)
    then (o_capacity out + JAYCEON_OBJECT_GROWTH)%N else o_capacity out in
  match key_search (pairs out) k 0 (Z.of_N (o_count out) - 1) with
  | Found _ => None
  | Stray => None
  | Absent l => Some (mkObject (insert_at (pairs out) l (mkPair k val)) cap)
  end.

Section Containers.

(** The value parser the containers call back into. *)
Variable parse_value : string -> result JYValue.

(** One turn of the loop of [parse_array]: an element, then a comma or the
    closing bracket (left under the cursor); the array and the cursor the
    next turn starts from. *)
Definition parse_element (s : string) (out : JYArray) : result JYArray :=
  match parse_value s with
  | Fail => Fail
  | OutOfFuel => OutOfFuel
  | Ok res s =>
      let out := array_push out res in
      let s := parse_space s in
      if Ascii.eqb (peek s) "," then Ok out (parse_space (advance s))
      else if negb (Ascii.eqb (peek s) "]") then Fail
      else Ok out (parse_space s)
  end.

(** The [while] loop of [parse_array]; [n] bounds the iterations. *)
Fixpoint parse_array_loop (n : nat) (s : string) (out : JYArray)
  : result JYArray :=
  if Ascii.eqb (peek s) "]" then Ok out (advance s)
  else
    match n with
    | O => OutOfFuel
    | S n' =>
        match parse_element s out with
        | Fail => Fail
        | OutOfFuel => OutOfFuel
        | Ok out s => parse_array_loop n' s out
        end
    end.

Definition parse_array (s : string) : result JYArray :=
  if negb (Ascii.eqb (peek s) "[") then Fail
  else
    let s := advance s in
    let out := mkArray [] 0%N in
    let s := parse_space s in
    if Ascii.eqb (peek s) NUL then Fail
    else parse_array_loop (S (String.length s)) s out.

(** One turn of the loop of [parse_object]: a key, a colon, a value, the
    sorted insertion, then a comma or the closing brace (left under the
    cursor); the object and the cursor the next turn starts from. *)
Definition parse_pair (s : string) (out : JYObject) : result JYObject :=
  match parse_string s with
  | None => Fail
  | Some (k, s) =>
      let s := parse_space s in
      if negb (Ascii.eqb (peek s) ":") then Fail
      else
        let s := advance s in
        let s := parse_space s in
        match parse_value s with
        | Fail => Fail
        | OutOfFuel => OutOfFuel
        | Ok val s =>
            match object_insert out k val with
            | None => Fail
            | Some out =>
                let s := parse_space s in
                if Ascii.eqb (peek s) "," then Ok out (parse_space (advance s))
                else if negb (Ascii.eqb (peek s) "}") then Fail
                else Ok out (parse_space s)
            end
        end
  end.

(** The [while] loop of [parse_object]; [n] bounds the iterations. *)
Fixpoint parse_object_loop (n : nat) (s : string) (out : JYObject)
  : result JYObject :=
  if Ascii.eqb (peek s) "}" then Ok out (advance s)
  else
    match n with
    | O => OutOfFuel
    | S n' =>
        match parse_pair s out with
        | Fail => Fail
        | OutOfFuel => OutOfFuel
        | Ok out s => parse_object_loop n' s out
        end
    end.

Definition parse_object (s : string) : result JYObject :=
  if negb (Ascii.eqb (peek s) "{") then Fail
  else
    let s := advance s in
    let out := mkObject [] 0%N in
    let s := parse_space s in
    if Ascii.eqb (peek s) NUL then Fail
    else parse_object_loop (S (String.length s)) s out.

End Containers.

(** ** The value dispatcher *)

(** [fuel] bounds the nesting of containers. *)
Fixpoint parse_value (fuel : nat) (s : string) : result JYValue :=
  match fuel with
  | O => OutOfFuel
  | S fuel' =>
      match parse_null s with
      | Some tmp => Ok VNull tmp
      | None =>
      match parse_bool s with
      | Some (b, tmp) => Ok (VBool b) tmp
      | None =>
      match parse_number s with
      | Some (d, tmp) => Ok (VNumber d) tmp
      | None =>
      match parse_string s with
      | Some (str, tmp) => Ok (VString str) tmp
      | None =>
      match parse_array (parse_value fuel') s with
      | Ok a tmp => Ok (VArray a) tmp
      | OutOfFuel => OutOfFuel
      | Fail =>
      match parse_object (parse_value fuel') s with
      | Ok o tmp => Ok (VObject o) tmp
      | OutOfFuel => OutOfFuel
      | Fail => Fail
      end end end end end end
  end.

(** ** The entry point *)

(** The object parser as [jy_parse] calls it: no value of the input nests
    deeper than the input is long. *)
Definition parse_root (s : string) : result JYObject :=
  parse_object (parse_value (String.length s)) s.

Definition jy_parse (s : string) : option JYDocument :=
  match parse_root s with
  | Ok o _ => Some (mkDocument o)
  | Fail => None
  | OutOfFuel => None
  end.

Definition jy_root (doc : JYDocument) : JYObject := root doc.

(** ** Navigation *)

(** A pointer into the slots of a container: [NULL], or the address of
    slot [i] of its buffer. *)
Inductive ptr : Set :=
| NULL
| Slot (i : Z).

(** What a slot of a buffer holds: a live element, allocated memory that
    was never written, or nothing of the buffer at all. *)
Inductive cell (A : Type) : Type :=
| Live (a : A)
| Uninit
| Outside.
Arguments Live {A}.
Arguments Uninit {A}.
Arguments Outside {A}.

Definition slot_of {A : Type} (buf : list A) (cap : N) (i : Z) : cell A :=
  if i <? 0 then Outside
  else
    match nth_error buf (Z.to_nat i) with
    | Some a => Live a
    | None => if i <? Z.of_N cap then Uninit else Outside
    end.

Definition cell_map {A B : Type} (f : A -> B) (c : cell A) : cell B :=
  match c with
  | Live a => Live (f a)
  | Uninit => Uninit
  | Outside => Outside
  end.

(** What a pointer returned by the lookups points to. *)
Definition array_at (obj : JYArray) (p : ptr) : cell JYValue :=
  match p with
  | NULL => Outside
  | Slot i => slot_of (values obj) (a_capacity obj) i
  end.

Definition object_at (obj : JYObject) (p : ptr) : cell JYValue :=
  match p with
  | NULL => Outside
  | Slot i => cell_map value (slot_of (pairs obj) (o_capacity obj) i)
  end.

(** The address of the [value] member of the slot found.  The search runs
    within the live slots, so on sorted pairs it never strays
    ([key_search_whole]). *)
Definition jy_index_s (obj : JYObject) (k : string) : ptr :=
  match key_search (pairs obj) k 0 (Z.of_N (o_count obj) - 1) with
  | Found m => Slot m
  | Absent _ => NULL
  | Stray => NULL
  end.

(** [&buffer[i]] for the value buffer of an array.  The buffer pointer is
    [NULL] as long as nothing was appended (capacity 0), and slot 0 of such
    a buffer is at the null address itself. *)
Definition value_slot (obj : JYArray) (i : N) : ptr :=
  if (a_capacity obj =? 0)%N && (i =? 0)%N then NULL
  else Slot (Z.of_N i).

Definition jy_index_i (obj : JYArray) (k : N) : ptr :=
  if (a_count obj <? k)%N then NULL
  else value_slot obj k.

(** The second component is the content of [*out_key] on return.  The
    pointer returned is to the [value] member of the slot, which is not at
    the start of the slot. *)
Definition jy_index_i_obj (obj : JYObject) (index : N) (out_key : cell string)
  : ptr * cell string :=
  if (o_count obj <? index)%N then (NULL, out_key)
  else
    (Slot (Z.of_N index),
     cell_map key (slot_of (pairs obj) (o_capacity obj) (Z.of_N index))).

(** ** Type checks

    Each returns the [int] result and the content of [*out] on return. *)

Definition jy_is_null (val : JYValue) : Z :=
  match val with
  | VNull => 1
  | _ => 0
  end.

Definition jy_is_bool (val : JYValue) (out : Z) : Z * Z :=
  match val with
  | VBool b => (1, b)
  | _ => (0, out)
  end.

Definition jy_is_number (val : JYValue) (out : double) : Z * double :=
  match val with
  | VNumber d => (1, d)
  | _ => (0, out)
  end.

Definition jy_is_string (val : JYValue) (out : string) : Z * string :=
  match val with
  | VString str => (1, str)
  | _ => (0, out)
  end.

Definition jy_is_array (val : JYValue) (out : JYArray) : Z * JYArray :=
  match val with
  | VArray a => (1, a)
  | _ => (0, out)
  end.

Definition jy_is_object (val : JYValue) (out : JYObject) : Z * JYObject :=
  match val with
  | VObject o => (1, o)
  | _ => (0, out)
  end.

(** A double quote, for writing inputs and outputs. *)
Definition q : string := String DQUOTE EmptyString.

(** ** The serializer

    [jy_print] and the static functions under it, which the default build
    (without [NDEBUG]) defines.  What they write to [stdout] is the string
    of the bytes written, in order.  The text that [printf] produces for a
    [double] under the conversion [%f] belongs to the C library: it is a
    parameter, [printf_f]. *)

(** The bytes written for one byte of a string: the quote and the backslash
    behind a backslash, five controls as their escape letter, any other
    byte as it is. *)
Definition print_byte (c : ascii) : string :=
  if Ascii.eqb c DQUOTE || Ascii.eqb c BACKSLASH
  then String BACKSLASH (String c EmptyString)
  else if Ascii.eqb c LF then String BACKSLASH "n"
  else if Ascii.eqb c CR then String BACKSLASH "r"
  else if Ascii.eqb c BS then String BACKSLASH "b"
  else if Ascii.eqb c FF then String BACKSLASH "f"
  else if Ascii.eqb c TAB then String BACKSLASH "t"
  else String c EmptyString.

(** The [while] loop of [print_string], which runs up to the first NUL. *)
Fixpoint print_string_loop (str : string) : string :=
  match str with
  | EmptyString => EmptyString
  | String c str' =>
      if Ascii.eqb c NUL then EmptyString
      else print_byte c ++ print_string_loop str'
  end.

Definition print_string (str : string) : string :=
  q ++ print_string_loop str ++ q.

Section Printing.

Variable printf_f : double -> string.

Section Printers.

(** The value printer the containers call back into. *)
Variable print_value : JYValue -> string.

(** The [for] loop of [print_array] from index [i] on, [vs] being the slots
    [i .. count): a comma follows every element but the one at index
    [count - 1] (the loop runs only when [count] is at least 1). *)
Fixpoint print_array_loop (count : N) (vs : list JYValue) (i : N) : string :=
  match vs with
  | [] => EmptyString
  | v :: vs' =>
      print_value v
      ++ (if negb (N.eqb i (count - 1)) then "," else "")
      ++ print_array_loop count vs' (i + 1)%N
  end.

Definition print_array (arr : JYArray) : string :=
  "[" ++ print_array_loop (a_count arr) (values arr) 0%N ++ "]".

(** The [for] loop of [print_object], in the same way. *)
Fixpoint print_object_loop (count : N) (ps : list Pair) (i : N) : string :=
  match ps with
  | [] => EmptyString
  | p :: ps' =>
      print_string (key p) ++ ":" ++ print_value (value p)
      ++ (if negb (N.eqb i (count - 1)) then "," else "")
      ++ print_object_loop count ps' (i + 1)%N
  end.

Definition print_object (obj : JYObject) : string :=
  "{" ++ print_object_loop (o_count obj) (pairs obj) 0%N ++ "}".

End Printers.

Fixpoint print_value (val : JYValue) : string :=
  match val with
  | VNull => "null"
  | VBool b => if b =? 0 then "false" else "true"
  | VNumber d => printf_f d
  | VString str => print_string str
  | VArray arr => print_array print_value arr
  | VObject obj => print_object print_value obj
  end.

Definition jy_print (doc : JYDocument) : string :=
  print_object print_value (root doc) ++ String LF EmptyString.

End Printing.

(** ** The parser and the allocator

    A second embedding of the parser, of [jy_parse] and of [jy_free], that
    keeps what the first one leaves out: the calls of [malloc], [realloc]
    and [free], and the branches taken when one of the first two returns
    [NULL].  A heap is the list of the blocks that are allocated, with the
    answers of the allocator to the requests to come; a heap pointer is
    [Null] or a block, and the values carry the pointers the C structures
    hold: the buffer of a string, of an array, of an object, and the
    buffer of every key.  A [realloc] that is granted moves the block.
    [free] of a block that is not allocated is undefined in C: here it is
    the outcome [Fault]. *)
Module Mem.

Inductive hptr : Set :=
| Null
| Block (b : nat).

(** The blocks that are allocated, and what the allocator answers to the
    requests to come, in their order: [true] is a refusal.  When the
    answers are used up every request is granted. *)
Record heap : Type := mkHeap {
  live : list nat;
  refusals : list bool
}.

(** The allocator grants every request to come. *)
Definition willing (h : heap) : bool := forallb negb (refusals h).

(** A block that is not allocated. *)
Definition fresh (h : heap) : nat := S (list_max (live h)).

(** The answer to the next request. *)
Definition answer (h : heap) : bool * heap :=
  match refusals h with
  | [] => (false, h)
  | r :: rs => (r, mkHeap (live h) rs)
  end.

(** A new block. *)
Definition grant (h : heap) : hptr * heap :=
  (Block (fresh h), mkHeap (fresh h :: live h) (refusals h)).

(** [malloc(n)]: [NULL] when the request is refused. *)
Definition malloc (h : heap) : hptr * heap :=
  let '(r, h) := answer h in
  if r then (Null, h) else grant h.

(** [free(p)]: nothing for the null pointer; no heap when the block is not
    allocated. *)
Definition free (p : hptr) (h : heap) : option heap :=
  match p with
  | Null => Some h
  | Block b =>
      if in_dec Nat.eq_dec b (live h)
      then Some (mkHeap (remove Nat.eq_dec b (live h)) (refusals h))
      else None
  end.

(** [realloc(p, n)]: when the request is refused [NULL] is returned and
    the old block stays; when it is granted the old block is released and
    a new one returned.  [realloc(NULL, n)] is [malloc(n)]. *)
Definition realloc (p : hptr) (h : heap) : option (hptr * heap) :=
  let '(r, h) := answer h in
  match free p h with
  | None => None
  | Some h' => if r then Some (Null, h) else Some (grant h')
  end.

(** The C structures, with their pointers. *)
Record HArray_ (V : Type) : Type := mkHArray {
  a_values : hptr;
  a_elems : list V;
  a_cap : N
}.
Arguments mkHArray {V}.
Arguments a_values {V}.
Arguments a_elems {V}.
Arguments a_cap {V}.

Record HPair_ (V : Type) : Type := mkHPair {
  p_key : hptr;
  p_text : string;
  p_value : V
}.
Arguments mkHPair {V}.
Arguments p_key {V}.
Arguments p_text {V}.
Arguments p_value {V}.

Record HObject_ (V : Type) : Type := mkHObject {
  o_pairs : hptr;
  o_slots : list (HPair_ V);
  o_cap : N
}.
Arguments mkHObject {V}.
Arguments o_pairs {V}.
Arguments o_slots {V}.
Arguments o_cap {V}.

#[warnings="-register-all"]
Inductive HValue : Type :=
| HNull
| HBool (_bool : Z)
| HNumber (_number : double)
| HString (_string : hptr) (text : string)
| HArray (_array : HArray_ HValue)
| HObject (_object : HObject_ HValue).

Abbreviation HArray' := (HArray_ HValue).
Abbreviation HObject' := (HObject_ HValue).
Abbreviation HPair := (HPair_ HValue).

(** [struct JYDocument_] behind the pointer [jy_parse] returns. *)
Record HDocument : Type := mkHDocument { d_ptr : hptr; d_root : HObject' }.

(** The value without its pointers. *)
Section Erase.

Variable erase : HValue -> JYValue.

Definition erase_pair (p : HPair) : Pair := mkPair (p_text p) (erase (p_value p)).

Definition erase_array (a : HArray') : JYArray :=
  mkArray (map erase (a_elems a)) (a_cap a).

Definition erase_object (o : HObject') : JYObject :=
  mkObject (map erase_pair (o_slots o)) (o_cap o).

End Erase.

Fixpoint erase (v : HValue) : JYValue :=
  match v with
  | HNull => VNull
  | HBool b => VBool b
  | HNumber d => VNumber d
  | HString _ str => VString str
  | HArray a => VArray (erase_array erase a)
  | HObject o => VObject (erase_object erase o)
  end.

Definition erase_document (doc : HDocument) : JYDocument :=
  mkDocument (erase_object erase (d_root doc)).

(** *** [free_value], [free_array], [free_object], [jy_free] *)

Section Frees.

Variable free_value : HValue -> heap -> option heap.

(** The [for] loop of [free_array]. *)
Fixpoint free_elems (vs : list HValue) (h : heap) : option heap :=
  match vs with
  | [] => Some h
  | v :: vs' =>
      match free_value v h with
      | None => None
      | Some h => free_elems vs' h
      end
  end.

Definition free_array (array : HArray') (h : heap) : option heap :=
  match free_elems (a_elems array) h with
  | None => None
  | Some h => free (a_values array) h
  end.

(** The [for] loop of [free_object]. *)
Fixpoint free_slots (ps : list HPair) (h : heap) : option heap :=
  match ps with
  | [] => Some h
  | p :: ps' =>
      match free (p_key p) h with
      | None => None
      | Some h =>
          match free_value (p_value p) h with
          | None => None
          | Some h => free_slots ps' h
          end
      end
  end.

Definition free_object (object : HObject') (h : heap) : option heap :=
  match free_slots (o_slots object) h with
  | None => None
  | Some h => free (o_pairs object) h
  end.

End Frees.

Fixpoint free_value (val : HValue) (h : heap) : option heap :=
  match val with
  | HString p _ => free p h
  | HArray a => free_array free_value a h
  | HObject o => free_object free_value o h
  | _ => Some h
  end.

Definition jy_free (doc : HDocument) (h : heap) : option heap :=
  match free_object free_value (d_root doc) h with
  | None => None
  | Some h => free (d_ptr doc) h
  end.

(** *** The parsers *)

(** What a parser leaves: the value written through [out], the new cursor
    and the heap; [NULL] and the heap; the recursion budget of the
    embedding used up; or a [free] of a block that is not allocated. *)
Inductive outcome (A : Type) : Type :=
| Done (a : A) (rest : string) (h : heap)
| Nothing (h : heap)
| Fuel
| Fault.
Arguments Done {A}.
Arguments Nothing {A}.
Arguments Fuel {A}.
Arguments Fault {A}.

(** [return NULL] after the calls of [free] that led to [oh]. *)
Definition give_back {A : Type} (oh : option heap) : outcome A :=
  match oh with
  | Some h => Nothing h
  | None => Fault
  end.

(** [val[len++] = c], after moving the buffer to one [GROWTH] bytes larger
    when it is full; no buffer when [realloc] returns [NULL]. *)
Definition string_push (p : hptr) (val : string) (cap : N) (c : ascii)
           (h : heap) : option (option (hptr * string * N) * heap) :=
  let len := N.of_nat (String.length val) in
  if N.eqb len cap then
    match realloc p h with
    | None => None
    | Some (Null, h) => Some (None, h)
    | Some (newval, h) =>
        Some (Some (newval, val ++ String c EmptyString,
                    (cap + JAYCEON_STRING_GROWTH)%N), h)
    end
  else Some (Some (p, val ++ String c EmptyString, cap), h).

(** The loop of [parse_string], with the buffer [p] it fills. *)
Fixpoint parse_string_loop (s : string) (p : hptr) (val : string) (cap : N)
         (h : heap) : outcome (hptr * string * N) :=
  match s with
  | EmptyString => give_back (free p h)
  | String c s' =>
      if Ascii.eqb c DQUOTE then Done (p, val, cap) s h
      else if Ascii.eqb c LF || Ascii.eqb c NUL then give_back (free p h)
      else if Ascii.eqb c BACKSLASH then
        match s' with
        | EmptyString => give_back (free p h)
        | String e s'' =>
            match escape e with
            | None => give_back (free p h)
            | Some c' =>
                match string_push p val cap c' h with
                | None => Fault
                | Some (None, h) => give_back (free p h)
                | Some (Some (p, val, cap), h) =>
                    parse_string_loop s'' p val cap h
                end
            end
        end
      else
        match string_push p val cap c h with
        | None => Fault
        | Some (None, h) => give_back (free p h)
        | Some (Some (p, val, cap), h) => parse_string_loop s' p val cap h
        end
  end.

Definition parse_string (s : string) (h : heap) : outcome (hptr * string) :=
  if negb (Ascii.eqb (peek s) DQUOTE) then Nothing h
  else
    match parse_string_loop (advance s) Null EmptyString 0%N h with
    | Done (p, val, cap) s h =>
        let len := N.of_nat (String.length val) in
        (* room for the terminator *)
        match (if N.eqb cap len
               then match realloc p h with
                    | None => None
                    | Some (Null, h) => Some (None, h)
                    | Some (newval, h) => Some (Some newval, h)
                    end
               else Some (Some p, h)) with
        | None => Fault
        | Some (None, h) => give_back (free p h)
        | Some (Some p, h) =>
            (* the buffer is trimmed to len + 1, when that is granted *)
            match realloc p h with
            | None => Fault
            | Some (Null, h) => Done (p, val) (advance s) h
            | Some (newval, h) => Done (newval, val) (advance s) h
            end
        end
    | Nothing h => Nothing h
    | Fuel => Fuel
    | Fault => Fault
    end.

Definition a_count (a : HArray') : N := N.of_nat (List.length (a_elems a)).
Definition o_count (o : HObject') : N := N.of_nat (List.length (o_slots o)).

(** [out->values[out->count++] = res], after moving the buffer to one
    [GROWTH] slots larger when it is full; no array when [realloc] returns
    [NULL]. *)
Definition array_push (out : HArray') (res : HValue) (h : heap)
  : option (option HArray' * heap) :=
  if N.eqb (a_count out) (a_cap out) then
    match realloc (a_values out) h with
    | None => None
    | Some (Null, h) => Some (None, h)
    | Some (newvals, h) =>
        Some (Some (mkHArray newvals (a_elems out ++ [res])
                             (a_cap out + JAYCEON_ARRAY_GROWTH)%N), h)
    end
  else
    Some (Some (mkHArray (a_values out) (a_elems out ++ [res]) (a_cap out)), h).

(** The buffer of the pairs moved to a larger one when it is full; no
    object when [realloc] returns [NULL]. *)
Definition object_grow (out : HObject') (h : heap)
  : option (option HObject' * heap) :=
  if N.eqb (o_count out) (o_cap out) then
    match realloc (o_pairs out) h with
    | None => None
    | Some (Null, h) => Some (None, h)
    | Some (newpairs, h) =>
        Some (Some (mkHObject newpairs (o_slots out)
                              (o_cap out + JAYCEON_OBJECT_GROWTH)%N), h)
    end
  else Some (Some out, h).

Section Containers.

Variable parse_value : string -> heap -> outcome HValue.

(** One turn of the loop of [parse_array]. *)
Definition parse_element (s : string) (out : HArray') (h : heap)
  : outcome HArray' :=
  match parse_value s h with
  | Nothing h => give_back (free_array free_value out h)
  | Fuel => Fuel
  | Fault => Fault
  | Done res s h =>
      match array_push out res h with
      | None => Fault
      | Some (None, h) =>
          match free_value res h with
          | None => Fault
          | Some h => give_back (free_array free_value out h)
          end
      | Some (Some out, h) =>
          let s := parse_space s in
          if Ascii.eqb (peek s) "," then Done out (parse_space (advance s)) h
          else if negb (Ascii.eqb (peek s) "]")
               then give_back (free_array free_value out h)
          else Done out (parse_space s) h
      end
  end.

Fixpoint parse_array_loop (n : nat) (s : string) (out : HArray') (h : heap)
  : outcome HArray' :=
  if Ascii.eqb (peek s) "]" then Done out (advance s) h
  else
    match n with
    | O => Fuel
    | S n' =>
        match parse_element s out h with
        | Done out s h => parse_array_loop n' s out h
        | Nothing h => Nothing h
        | Fuel => Fuel
        | Fault => Fault
        end
    end.

Definition parse_array (s : string) (h : heap) : outcome HArray' :=
  if negb (Ascii.eqb (peek s) "[") then Nothing h
  else
    let s := advance s in
    let out := mkHArray Null [] 0%N in
    let s := parse_space s in
    if Ascii.eqb (peek s) NUL then Nothing h
    else parse_array_loop (S (String.length s)) s out h.

(** One turn of the loop of [parse_object]. *)
Definition parse_pair (s : string) (out : HObject') (h : heap)
  : outcome HObject' :=
  match parse_string s h with
  | Nothing h => give_back (free_object free_value out h)
  | Fuel => Fuel
  | Fault => Fault
  | Done (kp, k) s h =>
      let s := parse_space s in
      if negb (Ascii.eqb (peek s) ":") then
        match free kp h with
        | None => Fault
        | Some h => give_back (free_object free_value out h)
        end
      else
        let s := advance s in
        let s := parse_space s in
        match parse_value s h with
        | Nothing h =>
            match free kp h with
            | None => Fault
            | Some h => give_back (free_object free_value out h)
            end
        | Fuel => Fuel
        | Fault => Fault
        | Done val s h =>
            match object_grow out h with
            | None => Fault
            | Some (None, h) =>
                match free kp h with
                | None => Fault
                | Some h =>
                    match free_value val h with
                    | None => Fault
                    | Some h => give_back (free_object free_value out h)
                    end
                end
            | Some (Some out, h) =>
                match key_search (map (erase_pair erase) (o_slots out)) k 0
                                 (Z.of_N (o_count out) - 1) with
                | Absent l =>
                    let out :=
                      mkHObject (o_pairs out)
                                (firstn (Z.to_nat l) (o_slots out)
                                 ++ mkHPair kp k val
                                    :: skipn (Z.to_nat l) (o_slots out))
                                (o_cap out) in
                    let s := parse_space s in
                    if Ascii.eqb (peek s) ","
                    then Done out (parse_space (advance s)) h
                    else if negb (Ascii.eqb (peek s) "}")
                         then give_back (free_object free_value out h)
                    else Done out (parse_space s) h
                | Found _ | Stray =>
                    (* Duplicate keys not permitted *)
                    match free kp h with
                    | None => Fault
                    | Some h =>
                        match free_value val h with
                        | None => Fault
                        | Some h => give_back (free_object free_value out h)
                        end
                    end
                end
            end
        end
  end.

Fixpoint parse_object_loop (n : nat) (s : string) (out : HObject') (h : heap)
  : outcome HObject' :=
  if Ascii.eqb (peek s) "}" then Done out (advance s) h
  else
    match n with
    | O => Fuel
    | S n' =>
        match parse_pair s out h with
        | Done out s h => parse_object_loop n' s out h
        | Nothing h => Nothing h
        | Fuel => Fuel
        | Fault => Fault
        end
    end.

Definition parse_object (s : string) (h : heap) : outcome HObject' :=
  if negb (Ascii.eqb (peek s) "{") then Nothing h
  else
    let s := advance s in
    let out := mkHObject Null [] 0%N in
    let s := parse_space s in
    if Ascii.eqb (peek s) NUL then Nothing h
    else parse_object_loop (S (String.length s)) s out h.

End Containers.

Fixpoint parse_value (fuel : nat) (s : string) (h : heap) : outcome HValue :=
  match fuel with
  | O => Fuel
  | S fuel' =>
      match parse_null s with
      | Some tmp => Done HNull tmp h
      | None =>
      match parse_bool s with
      | Some (b, tmp) => Done (HBool b) tmp h
      | None =>
      match parse_number s with
      | Some (d, tmp) => Done (HNumber d) tmp h
      | None =>
      match parse_string s h with
      | Done (p, str) tmp h => Done (HString p str) tmp h
      | Fuel => Fuel
      | Fault => Fault
      | Nothing h =>
      match parse_array (parse_value fuel') s h with
      | Done a tmp h => Done (HArray a) tmp h
      | Fuel => Fuel
      | Fault => Fault
      | Nothing h =>
      match parse_object (parse_value fuel') s h with
      | Done o tmp h => Done (HObject o) tmp h
      | Fuel => Fuel
      | Fault => Fault
      | Nothing h => Nothing h
      end end end end end end
  end.

(** [jy_parse]: the document is allocated first, and released when the
    object parser returns [NULL]. *)
Definition jy_parse (s : string) (h : heap) : outcome HDocument :=
  match malloc h with
  | (Null, h) => Nothing h
  | (doc, h) =>
      match parse_object (parse_value (String.length s)) s h with
      | Done o rest h => Done (mkHDocument doc o) rest h
      | Nothing h => give_back (free doc h)
      | Fuel => Fuel
      | Fault => Fault
      end
  end.

(** The blocks a value holds, in the order in which [free_value] releases
    them. *)
Definition block_of (p : hptr) : list nat :=
  match p with
  | Null => []
  | Block b => [b]
  end.

Section Blocks.

Variable blocks : HValue -> list nat.

Definition blocks_elems (vs : list HValue) : list nat := flat_map blocks vs.

Definition blocks_array (a : HArray') : list nat :=
  (blocks_elems (a_elems a) ++ block_of (a_values a))%list.

Definition blocks_slots (ps : list HPair) : list nat :=
  flat_map (fun p => block_of (p_key p) ++ blocks (p_value p))%list ps.

Definition blocks_object (o : HObject') : list nat :=
  (blocks_slots (o_slots o) ++ block_of (o_pairs o))%list.

End Blocks.

Fixpoint blocks (v : HValue) : list nat :=
  match v with
  | HString p _ => block_of p
  | HArray a => blocks_array blocks a
  | HObject o => blocks_object blocks o
  | _ => []
  end.

Definition blocks_document (doc : HDocument) : list nat :=
  (blocks_object blocks (d_root doc) ++ block_of (d_ptr doc))%list.

(** The heap [h'] is the heap [h] with the blocks [bs] added: [bs] are
    distinct, none of them is allocated in [h], the blocks allocated in
    [h'] are those of [h] behind [bs], in some order, and the answers left
    in [h'] are what is left of those of [h]. *)
Definition holds (h h' : heap) (bs : list nat) : Prop :=
  exists news,
    live h' = (news ++ live h)%list /\ NoDup bs /\
    (forall b, In b news <-> In b bs) /\
    (forall b, In b bs -> ~ In b (live h)) /\
    exists k, refusals h' = skipn k (refusals h).

(** The outcome [r] of a parser of this embedding, entered on the heap
    [h], agrees with the outcome [r0] of the same parser of the first
    embedding: it returns the same value, once the pointers are left out,
    and the same cursor, and the heap it leaves is [h] with the blocks of
    the value added; or it returns [NULL] and leaves the blocks of [h],
    as the parser of the first embedding does when the allocator refuses
    nothing; or both use up the budget.  A [Fault] agrees with nothing. *)
Definition agrees {A B : Type} (erase : A -> B) (blocks : A -> list nat)
           (h : heap) (r : outcome A) (r0 : result B) : Prop :=
  match r with
  | Done a rest h' => r0 = Ok (erase a) rest /\ holds h h' (blocks a)
  | Nothing h' => holds h h' [] /\ (willing h = true -> r0 = Fail)
  | Fuel => r0 = OutOfFuel
  | Fault => False
  end.

(** The pointers a reader of the value goes through are set: the buffer
    of every string and of every key is a block, and the buffer of an
    array or of an object is one unless its count and its capacity are
    zero. *)
Definition is_block (p : hptr) : bool :=
  match p with
  | Block _ => true
  | Null => false
  end.

Section Pointers.

Variable pointers_set : HValue -> bool.

Definition array_set (a : HArray') : bool :=
  forallb pointers_set (a_elems a)
  && (is_block (a_values a) || (N.eqb (a_count a) 0 && N.eqb (a_cap a) 0)).

Definition pair_set (p : HPair) : bool :=
  is_block (p_key p) && pointers_set (p_value p).

Definition object_set (o : HObject') : bool :=
  forallb pair_set (o_slots o)
  && (is_block (o_pairs o) || (N.eqb (o_count o) 0 && N.eqb (o_cap o) 0)).

End Pointers.

Fixpoint pointers_set (v : HValue) : bool :=
  match v with
  | HString p _ => is_block p
  | HArray a => array_set pointers_set a
  | HObject o => object_set pointers_set o
  | _ => true
  end.

(** The calls of [free] in [f] release the blocks [bs], in this order:
    [f] is defined on the heaps in which the blocks of [bs] are allocated,
    [bs] being distinct, and on no other heap, and what it leaves is the
    heap without them. *)
Definition releases (bs : list nat) (f : heap -> option heap) : Prop :=
  forall h,
    match f h with
    | Some h' =>
        NoDup bs /\ incl bs (live h) /\
        (forall b, In b (live h') <-> In b (live h) /\ ~ In b bs) /\
        refusals h' = refusals h
    | None => ~ (NoDup bs /\ incl bs (live h))
    end.

End Mem.

(** A text with an array, a string, and objects one in the other. *)
Definition input_nested : string :=
  "{" ++ q ++ "k" ++ q ++ ":[" ++ q ++ "x" ++ q ++ ",[true]],"
      ++ q ++ "m" ++ q ++ ":{" ++ q ++ "n" ++ q ++ ":null}}".

(** ** Vocabulary of the statements *)

(** The keys of an object in slot order. *)
Definition keys (o : JYObject) : list string := map key (pairs o).

(** The sortedness invariant of the specification: every key is strictly
    below its successor. *)
Definition sorted_keys (ks : list string) : Prop :=
  forall (i : nat) (k k' : string),
    nth_error ks i = Some k -> nth_error ks (S i) = Some k' ->
    strcmp k k' < 0.

(** The same invariant as a check that computes. *)
Fixpoint sorted_keysb (ks : list string) : bool :=
  match ks with
  | k :: ((k' :: _) as tl) => (strcmp k k' <? 0) && sorted_keysb tl
  | _ => true
  end.

(** The input of the specification's lookup example: an object whose keys
    arrive as b, a. *)
Definition input_b_a : string :=
  "{" ++ q ++ "b" ++ q ++ ":0," ++ q ++ "a" ++ q ++ ":1}".

(** The invariant all through a tree: every object in it, at any depth,
    has strictly increasing keys. *)
Fixpoint value_sorted (v : JYValue) : Prop :=
  match v with
  | VArray (mkArray vs _) =>
      (fix all (l : list JYValue) : Prop :=
         match l with
         | [] => True
         | x :: l' => value_sorted x /\ all l'
         end) vs
  | VObject (mkObject ps _) =>
      sorted_keys (map key ps) /\
      (fix all (l : list Pair) : Prop :=
         match l with
         | [] => True
         | p :: l' => value_sorted (value p) /\ all l'
         end) ps
  | _ => True
  end.

(** The input of the specification's duplicate-key example. *)
Definition input_a_a : string :=
  "{" ++ q ++ "a" ++ q ++ ":1," ++ q ++ "a" ++ q ++ ":2}".

(** The states of the loop of [parse_object]: [turns pv s out s' out'] when
    the loop, started with the cursor [s] and the object [out], comes after
    some turns to the cursor [s'] with the object [out']. *)
Inductive turns (pv : string -> result JYValue)
  : string -> JYObject -> string -> JYObject -> Prop :=
| turns_here : forall s out, turns pv s out s out
| turns_next : forall s out s1 out1 s2 out2,
    Ascii.eqb (peek s) "}" = false ->
    parse_pair pv s out = Ok out1 s1 ->
    turns pv s1 out1 s2 out2 ->
    turns pv s out s2 out2.

(** The body of a string literal, piece by piece: a byte written as it is,
    or a backslash and an escape letter. *)
Inductive piece : Set :=
| Plain (c : ascii)
| Escaped (e : ascii).

(** A byte that may stand for itself between the quotes. *)
Definition plain_ok (c : ascii) : bool :=
  negb (Ascii.eqb c DQUOTE) && negb (Ascii.eqb c LF)
  && negb (Ascii.eqb c NUL) && negb (Ascii.eqb c BACKSLASH).

Definition piece_ok (p : piece) : bool :=
  match p with
  | Plain c => plain_ok c
  | Escaped e => match escape e with Some _ => true | None => false end
  end.

(** The bytes of the pieces as they stand in the input. *)
Fixpoint source_of (ps : list piece) : string :=
  match ps with
  | [] => EmptyString
  | Plain c :: ps' => String c (source_of ps')
  | Escaped e :: ps' => String BACKSLASH (String e (source_of ps'))
  end.

(** The bytes the pieces stand for. *)
Fixpoint content_of (ps : list piece) : string :=
  match ps with
  | [] => EmptyString
  | Plain c :: ps' => String c (content_of ps')
  | Escaped e :: ps' =>
      String (match escape e with Some c => c | None => e end) (content_of ps')
  end.

(** A run of decimal digits, and the number it writes (continuing from
    [acc]), in unbounded integers. *)
Fixpoint all_digits (s : string) : bool :=
  match s with
  | EmptyString => true
  | String c s' => is_digit c && all_digits s'
  end.

Fixpoint decimal (acc : Z) (s : string) : Z :=
  match s with
  | EmptyString => acc
  | String c s' => decimal (acc * 10 + digit_val c) s'
  end.

(** The integer part of a number literal: a single 0, or digits that do
    not start with 0. *)
Definition int_part_ok (ip : string) : bool :=
  match ip with
  | EmptyString => false
  | String c r =>
      if Ascii.eqb c "0" then
        match r with EmptyString => true | String _ _ => false end
      else is_digit c && all_digits r
  end.

(** The fraction of a number literal: nothing, or a point and at least one
    digit. *)
Definition frac_part_ok (fp : string) : bool :=
  match fp with
  | EmptyString => true
  | String c r =>
      Ascii.eqb c "."
      && match r with EmptyString => false | String _ _ => all_digits r end
  end.

(** Whether the cursor is on the two bytes that open a comment. *)
Definition comment_start (s : string) : bool :=
  match s with
  | String c (String d _) =>
      Ascii.eqb c SLASH && (Ascii.eqb d SLASH || Ascii.eqb d STAR)
  | _ => false
  end.

(** A run of white space. *)
Fixpoint all_space (s : string) : bool :=
  match s with
  | EmptyString => true
  | String c s' => isspace c && all_space s'
  end.

(** The text of a line comment: bytes other than the newline and NUL. *)
Fixpoint line_text (s : string) : bool :=
  match s with
  | EmptyString => true
  | String c s' =>
      negb (Ascii.eqb c LF) && negb (Ascii.eqb c NUL) && line_text s'
  end.

(** The text of a block comment: bytes other than NUL, with no star
    directly followed by a slash. *)
Fixpoint block_text (s : string) : bool :=
  match s with
  | EmptyString => true
  | String c s' =>
      negb (Ascii.eqb c NUL)
      && negb (Ascii.eqb c STAR && Ascii.eqb (peek s') SLASH)
      && block_text s'
  end.

(** A string without a NUL byte: a buffer whose content is the C string it
    holds. *)
Fixpoint no_nul (s : string) : bool :=
  match s with
  | EmptyString => true
  | String c s' => negb (Ascii.eqb c NUL) && no_nul s'
  end.

(** The capacity of a buffer that started empty and grew [g] slots at a
    time, each time it was full, while its count went up to [n]: the least
    multiple of [g] that holds [n] slots. *)
Definition grown (g n : N) : N := (g * ((n + g - 1) / g))%N.

(** A property of every value of a tree: of the value itself and, at any
    depth, of the elements of its arrays and of the values of its pairs. *)
Fixpoint value_all (P : JYValue -> Prop) (v : JYValue) : Prop :=
  P v /\
  match v with
  | VArray (mkArray vs _) =>
      (fix all (l : list JYValue) : Prop :=
         match l with
         | [] => True
         | x :: l' => value_all P x /\ all l'
         end) vs
  | VObject (mkObject ps _) =>
      (fix all (l : list Pair) : Prop :=
         match l with
         | [] => True
         | p :: l' => value_all P (value p) /\ all l'
         end) ps
  | _ => True
  end.

(** The capacity of a container is the one its count grew it to. *)
Definition capacity_fits (v : JYValue) : Prop :=
  match v with
  | VArray a => a_capacity a = grown JAYCEON_ARRAY_GROWTH (a_count a)
  | VObject o => o_capacity o = grown JAYCEON_OBJECT_GROWTH (o_count o)
  | _ => True
  end.

(** The strings of a value, its own and the keys of its pairs, hold no
    NUL byte. *)
Definition strings_hold_no_nul (v : JYValue) : Prop :=
  match v with
  | VString str => no_nul str = true
  | VObject o => Forall (fun p => no_nul (key p) = true) (pairs o)
  | _ => True
  end.

(** The tag the first byte of a value announces, if any. *)
Definition type_of_first_byte (c : ascii) : option Type_ :=
  if Ascii.eqb c "n" then Some TYPE_NULL
  else if Ascii.eqb c "t" || Ascii.eqb c "f" then Some TYPE_BOOL
  else if Ascii.eqb c "-" || is_digit c then Some TYPE_NUMBER
  else if Ascii.eqb c DQUOTE then Some TYPE_STRING
  else if Ascii.eqb c "[" then Some TYPE_ARRAY
  else if Ascii.eqb c "{" then Some TYPE_OBJECT
  else None.

(** A value as the parser builds them, numbers apart: a boolean is 0 or 1,
    no string holds a NUL byte, capacities are the grown ones and keys are
    strictly increasing. *)
Definition reprintable (v : JYValue) : Prop :=
  match v with
  | VNull => True
  | VBool b => b = 0 \/ b = 1
  | VNumber _ => False
  | VString str => no_nul str = true
  | VArray a => a_capacity a = grown JAYCEON_ARRAY_GROWTH (a_count a)
  | VObject o =>
      o_capacity o = grown JAYCEON_OBJECT_GROWTH (o_count o) /\
      sorted_keys (keys o) /\
      Forall (fun p => no_nul (key p) = true) (pairs o)
  end.

(** The double that holds the integer [v], or its opposite when [s] is
    set, for [v] below 2^53: the bits of [v] shifted up to fill the 53 bits
    of the mantissa. *)
Definition int53 (s : bool) (v : positive) : double :=
  S754_finite s (Pos.shiftl v (Z.to_N (52 - Z.log2 (Zpos v))))
              (Z.log2 (Zpos v) - 52).

(** A double that is a normal number not below one, or plus infinity. *)
Definition at_least_one (x : double) : Prop :=
  match x with
  | S754_infinity false => True
  | S754_finite false m e => Z.log2 (Zpos m) = 52 /\ -52 <= e
  | _ => False
  end.

(** * Verification *)

(** ** Type checks *)

(** C9. Each [jy_is_*] check returns non-zero exactly when the value carries
    the corresponding tag; in that case the payload is what it leaves in the
    out parameter, and on any other variant it returns 0 and the out
    parameter keeps its content. *)
Theorem type_checks_narrow :
  forall val : JYValue,
    (jy_is_null val <> 0 <-> type_of val = TYPE_NULL) /\
    (forall out,
        (fst (jy_is_bool val out) <> 0 <-> type_of val = TYPE_BOOL) /\
        (forall b, val = VBool b -> jy_is_bool val out = (1, b)) /\
        (type_of val <> TYPE_BOOL -> jy_is_bool val out = (0, out))) /\
    (forall out,
        (fst (jy_is_number val out) <> 0 <-> type_of val = TYPE_NUMBER) /\
        (forall d, val = VNumber d -> jy_is_number val out = (1, d)) /\
        (type_of val <> TYPE_NUMBER -> jy_is_number val out = (0, out))) /\
    (forall out,
        (fst (jy_is_string val out) <> 0 <-> type_of val = TYPE_STRING) /\
        (forall str, val = VString str -> jy_is_string val out = (1, str)) /\
        (type_of val <> TYPE_STRING -> jy_is_string val out = (0, out))) /\
    (forall out,
        (fst (jy_is_array val out) <> 0 <-> type_of val = TYPE_ARRAY) /\
        (forall a, val = VArray a -> jy_is_array val out = (1, a)) /\
        (type_of val <> TYPE_ARRAY -> jy_is_array val out = (0, out))) /\
    (forall out,
        (fst (jy_is_object val out) <> 0 <-> type_of val = TYPE_OBJECT) /\
        (forall o, val = VObject o -> jy_is_object val out = (1, o)) /\
        (type_of val <> TYPE_OBJECT -> jy_is_object val out = (0, out))).
Proof.
  intros val.
  repeat split; intros;
    destruct val; subst; simpl in *;
    solve [ reflexivity | discriminate | congruence | lia ].
Qed.

(** ** Lookup by index *)

(** An index above the count is rejected, and then [*out_key] is not
    written. *)
Lemma index_above_count :
  (forall (obj : JYArray) (k : N),
      (a_count obj < k)%N -> jy_index_i obj k = NULL) /\
  (forall (obj : JYObject) (index : N) (out_key : cell string),
      (o_count obj < index)%N ->
      jy_index_i_obj obj index out_key = (NULL, out_key)).
Proof.
  split; intros; unfold jy_index_i, jy_index_i_obj;
    match goal with H : (_ < _)%N |- _ => apply N.ltb_lt in H; rewrite H end;
    reflexivity.
Qed.

(** C1, at the boundary.  The bounds check is [count < index], so an index
    equal to the count passes it: on the array parsed from one element the
    lookup of index 1 returns the address of slot 1, which was never
    written, and on the object parsed from one pair it also overwrites
    [*out_key] with the content of that slot.  On containers that were
    never given a buffer, index 0 passes the check as well: for the array
    the address formed from the null buffer is the null address, and for
    the object the key is read through the null buffer. *)
Theorem index_equal_to_count_passes :
  let a := mkArray [VNumber Dbl.one] 16%N in
  let o := mkObject [mkPair "a" (VNumber Dbl.one)] 16%N in
  parse_array (parse_value 1) "[1]" = Ok a "" /\
  a_count a = 1%N /\
  jy_index_i a 1 = Slot 1 /\
  array_at a (jy_index_i a 1) = Uninit /\
  parse_root ("{" ++ q ++ "a" ++ q ++ ":1}") = Ok o "" /\
  o_count o = 1%N /\
  jy_index_i_obj o 1 (Live "before") = (Slot 1, Uninit) /\
  object_at o (fst (jy_index_i_obj o 1 (Live "before"))) = Uninit /\
  jy_index_i (mkArray [] 0%N) 0 = NULL /\
  jy_index_i_obj (mkObject [] 0%N) 0 (Live "before") = (Slot 0, Outside).
Proof. repeat split. Qed.

(** ** The key order *)

Lemma byte_inj (c d : ascii) : byte c = byte d -> c = d.
Proof.
  unfold byte. intros H. apply N2Z.inj in H.
  rewrite <- (ascii_N_embedding c), <- (ascii_N_embedding d).
  now rewrite H.
Qed.

Lemma strcmp_range (a b : string) :
  strcmp a b = -1 \/ strcmp a b = 0 \/ strcmp a b = 1.
Proof.
  revert b. induction a as [|c a IH]; intros [|d b]; simpl; auto.
  destruct (byte c ?= byte d); auto.
Qed.

Lemma strcmp_refl (a : string) : strcmp a a = 0.
Proof.
  induction a as [|c a IH]; simpl; [reflexivity|].
  now rewrite Z.compare_refl.
Qed.

Lemma strcmp_eq (a b : string) : strcmp a b = 0 -> a = b.
Proof.
  revert b. induction a as [|c a IH]; intros [|d b]; simpl;
    try discriminate; [reflexivity|].
  destruct (byte c ?= byte d) eqn:E; try discriminate.
  intros H. apply Z.compare_eq in E. apply byte_inj in E.
  f_equal; auto.
Qed.

Lemma strcmp_eq_iff (a b : string) : strcmp a b = 0 <-> a = b.
Proof.
  split; [apply strcmp_eq | intros ->; apply strcmp_refl].
Qed.

Lemma strcmp_flip (a b : string) : strcmp b a = - strcmp a b.
Proof.
  revert b. induction a as [|c a IH]; intros [|d b]; simpl; try reflexivity.
  rewrite (Z.compare_antisym (byte c) (byte d)).
  destruct (byte c ?= byte d); simpl; auto.
Qed.

Lemma strcmp_trans (a b c : string) :
  strcmp a b < 0 -> strcmp b c < 0 -> strcmp a c < 0.
Proof.
  revert b c.
  induction a as [|x a IH]; intros [|y b] [|z c]; simpl; try lia.
  destruct (Z.compare_spec (byte x) (byte y)) as [Exy|Exy|Exy]; try lia;
    destruct (Z.compare_spec (byte y) (byte z)) as [Eyz|Eyz|Eyz]; try lia;
    destruct (Z.compare_spec (byte x) (byte z)) as [Exz|Exz|Exz]; try lia.
  apply IH.
Qed.

Lemma strcmp_irrefl (a : string) : ~ strcmp a a < 0.
Proof. rewrite strcmp_refl. lia. Qed.

(** ** Sorted keys *)

Lemma sorted_keys_pairwise (ks : list string) :
  sorted_keys ks ->
  forall (i j : nat) (ki kj : string),
    (i < j)%nat -> nth_error ks i = Some ki -> nth_error ks j = Some kj ->
    strcmp ki kj < 0.
Proof.
  intros Hs i j. revert i.
  induction j as [|j IH]; intros i ki kj Hij Hi Hj; [lia|].
  destruct (Nat.eq_dec i j) as [->|Hne].
  - eapply Hs; eauto.
  - destruct (nth_error ks j) as [kj'|] eqn:Ej.
    + apply strcmp_trans with kj'.
      * apply (IH i); auto. lia.
      * eapply Hs; eauto.
    + apply nth_error_None in Ej.
      assert (nth_error ks (S j) <> None) by congruence.
      apply nth_error_Some in H. lia.
Qed.

Lemma slot_key_spec (ps : list Pair) (m : Z) (k : string) :
  slot_key ps m = Some k <->
  0 <= m /\ nth_error (map key ps) (Z.to_nat m) = Some k.
Proof.
  unfold slot_key. rewrite nth_error_map.
  destruct (Z.ltb_spec m 0); split; try discriminate; try lia; tauto.
Qed.

Lemma slot_key_in_bounds (ps : list Pair) (m : Z) :
  0 <= m < Z.of_nat (List.length ps) -> exists k, slot_key ps m = Some k.
Proof.
  intros H. unfold slot_key.
  destruct (Z.ltb_spec m 0); [lia|].
  destruct (nth_error ps (Z.to_nat m)) eqn:E; simpl; eauto.
  apply nth_error_None in E. lia.
Qed.

(** The outcome of the search loop on sorted pairs, started with every key
    before [l] below the searched one and every key after [r] above it. *)
Lemma key_search_sound (ps : list Pair) (k : string) (l r : Z) :
  sorted_keys (map key ps) ->
  0 <= l <= r + 1 -> r < Z.of_nat (List.length ps) ->
  (forall i ki, 0 <= i < l -> slot_key ps i = Some ki -> strcmp k ki > 0) ->
  (forall i ki, r < i -> slot_key ps i = Some ki -> strcmp k ki < 0) ->
  match key_search ps k l r with
  | Found m => 0 <= m /\ slot_key ps m = Some k
  | Absent l' =>
      0 <= l' <= Z.of_nat (List.length ps) /\
      (forall i ki, 0 <= i < l' -> slot_key ps i = Some ki -> strcmp k ki > 0) /\
      (forall i ki, l' <= i -> slot_key ps i = Some ki -> strcmp k ki < 0)
  | Stray => False
  end.
Proof.
  intros Hs.
  funelim (key_search ps k l r); intros Hl Hr Hlo Hhi;
    try (pose proof (Z.quot_rem' (l + r) 2);
         pose proof (Z.rem_bound_abs (l + r) 2)).
  - repeat split; try lia; auto.
    intros i ki Hi. apply Hhi. lia.
  - destruct (slot_key_in_bounds ps ((l + r) ÷ 2)) as [km Hm]; [lia|].
    congruence.
  - match goal with IH : _ -> _ -> _ -> _ -> _ -> match _ with _ => _ end |- _ =>
      apply IH end; auto; try lia.
    intros i ki Hi Hki.
    assert (Hcmp : strcmp km ki < 0 \/ km = ki).
    { destruct (Z.eq_dec i ((l + r) ÷ 2)) as [->|Hne]; [right; congruence|].
      left. apply slot_key_spec in Hki, Heq0.
      eapply (sorted_keys_pairwise _ Hs (Z.to_nat ((l + r) ÷ 2)) (Z.to_nat i));
        try tauto. lia. }
    destruct Hcmp as [Hcmp| <-]; [|assumption].
    apply strcmp_trans with km; auto.
  - match goal with IH : _ -> _ -> _ -> _ -> _ -> match _ with _ => _ end |- _ =>
      apply IH end; auto; try lia.
    intros i ki Hi Hki.
    assert (Hcmp : strcmp ki km < 0 \/ km = ki).
    { destruct (Z.eq_dec i ((l + r) ÷ 2)) as [->|Hne]; [right; congruence|].
      left. apply slot_key_spec in Hki, Heq0.
      eapply (sorted_keys_pairwise _ Hs (Z.to_nat i) (Z.to_nat ((l + r) ÷ 2)));
        try tauto. lia. }
    destruct Hcmp as [Hcmp| <-]; [|lia].
    rewrite strcmp_flip.
    assert (strcmp ki k < 0); [|lia].
    apply strcmp_trans with km; auto.
    rewrite strcmp_flip. lia.
  - split; [lia|]. pose proof (strcmp_eq _ _ e). congruence.
Qed.

Lemma sorted_keys_check (ks : list string) :
  sorted_keysb ks = true -> sorted_keys ks.
Proof.
  induction ks as [|k ks IH]; intros H i a b Hi Hj.
  - destruct i; discriminate.
  - destruct ks as [|k' ks]; [destruct i as [|[|i]]; discriminate|].
    simpl in H. apply andb_prop in H as [Hlt Hrest].
    destruct i as [|i].
    + simpl in Hi, Hj. injection Hi as <-. injection Hj as <-.
      now apply Z.ltb_lt.
    + apply (IH Hrest i); assumption.
Qed.

Lemma sorted_keys_nil : sorted_keys [].
Proof. apply sorted_keys_check. reflexivity. Qed.

(** On sorted pairs the search started on the whole range finds the slot
    of the key, or reports where it belongs. *)
Lemma key_search_whole (ps : list Pair) (k : string) :
  sorted_keys (map key ps) ->
  match key_search ps k 0 (Z.of_N (N.of_nat (List.length ps)) - 1) with
  | Found m => 0 <= m /\ slot_key ps m = Some k
  | Absent l =>
      0 <= l <= Z.of_nat (List.length ps) /\
      (forall i ki, 0 <= i < l -> slot_key ps i = Some ki -> strcmp k ki > 0) /\
      (forall i ki, l <= i -> slot_key ps i = Some ki -> strcmp k ki < 0)
  | Stray => False
  end.
Proof.
  intros Hs. apply key_search_sound; auto; try (rewrite nat_N_Z; lia).
  { intros; lia. }
  intros i ki Hi Hki. apply slot_key_spec in Hki as [Hi0 Hki].
  assert (nth_error (map key ps) (Z.to_nat i) <> None) by congruence.
  apply nth_error_Some in H. rewrite length_map in H.
  rewrite nat_N_Z in Hi. lia.
Qed.

Lemma In_slot_key (ps : list Pair) (p : Pair) :
  In p ps -> exists i, 0 <= i /\ nth_error ps (Z.to_nat i) = Some p /\
                       slot_key ps i = Some (key p).
Proof.
  intros H. apply In_nth_error in H as [n Hn].
  exists (Z.of_nat n). rewrite <- (Nat2Z.id n) in Hn.
  split; [lia|]. split; [assumption|].
  apply slot_key_spec. split; [lia|].
  rewrite nth_error_map, Hn. reflexivity.
Qed.

(** Two slots of sorted pairs that hold the same key are the same slot. *)
Lemma sorted_keys_slot_unique (ps : list Pair) (i j : Z) (k : string) :
  sorted_keys (map key ps) ->
  slot_key ps i = Some k -> slot_key ps j = Some k -> i = j.
Proof.
  intros Hs Hi Hj.
  apply slot_key_spec in Hi as [Hi0 Hi], Hj as [Hj0 Hj].
  destruct (Z.lt_trichotomy i j) as [H|[H|H]]; [|assumption|]; exfalso.
  - apply (strcmp_irrefl k).
    apply (sorted_keys_pairwise _ Hs (Z.to_nat i) (Z.to_nat j)); auto. lia.
  - apply (strcmp_irrefl k).
    apply (sorted_keys_pairwise _ Hs (Z.to_nat j) (Z.to_nat i)); auto. lia.
Qed.

(** ** Lookup by key *)

(** C8. On an object whose keys are strictly increasing, [jy_index_s]
    returns the address of the value paired with the searched key when some
    pair has a key that compares equal to it, and [NULL] when no pair has. *)
Theorem jy_index_s_correct (obj : JYObject) (k : string) :
  sorted_keys (keys obj) ->
  (forall p, In p (pairs obj) -> strcmp k (key p) = 0 ->
     exists m, jy_index_s obj k = Slot m /\
               object_at obj (jy_index_s obj k) = Live (value p)) /\
  ((forall p, In p (pairs obj) -> strcmp k (key p) <> 0) ->
     jy_index_s obj k = NULL).
Proof.
  intros Hs. unfold keys in Hs.
  pose proof (key_search_whole (pairs obj) k Hs) as Hk.
  unfold jy_index_s, o_count.
  destruct (key_search (pairs obj) k 0
              (Z.of_N (N.of_nat (List.length (pairs obj))) - 1))
    as [m|l|]; [| |contradiction].
  - destruct Hk as [Hm Hkm]. split.
    + intros p Hp Hcmp. exists m. split; [reflexivity|].
      apply strcmp_eq in Hcmp. subst k.
      destruct (In_slot_key _ _ Hp) as (i & Hi & Hnth & Hki).
      assert (i = m) by (eapply sorted_keys_slot_unique; eauto). subst i.
      simpl. unfold slot_of.
      destruct (Z.ltb_spec m 0); [lia|]. now rewrite Hnth.
    + intros Hnone. exfalso.
      apply slot_key_spec in Hkm as [_ Hkm].
      rewrite nth_error_map in Hkm.
      destruct (nth_error (pairs obj) (Z.to_nat m)) as [p|] eqn:E;
        [|discriminate].
      apply (Hnone p); [eapply nth_error_In; eauto|].
      injection Hkm as <-. apply strcmp_refl.
  - destruct Hk as (Hl & Hlo & Hhi). split; [|reflexivity].
    intros p Hp Hcmp. exfalso.
    destruct (In_slot_key _ _ Hp) as (i & Hi & Hnth & Hki).
    destruct (Z.lt_ge_cases i l).
    + specialize (Hlo i _ (conj Hi H) Hki). lia.
    + specialize (Hhi i _ H Hki). lia.
Qed.

(** The lookups of the example: both keys are found, with their values,
    and a key that is not there is not. *)
Lemma jy_index_s_example :
  let o := mkObject [mkPair "a" (VNumber Dbl.one); mkPair "b" (VNumber Dbl.zero)] 16%N in
  parse_root input_b_a = Ok o "" /\
  sorted_keys (keys o) /\
  (exists m, jy_index_s o "a" = Slot m /\
             object_at o (jy_index_s o "a") = Live (VNumber Dbl.one)) /\
  (exists m, jy_index_s o "b" = Slot m /\
             object_at o (jy_index_s o "b") = Live (VNumber Dbl.zero)) /\
  jy_index_s o "c" = NULL.
Proof.
  intros o.
  assert (Hs : sorted_keys (keys o)) by (apply sorted_keys_check; reflexivity).
  split; [vm_compute; reflexivity|]. split; [exact Hs|].
  destruct (jy_index_s_correct o "a" Hs) as [Ha _].
  destruct (jy_index_s_correct o "b" Hs) as [Hb _].
  destruct (jy_index_s_correct o "c" Hs) as [_ Hc].
  split; [|split].
  - apply (Ha (mkPair "a" (VNumber Dbl.one))); [simpl; auto | reflexivity].
  - apply (Hb (mkPair "b" (VNumber Dbl.zero))); [simpl; auto | reflexivity].
  - apply Hc. intros p [<-|[<-|[]]]; simpl; discriminate.
Defined.

(** ** Sorted insertion *)

Lemma sorted_keys_single (a : string) : sorted_keys [a].
Proof. apply sorted_keys_check. reflexivity. Qed.

Lemma sorted_keys_cons (a b : string) (l : list string) :
  sorted_keys (a :: b :: l) <-> strcmp a b < 0 /\ sorted_keys (b :: l).
Proof.
  split.
  - intros H. split.
    + apply (H 0%nat); reflexivity.
    + intros i x y Hx Hy. apply (H (S i)); assumption.
  - intros [Hab Hs] [|i] x y Hx Hy.
    + simpl in Hx, Hy. congruence.
    + apply (Hs i); assumption.
Qed.

Lemma sorted_keys_tail (a : string) (l : list string) :
  sorted_keys (a :: l) -> sorted_keys l.
Proof.
  destruct l as [|b l]; [intros; apply sorted_keys_nil|].
  intros H. now apply sorted_keys_cons in H.
Qed.

(** A key put between the keys below it and the keys above it keeps the
    sequence strictly increasing. *)
Lemma sorted_keys_insert (ks : list string) (n : nat) (k : string) :
  sorted_keys ks ->
  (forall i ki, (i < n)%nat -> nth_error ks i = Some ki -> strcmp ki k < 0) ->
  (forall i ki, (n <= i)%nat -> nth_error ks i = Some ki -> strcmp k ki < 0) ->
  sorted_keys (firstn n ks ++ k :: skipn n ks)%list.
Proof.
  revert n. induction ks as [|a ks IH]; intros n Hs Hlo Hhi.
  - rewrite firstn_nil, skipn_nil. apply sorted_keys_single.
  - destruct n as [|n].
    + simpl. apply sorted_keys_cons. split; [|assumption].
      apply (Hhi 0%nat); [lia | reflexivity].
    + simpl.
      assert (Hrest : sorted_keys (firstn n ks ++ k :: skipn n ks)%list).
      { apply IH.
        - eapply sorted_keys_tail; eauto.
        - intros i ki Hi Hki. apply (Hlo (S i)); [lia | assumption].
        - intros i ki Hi Hki. apply (Hhi (S i)); [lia | assumption]. }
      destruct n as [|n]; [|destruct ks as [|b ks]].
      * simpl in *. apply sorted_keys_cons. split; [|assumption].
        apply (Hlo 0%nat); [lia | reflexivity].
      * simpl in *. apply sorted_keys_cons. split; [|assumption].
        apply (Hlo 0%nat); [lia | reflexivity].
      * simpl in *. apply sorted_keys_cons. split; [|assumption].
        now apply sorted_keys_cons in Hs.
Qed.

Lemma keys_insert_at (ps : list Pair) (l : Z) (p : Pair) :
  map key (insert_at ps l p)
  = (firstn (Z.to_nat l) (map key ps)
       ++ key p :: skipn (Z.to_nat l) (map key ps))%list.
Proof.
  unfold insert_at. rewrite map_app. simpl.
  now rewrite firstn_map, skipn_map.
Qed.

(** The insertion of [parse_object]: on sorted pairs it fails exactly when
    the key is already there, and otherwise stores the pair at a slot that
    keeps the keys strictly increasing. *)
Lemma object_insert_spec (out : JYObject) (k : string) (val : JYValue) :
  sorted_keys (keys out) ->
  match object_insert out k val with
  | None => In k (keys out)
  | Some out' =>
      ~ In k (keys out) /\
      sorted_keys (keys out') /\
      exists l, 0 <= l <= Z.of_nat (List.length (pairs out)) /\
                pairs out' = insert_at (pairs out) l (mkPair k val)
  end.
Proof.
  intros Hs. unfold keys in *.
  pose proof (key_search_whole (pairs out) k Hs) as Hk.
  unfold object_insert, o_count.
  destruct (key_search (pairs out) k 0
              (Z.of_N (N.of_nat (List.length (pairs out))) - 1))
    as [m|l|]; [| |contradiction].
  - destruct Hk as [_ Hk]. apply slot_key_spec in Hk as [_ Hk].
    eapply nth_error_In; eauto.
  - destruct Hk as (Hl & Hlo & Hhi). simpl. split; [|split].
    + intros Hin. apply In_nth_error in Hin as [n Hn].
      assert (Hsk : slot_key (pairs out) (Z.of_nat n) = Some k).
      { apply slot_key_spec. rewrite Nat2Z.id. split; [lia | assumption]. }
      pose proof (strcmp_refl k).
      destruct (Z.lt_ge_cases (Z.of_nat n) l) as [Hlt|Hge].
      * specialize (Hlo _ _ (conj (Nat2Z.is_nonneg n) Hlt) Hsk). lia.
      * specialize (Hhi _ _ Hge Hsk). lia.
    + rewrite keys_insert_at. simpl. apply sorted_keys_insert; auto.
      * intros i ki Hi Hki. rewrite strcmp_flip.
        assert (strcmp k ki > 0); [|lia].
        apply (Hlo (Z.of_nat i)); [lia|].
        apply slot_key_spec. rewrite Nat2Z.id. split; [lia | assumption].
      * intros i ki Hi Hki.
        apply (Hhi (Z.of_nat i)); [lia|].
        apply slot_key_spec. rewrite Nat2Z.id. split; [lia | assumption].
    + exists l. split; [lia | reflexivity].
Qed.

(** ** The sortedness invariant of parsed objects *)

Lemma value_sorted_array (vs : list JYValue) (cap : N) :
  value_sorted (VArray (mkArray vs cap)) <-> Forall value_sorted vs.
Proof.
  simpl. induction vs as [|x vs IH]; split; intros H; auto.
  - destruct H as [Hx H]. constructor; [assumption | now apply IH].
  - inversion H; subst. split; [assumption | now apply IH].
Qed.

Lemma value_sorted_object (ps : list Pair) (cap : N) :
  value_sorted (VObject (mkObject ps cap)) <->
  sorted_keys (map key ps) /\ Forall (fun p => value_sorted (value p)) ps.
Proof.
  simpl. apply and_iff_compat_l.
  induction ps as [|x ps IH]; split; intros H; auto.
  - destruct H as [Hx H]. constructor; [assumption | now apply IH].
  - inversion H; subst. split; [assumption | now apply IH].
Qed.

Lemma Forall_insert_at (P : Pair -> Prop) (ps : list Pair) (l : Z) (p : Pair) :
  Forall P ps -> P p -> Forall P (insert_at ps l p).
Proof.
  intros Hps Hp. unfold insert_at.
  rewrite <- (firstn_skipn (Z.to_nat l) ps) in Hps.
  apply Forall_app in Hps as [Hfirst Hlast].
  apply Forall_app. split; [assumption|]. now constructor.
Qed.

Section LoopInvariants.

(** The value parser called back, and a property of every value it
    returns. *)
Variable pv : string -> result JYValue.
Variable P : JYValue -> Prop.
Hypothesis pv_P : forall s v rest, pv s = Ok v rest -> P v.

Lemma parse_element_inv (s : string) (out out' : JYArray) (s' : string) :
  Forall P (values out) ->
  parse_element pv s out = Ok out' s' ->
  Forall P (values out').
Proof.
  intros Hout. unfold parse_element.
  destruct (pv s) as [res s1| |] eqn:E; try discriminate.
  assert (Forall P (values (array_push out res))).
  { simpl. apply Forall_app. split; [assumption|].
    constructor; [eapply pv_P; eauto | constructor]. }
  destruct (Ascii.eqb (peek (parse_space s1)) ",").
  - intros [= <- <-]. assumption.
  - destruct (negb (Ascii.eqb (peek (parse_space s1)) "]")); try discriminate.
    intros [= <- <-]. assumption.
Qed.

Lemma parse_array_loop_inv (n : nat) :
  forall (s : string) (out out' : JYArray) (s' : string),
    Forall P (values out) ->
    parse_array_loop pv n s out = Ok out' s' ->
    Forall P (values out').
Proof.
  induction n as [|n IH]; intros s out out' s' Hout; simpl;
    destruct (Ascii.eqb (peek s) "]"); try discriminate;
    try (intros [= <- <-]; assumption).
  destruct (parse_element pv s out) as [out1 s1| |] eqn:E; try discriminate.
  apply IH. eapply parse_element_inv; eauto.
Qed.

Lemma parse_array_inv (s : string) (out' : JYArray) (s' : string) :
  parse_array pv s = Ok out' s' -> Forall P (values out').
Proof.
  unfold parse_array.
  destruct (negb (Ascii.eqb (peek s) "[")); try discriminate.
  destruct (Ascii.eqb (peek (parse_space (advance s))) NUL); try discriminate.
  apply parse_array_loop_inv. constructor.
Qed.

Lemma parse_pair_inv (s : string) (out out' : JYObject) (s' : string) :
  sorted_keys (keys out) /\ Forall (fun p => P (value p)) (pairs out) ->
  parse_pair pv s out = Ok out' s' ->
  sorted_keys (keys out') /\ Forall (fun p => P (value p)) (pairs out').
Proof.
  intros [Hs Hout]. unfold parse_pair.
  destruct (parse_string s) as [[k s1]|]; try discriminate.
  destruct (negb (Ascii.eqb (peek (parse_space s1)) ":")); try discriminate.
  destruct (pv (parse_space (advance (parse_space s1)))) as [val s2| |] eqn:E;
    try discriminate.
  pose proof (object_insert_spec out k val Hs) as Hins.
  destruct (object_insert out k val) as [out1|]; try discriminate.
  destruct Hins as (_ & Hs1 & l & _ & Hl).
  assert (Forall (fun p => P (value p)) (pairs out1)).
  { rewrite Hl. apply Forall_insert_at; [assumption|]. simpl.
    eapply pv_P; eauto. }
  destruct (Ascii.eqb (peek (parse_space s2)) ",").
  - intros [= <- <-]. auto.
  - destruct (negb (Ascii.eqb (peek (parse_space s2)) "}")); try discriminate.
    intros [= <- <-]. auto.
Qed.

Lemma parse_object_loop_inv (n : nat) :
  forall (s : string) (out out' : JYObject) (s' : string),
    sorted_keys (keys out) /\ Forall (fun p => P (value p)) (pairs out) ->
    parse_object_loop pv n s out = Ok out' s' ->
    sorted_keys (keys out') /\ Forall (fun p => P (value p)) (pairs out').
Proof.
  induction n as [|n IH]; intros s out out' s' Hout; simpl;
    destruct (Ascii.eqb (peek s) "}"); try discriminate;
    try (intros [= <- <-]; assumption).
  destruct (parse_pair pv s out) as [out1 s1| |] eqn:E; try discriminate.
  apply IH. eapply parse_pair_inv; eauto.
Qed.

Lemma parse_object_inv (s : string) (out' : JYObject) (s' : string) :
  parse_object pv s = Ok out' s' ->
  sorted_keys (keys out') /\ Forall (fun p => P (value p)) (pairs out').
Proof.
  unfold parse_object.
  destruct (negb (Ascii.eqb (peek s) "{")); try discriminate.
  destruct (Ascii.eqb (peek (parse_space (advance s))) NUL); try discriminate.
  apply parse_object_loop_inv. split; [apply sorted_keys_nil | constructor].
Qed.

End LoopInvariants.

Lemma parse_value_sorted (fuel : nat) :
  forall (s : string) (v : JYValue) (rest : string),
    parse_value fuel s = Ok v rest -> value_sorted v.
Proof.
  induction fuel as [|fuel IH]; intros s v rest; simpl; [discriminate|].
  destruct (parse_null s); [intros [= <- _]; exact I|].
  destruct (parse_bool s) as [[b t]|]; [intros [= <- _]; exact I|].
  destruct (parse_number s) as [[d t]|]; [intros [= <- _]; exact I|].
  destruct (parse_string s) as [[str t]|]; [intros [= <- _]; exact I|].
  destruct (parse_array (parse_value fuel) s) as [a t| |] eqn:Ea;
    try discriminate.
  - intros [= <- _]. destruct a as [vs cap]. apply value_sorted_array.
    apply (parse_array_inv _ _ IH _ _ _ Ea).
  - destruct (parse_object (parse_value fuel) s) as [o t| |] eqn:Eo;
      try discriminate.
    intros [= <- _]. destruct o as [ps cap]. apply value_sorted_object.
    apply (parse_object_inv _ _ IH _ _ _ Eo).
Qed.

Lemma jy_index_i_obj_live (o : JYObject) (i : N) (c : cell string) :
  (i < o_count o)%N ->
  exists p, nth_error (pairs o) (N.to_nat i) = Some p /\
            jy_index_i_obj o i c = (Slot (Z.of_N i), Live (key p)).
Proof.
  unfold jy_index_i_obj, o_count. intros Hi.
  destruct (nth_error (pairs o) (N.to_nat i)) as [p|] eqn:E.
  - exists p. split; [reflexivity|].
    destruct (N.ltb_spec (N.of_nat (List.length (pairs o))) i); [lia|].
    unfold slot_of. destruct (Z.ltb_spec (Z.of_N i) 0); [lia|].
    replace (Z.to_nat (Z.of_N i)) with (N.to_nat i) by lia.
    rewrite E. reflexivity.
  - apply nth_error_None in E. lia.
Qed.

(** C4. Every object of a successfully parsed document, the root and the
    nested ones, has strictly increasing keys: [strcmp] of every key with
    its successor is negative.  Whatever the object parser returns has
    them; the insertion keeps them whatever pairs are there and whichever
    key comes next; and reading the pairs by index yields the keys in
    strictly increasing order. *)
Theorem parsed_objects_sorted :
  (forall s doc, jy_parse s = Some doc -> value_sorted (VObject (root doc))) /\
  (forall pv s o rest, parse_object pv s = Ok o rest -> sorted_keys (keys o)) /\
  (forall out k val out',
      sorted_keys (keys out) -> object_insert out k val = Some out' ->
      sorted_keys (keys out')) /\
  (forall pv s o rest i c,
      parse_object pv s = Ok o rest -> (i + 1 < o_count o)%N ->
      exists ki kj,
        jy_index_i_obj o i c = (Slot (Z.of_N i), Live ki) /\
        jy_index_i_obj o (i + 1) c = (Slot (Z.of_N (i + 1)), Live kj) /\
        strcmp ki kj < 0).
Proof.
  assert (Hobj : forall pv s o rest,
             parse_object pv s = Ok o rest -> sorted_keys (keys o)).
  { intros pv s o rest H.
    apply (parse_object_inv pv (fun _ => True) (fun _ _ _ _ => I) _ _ _ H). }
  repeat split.
  - intros s doc. unfold jy_parse, parse_root.
    destruct (parse_object (parse_value (String.length s)) s)
      as [o rest| |] eqn:E; try discriminate.
    intros [= <-]. simpl root. destruct o as [ps cap].
    apply value_sorted_object.
    apply (parse_object_inv _ _ (parse_value_sorted _) _ _ _ E).
  - exact Hobj.
  - intros out k val out' Hs Hins.
    pose proof (object_insert_spec out k val Hs) as H.
    rewrite Hins in H. apply H.
  - intros pv s o rest i c Hp Hi.
    destruct (jy_index_i_obj_live o i c) as (p & Hp1 & ->); [lia|].
    destruct (jy_index_i_obj_live o (i + 1) c) as (p' & Hp2 & ->); [lia|].
    exists (key p), (key p'). repeat split.
    apply (Hobj _ _ _ _ Hp (N.to_nat i)); unfold keys;
      rewrite nth_error_map.
    + now rewrite Hp1.
    + replace (S (N.to_nat i)) with (N.to_nat (i + 1)) by lia.
      now rewrite Hp2.
Qed.

(** ** Cursors only move forward *)

Lemma advance_length (s : string) : (String.length (advance s) <= String.length s)%nat.
Proof. destruct s; simpl; lia. Qed.

Lemma advance_length_lt (s : string) (c : ascii) :
  Ascii.eqb (peek s) c = true -> c <> NUL ->
  (String.length (advance s) < String.length s)%nat.
Proof.
  destruct s; cbn [peek advance String.length]; [|lia].
  intros H Hc. apply Ascii.eqb_eq in H. congruence.
Qed.

Lemma skip_line_length (k : string -> string) (t : string) :
  (forall u, (String.length u <= String.length t)%nat ->
             (String.length (k u) <= String.length u)%nat) ->
  (String.length (skip_line k t) <= String.length t)%nat.
Proof.
  induction t as [|c t IH]; intros Hk; simpl.
  - apply Hk. simpl. lia.
  - destruct (Ascii.eqb c NUL || Ascii.eqb c LF).
    + apply (Hk (String c t)). lia.
    + etransitivity; [apply IH|lia].
      intros u Hu. apply Hk. simpl. lia.
Qed.

Lemma skip_block_length (k : string -> string) (t : string) :
  (forall u, (String.length u <= String.length t)%nat ->
             (String.length (k u) <= String.length u)%nat) ->
  (String.length (skip_block k t) <= String.length t)%nat.
Proof.
  induction t as [|c t IH]; intros Hk; simpl.
  - apply Hk. simpl. lia.
  - assert (Hgo : (String.length (skip_block k t) <= String.length t)%nat).
    { apply IH. intros u Hu. apply Hk. simpl. lia. }
    destruct (Ascii.eqb c NUL); [apply (Hk (String c t)); lia|].
    destruct (Ascii.eqb c STAR); [|simpl in *; lia].
    destruct t as [|d t]; [simpl in *; lia|].
    destruct (Ascii.eqb d SLASH); [|simpl in *; lia].
    etransitivity; [apply Hk|]; simpl; lia.
Qed.

Lemma parse_space_length (s : string) :
  (String.length (parse_space s) <= String.length s)%nat.
Proof.
  assert (H : forall n s, (String.length s <= n)%nat ->
                (String.length (parse_space s) <= String.length s)%nat);
    [|now apply (H (String.length s))].
  clear s. induction n as [|n IH]; intros s Hn.
  - destruct s; simpl in *; lia.
  - destruct s as [|c s]; simpl; [lia|]. simpl in Hn.
    destruct (isspace c).
    + etransitivity; [apply IH|]; lia.
    + destruct (Ascii.eqb c SLASH); [|simpl; lia].
      destruct s as [|d s]; [simpl; lia|]. simpl in Hn.
      destruct (Ascii.eqb d SLASH); [|destruct (Ascii.eqb d STAR)];
        [| |simpl; lia].
      * etransitivity; [apply skip_line_length|simpl; lia].
        intros u Hu. apply IH. lia.
      * etransitivity; [apply skip_block_length|simpl; lia].
        intros u Hu. apply IH. lia.
Qed.

Lemma match_word_length (w s s' : string) :
  match_word w s = Some s' ->
  (String.length s' + String.length w = String.length s)%nat.
Proof.
  revert s. induction w as [|c w IH]; intros s; simpl.
  - intros [= ->]. lia.
  - destruct s as [|d s]; [discriminate|].
    destruct (Ascii.eqb c d); [|discriminate].
    intros H. apply IH in H. simpl. lia.
Qed.

Lemma parse_null_length (s s' : string) :
  parse_null s = Some s' -> (String.length s' < String.length s)%nat.
Proof.
  unfold parse_null. intros H. apply match_word_length in H. simpl in H. lia.
Qed.

Lemma parse_bool_length (s s' : string) (b : Z) :
  parse_bool s = Some (b, s') -> (String.length s' < String.length s)%nat.
Proof.
  unfold parse_bool.
  destruct (match_word (if Ascii.eqb (peek s) "t" then "true" else "false") s)
    as [t|] eqn:E; [|discriminate].
  intros [= _ <-]. apply match_word_length in E.
  destruct (Ascii.eqb (peek s) "t"); simpl in E; lia.
Qed.

Lemma int_digits_length (s : string) :
  forall (val val' : double) (s' : string),
    int_digits s val = (val', s') ->
    (String.length s' <= String.length s)%nat /\
    (String.length s' = String.length s -> val' = val).
Proof.
  induction s as [|c s IH]; intros val val' s'; simpl.
  - intros [= <- <-]. auto.
  - destruct (is_digit c).
    + intros H. apply IH in H. simpl. lia.
    + intros [= <- <-]. auto.
Qed.

Lemma frac_digits_length (s : string) :
  forall (frac val val' : double) (s' : string),
    frac_digits s frac val = (val', s') ->
    (String.length s' <= String.length s)%nat.
Proof.
  induction s as [|c s IH]; intros frac val val' s'; simpl.
  - intros [= <- <-]. auto.
  - destruct (is_digit c).
    + intros H. apply IH in H. lia.
    + intros [= <- <-]. simpl. lia.
Qed.

Lemma exp_digits_length (s : string) :
  forall (exp exp' : Z) (s' : string),
    exp_digits s exp = (exp', s') ->
    (String.length s' <= String.length s)%nat.
Proof.
  induction s as [|c s IH]; intros exp exp' s'; simpl.
  - intros [= <- <-]. auto.
  - destruct (is_digit c).
    + intros H. apply IH in H. lia.
    + intros [= <- <-]. simpl. lia.
Qed.

Lemma number_int_length (s s' : string) (val : double) :
  number_int s = Some (val, s') -> (String.length s' < String.length s)%nat.
Proof.
  unfold number_int.
  destruct (Ascii.eqb (peek s) "0") eqn:E0.
  - intros [= _ <-]. eapply advance_length_lt; eauto. discriminate.
  - destruct (int_digits s Dbl.zero) as [v t] eqn:E.
    apply int_digits_length in E as [Hle Heq].
    destruct (Dbl.eqb v Dbl.zero) eqn:Ez; [discriminate|].
    intros [= <- <-].
    destruct (Nat.eq_dec (String.length t) (String.length s)) as [Hl|Hl];
      [|lia].
    rewrite (Heq Hl) in Ez. discriminate.
Qed.

Lemma number_frac_length (s s' : string) (val val' : double) :
  number_frac val s = Some (val', s') ->
  (String.length s' <= String.length s)%nat.
Proof.
  unfold number_frac.
  destruct (Ascii.eqb (peek s) "."); [|intros [= _ <-]; lia].
  destruct (negb (is_digit (peek (advance s)))); [discriminate|].
  intros [= H]. apply frac_digits_length in H.
  pose proof (advance_length s). lia.
Qed.

Lemma number_exp_length (s s' : string) (val val' : double) :
  number_exp val s = Some (val', s') ->
  (String.length s' <= String.length s)%nat.
Proof.
  unfold number_exp.
  destruct (Ascii.eqb (peek s) "e" || Ascii.eqb (peek s) "E");
    [|intros [= _ <-]; lia].
  destruct (if Ascii.eqb (peek (advance s)) "+" then Some 0
            else if Ascii.eqb (peek (advance s)) "-" then Some 1 else None)
    as [sign|]; [|discriminate].
  destruct (negb (is_digit (peek (advance (advance s))))); [discriminate|].
  destruct (exp_digits (advance (advance s)) 0) as [e t] eqn:E.
  intros [= _ <-]. apply exp_digits_length in E.
  pose proof (advance_length s). pose proof (advance_length (advance s)). lia.
Qed.

Lemma parse_number_length (s s' : string) (val : double) :
  parse_number s = Some (val, s') -> (String.length s' < String.length s)%nat.
Proof.
  unfold parse_number.
  assert (Hs : forall (sg : Z) (t : string),
             (if Ascii.eqb (peek s) "-" then (1, advance s) else (0, s)) = (sg, t) ->
             (String.length t <= String.length s)%nat).
  { intros sg t. destruct (Ascii.eqb (peek s) "-"); intros [= _ <-];
      [apply advance_length | lia]. }
  destruct (if Ascii.eqb (peek s) "-" then (1, advance s) else (0, s))
    as [sg t] eqn:E.
  specialize (Hs _ _ eq_refl).
  destruct (number_int t) as [[v1 t1]|] eqn:E1; [|discriminate].
  destruct (number_frac v1 t1) as [[v2 t2]|] eqn:E2; [|discriminate].
  destruct (number_exp v2 t2) as [[v3 t3]|] eqn:E3; [|discriminate].
  intros [= _ <-].
  apply number_int_length in E1. apply number_frac_length in E2.
  apply number_exp_length in E3. lia.
Qed.

Lemma parse_string_loop_length (s : string) :
  forall (val : string) (cap : N) (val' : string) (cap' : N) (s' : string),
    parse_string_loop s val cap = Some (val', cap', s') ->
    (String.length s' <= String.length s)%nat /\ peek s' = DQUOTE.
Proof.
  assert (H : forall n s, (String.length s <= n)%nat ->
    forall (val : string) (cap : N) (val' : string) (cap' : N) (s' : string),
      parse_string_loop s val cap = Some (val', cap', s') ->
      (String.length s' <= String.length s)%nat /\ peek s' = DQUOTE);
    [|now apply (H (String.length s))].
  clear s. induction n as [|n IH]; intros s Hn val cap val' cap' s'.
  - destruct s; [discriminate | simpl in Hn; lia].
  - destruct s as [|c s]; [discriminate|]. simpl in Hn. simpl.
    destruct (Ascii.eqb c DQUOTE) eqn:Eq.
    + intros [= <- <- <-]. simpl. split; [lia|]. now apply Ascii.eqb_eq.
    + destruct (Ascii.eqb c LF || Ascii.eqb c NUL); [discriminate|].
      destruct (Ascii.eqb c BACKSLASH).
      * destruct s as [|e s]; [discriminate|]. simpl in Hn.
        destruct (escape e); [|discriminate].
        intros H. apply IH in H; [|lia]. simpl. split; [lia|tauto].
      * intros H. apply IH in H; [|lia]. simpl. split; [lia|tauto].
Qed.

Lemma parse_string_length (s s' val : string) :
  parse_string s = Some (val, s') -> (String.length s' < String.length s)%nat.
Proof.
  unfold parse_string.
  destruct (Ascii.eqb (peek s) DQUOTE) eqn:Eq; [|discriminate]. simpl.
  destruct (parse_string_loop (advance s) "" 0) as [[[v c] t]|] eqn:E;
    [|discriminate].
  intros [= _ <-]. apply parse_string_loop_length in E as [Hle Hq].
  assert (Hq0 : DQUOTE <> NUL) by discriminate.
  pose proof (advance_length_lt s DQUOTE Eq Hq0).
  pose proof (advance_length t). lia.
Qed.

Section Progress.

(** A value parser that consumes input whenever it succeeds. *)
Variable pv : string -> result JYValue.
Hypothesis pv_shrinks :
  forall s v rest, pv s = Ok v rest ->
                   (String.length rest < String.length s)%nat.

Lemma parse_element_length (s : string) (out out' : JYArray) (s' : string) :
  parse_element pv s out = Ok out' s' ->
  (String.length s' < String.length s)%nat.
Proof.
  unfold parse_element.
  destruct (pv s) as [res s1| |] eqn:E; try discriminate.
  apply pv_shrinks in E.
  pose proof (parse_space_length s1).
  pose proof (parse_space_length (parse_space s1)).
  pose proof (parse_space_length (advance (parse_space s1))).
  pose proof (advance_length (parse_space s1)).
  destruct (Ascii.eqb (peek (parse_space s1)) ","); [intros [= _ <-]; lia|].
  destruct (negb (Ascii.eqb (peek (parse_space s1)) "]")); [discriminate|].
  intros [= _ <-]. lia.
Qed.

Lemma parse_array_loop_length (n : nat) :
  forall (s : string) (out out' : JYArray) (s' : string),
    parse_array_loop pv n s out = Ok out' s' ->
    (String.length s' < String.length s)%nat.
Proof.
  induction n as [|n IH]; intros s out out' s'; simpl;
    destruct (Ascii.eqb (peek s) "]") eqn:Eb; try discriminate;
    try (intros [= _ <-]; eapply advance_length_lt; eauto; discriminate).
  destruct (parse_element pv s out) as [out1 s1| |] eqn:E; try discriminate.
  intros H. apply IH in H. apply parse_element_length in E. lia.
Qed.

Lemma parse_array_length (s : string) (out' : JYArray) (s' : string) :
  parse_array pv s = Ok out' s' ->
  (String.length s' < String.length s)%nat.
Proof.
  unfold parse_array.
  destruct (negb (Ascii.eqb (peek s) "[")); [discriminate|].
  destruct (Ascii.eqb (peek (parse_space (advance s))) NUL); [discriminate|].
  intros H. apply parse_array_loop_length in H.
  pose proof (parse_space_length (advance s)).
  pose proof (advance_length s). lia.
Qed.

Lemma parse_pair_length (s : string) (out out' : JYObject) (s' : string) :
  parse_pair pv s out = Ok out' s' ->
  (String.length s' < String.length s)%nat.
Proof.
  unfold parse_pair.
  destruct (parse_string s) as [[k s1]|] eqn:Ek; [|discriminate].
  apply parse_string_length in Ek.
  destruct (negb (Ascii.eqb (peek (parse_space s1)) ":")); [discriminate|].
  destruct (pv (parse_space (advance (parse_space s1)))) as [val s2| |] eqn:E;
    try discriminate.
  apply pv_shrinks in E.
  destruct (object_insert out k val) as [out1|]; [|discriminate].
  pose proof (parse_space_length s1).
  pose proof (advance_length (parse_space s1)).
  pose proof (parse_space_length (advance (parse_space s1))).
  pose proof (parse_space_length s2).
  pose proof (parse_space_length (parse_space s2)).
  pose proof (parse_space_length (advance (parse_space s2))).
  pose proof (advance_length (parse_space s2)).
  destruct (Ascii.eqb (peek (parse_space s2)) ","); [intros [= _ <-]; lia|].
  destruct (negb (Ascii.eqb (peek (parse_space s2)) "}")); [discriminate|].
  intros [= _ <-]. lia.
Qed.

Lemma parse_object_loop_length (n : nat) :
  forall (s : string) (out out' : JYObject) (s' : string),
    parse_object_loop pv n s out = Ok out' s' ->
    (String.length s' < String.length s)%nat.
Proof.
  induction n as [|n IH]; intros s out out' s'; simpl;
    destruct (Ascii.eqb (peek s) "}") eqn:Eb; try discriminate;
    try (intros [= _ <-]; eapply advance_length_lt; eauto; discriminate).
  destruct (parse_pair pv s out) as [out1 s1| |] eqn:E; try discriminate.
  intros H. apply IH in H. apply parse_pair_length in E. lia.
Qed.

Lemma parse_object_length (s : string) (out' : JYObject) (s' : string) :
  parse_object pv s = Ok out' s' ->
  (String.length s' < String.length s)%nat.
Proof.
  unfold parse_object.
  destruct (negb (Ascii.eqb (peek s) "{")); [discriminate|].
  destruct (Ascii.eqb (peek (parse_space (advance s))) NUL); [discriminate|].
  intros H. apply parse_object_loop_length in H.
  pose proof (parse_space_length (advance s)).
  pose proof (advance_length s). lia.
Qed.

(** The loops have turns to spare. *)

Lemma parse_array_loop_total (n : nat) :
  forall (s : string) (out : JYArray),
    (forall u, (String.length u <= String.length s)%nat -> pv u <> OutOfFuel) ->
    (String.length s < n)%nat ->
    parse_array_loop pv n s out <> OutOfFuel.
Proof.
  induction n as [|n IH]; intros s out Hpv Hn; [lia|]. simpl.
  destruct (Ascii.eqb (peek s) "]"); [discriminate|].
  destruct (parse_element pv s out) as [out1 s1| |] eqn:E; try discriminate.
  - apply parse_element_length in E. apply IH; [|lia].
    intros u Hu. apply Hpv. lia.
  - exfalso. unfold parse_element in E.
    pose proof (Hpv s (Nat.le_refl _)) as Hs.
    destruct (pv s) as [res s1| |]; try congruence.
    destruct (Ascii.eqb (peek (parse_space s1)) ","); [discriminate|].
    destruct (negb (Ascii.eqb (peek (parse_space s1)) "]")); discriminate.
Qed.

Lemma parse_array_total (s : string) :
  (forall u, (String.length u < String.length s)%nat -> pv u <> OutOfFuel) ->
  parse_array pv s <> OutOfFuel.
Proof.
  intros Hpv. unfold parse_array.
  destruct (Ascii.eqb (peek s) "[") eqn:Eb; cbn [negb]; [|discriminate].
  destruct (Ascii.eqb (peek (parse_space (advance s))) NUL); [discriminate|].
  apply parse_array_loop_total; [|lia].
  intros u Hu. apply Hpv.
  pose proof (parse_space_length (advance s)).
  assert (Hb : "["%char <> NUL) by discriminate.
  pose proof (advance_length_lt s _ Eb Hb). lia.
Qed.

Lemma parse_object_loop_total (n : nat) :
  forall (s : string) (out : JYObject),
    (forall u, (String.length u < String.length s)%nat -> pv u <> OutOfFuel) ->
    (String.length s < n)%nat ->
    parse_object_loop pv n s out <> OutOfFuel.
Proof.
  induction n as [|n IH]; intros s out Hpv Hn; [lia|]. simpl.
  destruct (Ascii.eqb (peek s) "}"); [discriminate|].
  destruct (parse_pair pv s out) as [out1 s1| |] eqn:E; try discriminate.
  - apply parse_pair_length in E. apply IH; [|lia].
    intros u Hu. apply Hpv. lia.
  - exfalso. unfold parse_pair in E.
    destruct (parse_string s) as [[k s1]|] eqn:Ek; [|discriminate].
    apply parse_string_length in Ek.
    destruct (negb (Ascii.eqb (peek (parse_space s1)) ":")); [discriminate|].
    assert (Hs : pv (parse_space (advance (parse_space s1))) <> OutOfFuel).
    { apply Hpv.
      pose proof (parse_space_length s1).
      pose proof (advance_length (parse_space s1)).
      pose proof (parse_space_length (advance (parse_space s1))). lia. }
    destruct (pv (parse_space (advance (parse_space s1)))) as [val s2| |];
      try congruence.
    destruct (object_insert out k val); [|discriminate].
    destruct (Ascii.eqb (peek (parse_space s2)) ","); [discriminate|].
    destruct (negb (Ascii.eqb (peek (parse_space s2)) "}")); discriminate.
Qed.

Lemma parse_object_total (s : string) :
  (forall u, (String.length u < String.length s)%nat -> pv u <> OutOfFuel) ->
  parse_object pv s <> OutOfFuel.
Proof.
  intros Hpv. unfold parse_object.
  destruct (Ascii.eqb (peek s) "{") eqn:Eb; cbn [negb]; [|discriminate].
  destruct (Ascii.eqb (peek (parse_space (advance s))) NUL); [discriminate|].
  apply parse_object_loop_total; [|lia].
  intros u Hu. apply Hpv.
  pose proof (parse_space_length (advance s)).
  assert (Hb : "{"%char <> NUL) by discriminate.
  pose proof (advance_length_lt s _ Eb Hb). lia.
Qed.

End Progress.

Lemma parse_value_length (fuel : nat) :
  forall (s : string) (v : JYValue) (rest : string),
    parse_value fuel s = Ok v rest ->
    (String.length rest < String.length s)%nat.
Proof.
  induction fuel as [|fuel IH]; intros s v rest; simpl; [discriminate|].
  destruct (parse_null s) eqn:E1;
    [intros [= _ <-]; now apply parse_null_length|].
  destruct (parse_bool s) as [[b t]|] eqn:E2;
    [intros [= _ <-]; eapply parse_bool_length; eauto|].
  destruct (parse_number s) as [[d t]|] eqn:E3;
    [intros [= _ <-]; eapply parse_number_length; eauto|].
  destruct (parse_string s) as [[str t]|] eqn:E4;
    [intros [= _ <-]; eapply parse_string_length; eauto|].
  destruct (parse_array (parse_value fuel) s) as [a t| |] eqn:Ea;
    try discriminate.
  - intros [= _ <-]. eapply parse_array_length; eauto.
  - destruct (parse_object (parse_value fuel) s) as [o t| |] eqn:Eo;
      try discriminate.
    intros [= _ <-]. eapply parse_object_length; eauto.
Qed.

(** The nesting budget is enough as soon as it exceeds the length of the
    input. *)
Lemma parse_value_total (fuel : nat) :
  forall s : string,
    (String.length s < fuel)%nat -> parse_value fuel s <> OutOfFuel.
Proof.
  induction fuel as [|fuel IH]; intros s Hs; [lia|]. simpl.
  destruct (parse_null s); [discriminate|].
  destruct (parse_bool s) as [[b t]|]; [discriminate|].
  destruct (parse_number s) as [[d t]|]; [discriminate|].
  destruct (parse_string s) as [[str t]|]; [discriminate|].
  assert (Hpv : forall u, (String.length u < String.length s)%nat ->
                          parse_value fuel u <> OutOfFuel).
  { intros u Hu. apply IH. lia. }
  pose proof (parse_array_total _ (parse_value_length fuel) s Hpv).
  pose proof (parse_object_total _ (parse_value_length fuel) s Hpv).
  destruct (parse_array (parse_value fuel) s); try congruence.
  destruct (parse_object (parse_value fuel) s); congruence.
Qed.

(** The entry point never runs out of budget: it succeeds or fails. *)
Lemma parse_root_total (s : string) : parse_root s <> OutOfFuel.
Proof.
  unfold parse_root.
  apply parse_object_total; [apply parse_value_length|].
  intros u Hu. now apply parse_value_total.
Qed.

(** ** Leading zeros *)

Lemma is_digit_not (d c : ascii) :
  is_digit d = true -> is_digit c = false -> Ascii.eqb d c = false.
Proof.
  intros Hd Hc. destruct (Ascii.eqb_spec d c) as [->|]; congruence.
Qed.

Lemma is_digit_not_space (d : ascii) (rest : string) :
  is_digit d = true -> parse_space (String d rest) = String d rest.
Proof.
  intros Hd. simpl.
  assert (Hsp : isspace d = false).
  { unfold is_digit, isspace in *. lia. }
  rewrite Hsp, (is_digit_not d SLASH Hd); reflexivity.
Qed.

(** What a call-back that stops on a digit does to the containers: the
    byte after the element is neither a comma nor the closing delimiter. *)
Lemma parse_element_stops_on_digit pv (s : string) (out : JYArray)
      (v : JYValue) (d : ascii) (rest : string) :
  is_digit d = true -> pv s = Ok v (String d rest) ->
  parse_element pv s out = Fail.
Proof.
  intros Hd Hpv. unfold parse_element. rewrite Hpv.
  rewrite (is_digit_not_space d rest Hd). cbn [peek].
  rewrite (is_digit_not d "," Hd), (is_digit_not d "]" Hd); reflexivity.
Qed.

Lemma parse_pair_stops_on_digit pv (s0 s1 s2 s k : string) (out : JYObject)
      (v : JYValue) (d : ascii) (rest : string) :
  is_digit d = true ->
  parse_string s0 = Some (k, s1) ->
  parse_space s1 = String ":" s2 -> parse_space s2 = s ->
  pv s = Ok v (String d rest) ->
  parse_pair pv s0 out = Fail.
Proof.
  intros Hd Hk H1 H2 Hpv. unfold parse_pair.
  rewrite Hk, H1. cbn [peek advance negb Ascii.eqb Bool.eqb].
  rewrite H2, Hpv.
  destruct (object_insert out k v); [|reflexivity].
  rewrite (is_digit_not_space d rest Hd). cbn [peek].
  rewrite (is_digit_not d "," Hd), (is_digit_not d "}" Hd); reflexivity.
Qed.

(** C2, as the code has it.  After a zero the integer part is over: on a
    zero followed by a digit [parse_number] succeeds with the value zero
    (negative zero after a minus sign) and leaves the cursor on that digit,
    and so does [parse_value]; the literal is turned down one level up,
    where the array or object parser finds the digit in the place of a
    comma or of the closing delimiter. *)
Theorem leading_zero_ends_number (neg : bool) (d : ascii) (rest : string) :
  is_digit d = true ->
  let s := ((if neg then "-" else "") ++ "0" ++ String d rest)%string in
  let z := if neg then Dbl.neg_zero else Dbl.zero in
  parse_number s = Some (z, String d rest) /\
  (forall fuel, parse_value (S fuel) s = Ok (VNumber z) (String d rest)) /\
  (forall fuel out, parse_element (parse_value (S fuel)) s out = Fail) /\
  (forall fuel n out, parse_array_loop (parse_value (S fuel)) (S n) s out = Fail) /\
  (forall fuel s0 s1 s2 k out,
      parse_string s0 = Some (k, s1) ->
      parse_space s1 = String ":" s2 -> parse_space s2 = s ->
      parse_pair (parse_value (S fuel)) s0 out = Fail).
Proof.
  intros Hd s z.
  assert (Hnum : parse_number s = Some (z, String d rest)).
  { subst s z. unfold parse_number, number_int, number_frac, number_exp.
    destruct neg; cbn [append peek advance Ascii.eqb Bool.eqb];
      rewrite (is_digit_not d "." Hd) by reflexivity; cbn [peek orb];
      rewrite (is_digit_not d "e" Hd), (is_digit_not d "E" Hd) by reflexivity;
      reflexivity. }
  assert (Hval : forall fuel,
             parse_value (S fuel) s = Ok (VNumber z) (String d rest)).
  { intros fuel. cbn [parse_value]. rewrite Hnum.
    subst s. destruct neg; reflexivity. }
  split; [exact Hnum|]. split; [exact Hval|].
  assert (Hel : forall fuel out,
             parse_element (parse_value (S fuel)) s out = Fail).
  { intros fuel out. eapply parse_element_stops_on_digit; eauto. }
  split; [exact Hel|]. split.
  - intros fuel n out. cbn [parse_array_loop]. rewrite Hel.
    subst s. destruct neg; reflexivity.
  - intros fuel s0 s1 s2 k out Hk H1 H2.
    eapply parse_pair_stops_on_digit; eauto.
Qed.

(** The literal 01: the number parser and the dispatcher both succeed on
    it, with the value zero and the cursor on the 1. *)
Lemma leading_zero_accepted :
  parse_number "01" = Some (Dbl.zero, "1") /\
  parse_value 1 "01" = Ok (VNumber Dbl.zero) "1".
Proof. split; reflexivity. Qed.

(** The theorem at the literal 01; a document that holds it is rejected. *)
Lemma leading_zero_example :
  is_digit "1" = true /\
  (parse_number "01" = Some (Dbl.zero, "1") /\
   (forall fuel, parse_value (S fuel) "01" = Ok (VNumber Dbl.zero) "1") /\
   (forall fuel out, parse_element (parse_value (S fuel)) "01" out = Fail) /\
   (forall fuel n out,
       parse_array_loop (parse_value (S fuel)) (S n) "01" out = Fail) /\
   (forall fuel s0 s1 s2 k out,
       parse_string s0 = Some (k, s1) ->
       parse_space s1 = String ":" s2 -> parse_space s2 = "01" ->
       parse_pair (parse_value (S fuel)) s0 out = Fail)) /\
  parse_array (parse_value 1) "[01]" = Fail /\
  jy_parse ("{" ++ q ++ "a" ++ q ++ ":01}") = None.
Proof.
  split; [reflexivity|].
  split; [exact (leading_zero_ends_number false "1" "" eq_refl)|].
  split; reflexivity.
Defined.

(** ** Trailing commas *)

(** C10. A comma right before the closing delimiter is accepted: in both
    loops, after an element and its comma, the closing delimiter ends the
    container with the elements read so far.  So the array input with one
    element and a trailing comma yields an array of exactly one element,
    and the object input with one pair and a trailing comma an object of
    exactly one pair. *)
Theorem trailing_comma_accepted :
  (forall fuel,
      parse_array (parse_value (S fuel)) "[1,]"
      = Ok (mkArray [VNumber Dbl.one] 16%N) "") /\
  a_count (mkArray [VNumber Dbl.one] 16%N) = 1%N /\
  (forall fuel,
      parse_object (parse_value (S fuel)) ("{" ++ q ++ "a" ++ q ++ ":1,}")
      = Ok (mkObject [mkPair "a" (VNumber Dbl.one)] 16%N) "") /\
  o_count (mkObject [mkPair "a" (VNumber Dbl.one)] 16%N) = 1%N /\
  jy_parse ("{" ++ q ++ "a" ++ q ++ ":[1,],}")
  = Some (mkDocument
            (mkObject [mkPair "a" (VArray (mkArray [VNumber Dbl.one] 16%N))]
                      16%N)) /\
  (forall pv n s out res s1 s2 rest,
      Ascii.eqb (peek s) "]" = false ->
      pv s = Ok res s1 ->
      parse_space s1 = String "," s2 ->
      parse_space s2 = String "]" rest ->
      parse_array_loop pv (S n) s out = Ok (array_push out res) rest) /\
  (forall pv n s out k val out' s1 s2 s3 s4 s5 rest,
      Ascii.eqb (peek s) "}" = false ->
      parse_string s = Some (k, s1) ->
      parse_space s1 = String ":" s2 ->
      parse_space s2 = s3 ->
      pv s3 = Ok val s4 ->
      object_insert out k val = Some out' ->
      parse_space s4 = String "," s5 ->
      parse_space s5 = String "}" rest ->
      parse_object_loop pv (S n) s out = Ok out' rest).
Proof.
  split; [intros; reflexivity|]. split; [reflexivity|].
  split; [intros; reflexivity|]. split; [reflexivity|].
  split; [vm_compute; reflexivity|]. split.
  - intros pv n s out res s1 s2 rest Hs Hpv H1 H2.
    cbn [parse_array_loop]. rewrite Hs. unfold parse_element.
    rewrite Hpv, H1. cbn [peek advance Ascii.eqb Bool.eqb]. rewrite H2.
    destruct n; reflexivity.
  - intros pv n s out k val out' s1 s2 s3 s4 s5 rest
           Hs Hk H1 H2 Hpv Hins H4 H5.
    cbn [parse_object_loop]. rewrite Hs. unfold parse_pair.
    rewrite Hk, H1. cbn [peek advance negb Ascii.eqb Bool.eqb].
    rewrite H2, Hpv, Hins, H4. cbn [peek advance Ascii.eqb Bool.eqb].
    rewrite H5. destruct n; reflexivity.
Qed.

(** ** Duplicate keys *)


Lemma parse_string_starts_quoted (s k s1 : string) :
  parse_string s = Some (k, s1) -> Ascii.eqb (peek s) DQUOTE = true.
Proof.
  unfold parse_string. destruct (Ascii.eqb (peek s) DQUOTE); [reflexivity|].
  discriminate.
Qed.

(** A turn of the loop that reads a key already stored fails. *)
Lemma duplicate_key_turn_fails pv (s s1 s2 s3 k : string) (val : JYValue)
      (out : JYObject) (p : Pair) :
  sorted_keys (keys out) ->
  parse_string s = Some (k, s1) ->
  parse_space s1 = String ":" s2 ->
  pv (parse_space s2) = Ok val s3 ->
  In p (pairs out) -> strcmp k (key p) = 0 ->
  object_insert out k val = None /\
  parse_pair pv s out = Fail /\
  (forall n, parse_object_loop pv (S n) s out = Fail).
Proof.
  intros Hs Hk H1 Hpv Hp Hcmp.
  assert (Hins : object_insert out k val = None).
  { pose proof (object_insert_spec out k val Hs) as H.
    destruct (object_insert out k val) as [out'|]; [|reflexivity].
    destruct H as [Hnot _]. exfalso. apply Hnot.
    apply strcmp_eq in Hcmp. subst k. unfold keys. now apply in_map. }
  assert (Hpair : parse_pair pv s out = Fail).
  { unfold parse_pair. rewrite Hk, H1.
    cbn [peek advance negb Ascii.eqb Bool.eqb]. now rewrite Hpv, Hins. }
  repeat split; auto.
  intros n. cbn [parse_object_loop]. rewrite Hpair.
  apply parse_string_starts_quoted in Hk. apply Ascii.eqb_eq in Hk.
  destruct (Ascii.eqb_spec (peek s) "}") as [E|E]; [|reflexivity].
  rewrite Hk in E. discriminate.
Qed.

Lemma turns_sorted pv (s : string) (out : JYObject) (s' : string)
      (out' : JYObject) :
  turns pv s out s' out' -> sorted_keys (keys out) -> sorted_keys (keys out').
Proof.
  induction 1 as [|s out s1 out1 s2 out2 Hb Hp Ht IH]; intros Hs; auto.
  apply IH.
  apply (parse_pair_inv pv (fun _ => True) (fun _ _ _ _ => I) _ _ _ _
           (conj Hs (proj2 (Forall_forall _ _) (fun _ _ => I))) Hp).
Qed.

(** The loop run with turns to spare passes through every state it
    reaches. *)
Lemma turns_loop pv (s : string) (out : JYObject) (s' : string)
      (out' : JYObject) :
  (forall u v rest, pv u = Ok v rest ->
                    (String.length rest < String.length u)%nat) ->
  turns pv s out s' out' ->
  forall n, (String.length s < n)%nat ->
    exists m, (String.length s' < m)%nat /\
              parse_object_loop pv n s out = parse_object_loop pv m s' out'.
Proof.
  intros Hpv.
  induction 1 as [|s out s1 out1 s2 out2 Hb Hp Ht IH]; intros n Hn.
  - exists n. auto.
  - destruct n as [|n]; [lia|].
    pose proof (parse_pair_length pv Hpv _ _ _ _ Hp) as Hlen.
    destruct (IH n) as (m & Hm & Heq); [lia|].
    exists m. split; [assumption|].
    cbn [parse_object_loop]. now rewrite Hb, Hp.
Qed.

(** C5. If, while an object literal is read, the key that comes next
    compares equal to the key of a pair already inserted into that object,
    [parse_object] fails: the pair stored first is not overwritten and no
    object is returned.  When the literal is the whole input, [jy_parse]
    returns no document to its caller. *)
Theorem duplicate_key_rejected (fuel : nat) (s0 s s1 s2 s3 k : string)
        (val : JYValue) (out : JYObject) (p : Pair) :
  Ascii.eqb (peek s0) "{" = true ->
  turns (parse_value fuel) (parse_space (advance s0)) (mkObject [] 0%N) s out ->
  parse_string s = Some (k, s1) ->
  parse_space s1 = String ":" s2 ->
  parse_value fuel (parse_space s2) = Ok val s3 ->
  In p (pairs out) -> strcmp k (key p) = 0 ->
  parse_object (parse_value fuel) s0 = Fail /\
  (fuel = String.length s0 -> jy_parse s0 = None).
Proof.
  intros H0 Ht Hk H1 Hpv Hp Hcmp.
  assert (Hfail : parse_object (parse_value fuel) s0 = Fail);
    [|split; [exact Hfail|];
      intros ->; unfold jy_parse, parse_root; now rewrite Hfail].
  unfold parse_object. rewrite H0. cbn [negb].
  destruct (Ascii.eqb (peek (parse_space (advance s0))) NUL); [reflexivity|].
  destruct (turns_loop _ _ _ _ _ (parse_value_length fuel) Ht
              (S (String.length (parse_space (advance s0)))))
    as (m & Hm & ->); [lia|].
  destruct m as [|m]; [lia|].
  apply (duplicate_key_turn_fails (parse_value fuel) s s1 s2 s3 k val out p);
    auto.
  apply (turns_sorted _ _ _ _ _ Ht). apply sorted_keys_nil.
Qed.

(** The example of the specification: the second pair repeats the key of
    the first; the parse fails, and [jy_parse] hands no document back. *)
Lemma duplicate_key_example :
  let out := mkObject [mkPair "a" (VNumber Dbl.one)] 16%N in
  let s := (q ++ "a" ++ q ++ ":2}")%string in
  let fuel := String.length input_a_a in
  (Ascii.eqb (peek input_a_a) "{" = true /\
   turns (parse_value fuel) (parse_space (advance input_a_a))
         (mkObject [] 0%N) s out /\
   parse_string s = Some ("a", ":2}") /\
   parse_space ":2}" = String ":" "2}" /\
   parse_value fuel (parse_space "2}") = Ok (VNumber (Dbl.of_int 2)) "}" /\
   In (mkPair "a" (VNumber Dbl.one)) (pairs out) /\
   strcmp "a" "a" = 0) /\
  parse_root input_a_a = Fail /\
  jy_parse input_a_a = None.
Proof.
  intros out s fuel.
  assert (Ht : turns (parse_value fuel) (parse_space (advance input_a_a))
                     (mkObject [] 0%N) s out).
  { eapply turns_next; [reflexivity | vm_compute; reflexivity |].
    apply turns_here. }
  assert (Hin : In (mkPair "a" (VNumber Dbl.one)) (pairs out)) by (simpl; auto).
  split; [repeat split; try reflexivity; assumption|].
  destruct (duplicate_key_rejected fuel input_a_a s ":2}" "2}" "}" "a"
              (VNumber (Dbl.of_int 2)) out (mkPair "a" (VNumber Dbl.one))
              eq_refl Ht eq_refl eq_refl eq_refl Hin eq_refl)
    as [Hfail Hnone].
  split; [exact Hfail | exact (Hnone eq_refl)].
Defined.


(** ** String literals *)

Lemma append_assoc (a b c : string) : ((a ++ b) ++ c = a ++ (b ++ c))%string.
Proof. induction a as [|x a IH]; simpl; [reflexivity | now rewrite IH]. Qed.

Lemma append_empty_r (a : string) : (a ++ "" = a)%string.
Proof. induction a as [|x a IH]; simpl; [reflexivity | now rewrite IH]. Qed.

(** The loop of [parse_string] takes well-formed pieces into the buffer
    and goes on with what follows them. *)
Lemma parse_string_loop_pieces (ps : list piece) (tail : string) :
  forallb piece_ok ps = true ->
  forall (val : string) (cap : N),
  exists cap',
    parse_string_loop (source_of ps ++ tail) val cap
    = parse_string_loop tail (val ++ content_of ps) cap'.
Proof.
  induction ps as [|[c|e] ps IH]; intros Hok val cap.
  - exists cap. simpl. now rewrite append_empty_r.
  - simpl in Hok. apply andb_prop in Hok as [Hc Hps].
    unfold plain_ok in Hc.
    apply andb_prop in Hc as [Hc H4]. apply andb_prop in Hc as [Hc H3].
    apply andb_prop in Hc as [H1 H2].
    apply negb_true_iff in H1, H2, H3, H4.
    destruct (IH Hps (val ++ String c "")%string
                (snd (string_push val cap c))) as [cap' Hcap'].
    exists cap'. cbn [source_of append parse_string_loop content_of].
    rewrite H1, H2, H3, H4. cbn [orb].
    unfold string_push at 1. cbn [fst snd] in *.
    unfold string_push in Hcap'. cbn [snd] in Hcap'.
    rewrite Hcap', append_assoc. reflexivity.
  - simpl in Hok. apply andb_prop in Hok as [He Hps].
    destruct (escape e) as [c'|] eqn:Ee; [|discriminate].
    destruct (IH Hps (val ++ String c' "")%string
                (snd (string_push val cap c'))) as [cap' Hcap'].
    exists cap'. cbn [source_of append parse_string_loop content_of].
    rewrite Ee. cbn [Ascii.eqb Bool.eqb orb].
    unfold string_push at 1.
    unfold string_push in Hcap'. cbn [snd] in Hcap'.
    rewrite Hcap', append_assoc. reflexivity.
Qed.

Lemma parse_string_quoted (t : string) :
  parse_string (q ++ t) = 
  match parse_string_loop t "" 0%N with
  | None => None
  | Some (val, _, s) => Some (val, advance s)
  end.
Proof.
  unfold parse_string. cbn [q append peek advance Ascii.eqb Bool.eqb negb DQUOTE].
  destruct (parse_string_loop t "" 0) as [[[v c] s]|]; reflexivity.
Qed.

(** C7. [parse_string] on a literal whose body is made of bytes that stand
    for themselves and of supported escapes returns the bytes they stand
    for: the letters n, r, b, f, t after a backslash give the control
    characters LF, CR, BS, FF, TAB, and a double quote, a backslash or a
    slash after a backslash give that very byte.  It fails when, after such
    a body, it meets a newline or the end of the input in the place of the
    closing quote, or a backslash followed by any other byte, the letter u
    of a Unicode escape among them. *)
Theorem parse_string_escapes :
  (escape "n" = Some LF /\ escape "r" = Some CR /\ escape "b" = Some BS /\
   escape "f" = Some FF /\ escape "t" = Some TAB /\
   escape DQUOTE = Some DQUOTE /\ escape BACKSLASH = Some BACKSLASH /\
   escape SLASH = Some SLASH) /\
  (forall e,
      e <> "n"%char -> e <> "r"%char -> e <> "b"%char -> e <> "f"%char ->
      e <> "t"%char -> e <> DQUOTE -> e <> BACKSLASH -> e <> SLASH ->
      escape e = None) /\
  escape "u" = None /\
  (forall ps rest,
      forallb piece_ok ps = true ->
      parse_string (q ++ source_of ps ++ q ++ rest)
      = Some (content_of ps, rest)) /\
  (forall ps rest,
      forallb piece_ok ps = true ->
      parse_string (q ++ source_of ps ++ String LF rest) = None) /\
  (forall ps,
      forallb piece_ok ps = true ->
      parse_string (q ++ source_of ps) = None) /\
  (forall ps e rest,
      forallb piece_ok ps = true -> escape e = None ->
      parse_string (q ++ source_of ps ++ String BACKSLASH (String e rest))
      = None) /\
  (forall ps,
      forallb piece_ok ps = true ->
      parse_string (q ++ source_of ps ++ String BACKSLASH "") = None) /\
  parse_string (q ++ "a" ++ String BACKSLASH "nb" ++ q)
  = Some ("a" ++ String LF "b", "") /\
  parse_string (q ++ String BACKSLASH "u0041" ++ q) = None.
Proof.
  split; [repeat split|]. split; [|split; [reflexivity|]].
  - intros e Hn Hr Hb Hf Ht Hq Hbs Hs. unfold escape.
    repeat match goal with
           | |- context [Ascii.eqb e ?c] =>
               destruct (Ascii.eqb_spec e c); [congruence|]
           end.
    reflexivity.
  - repeat split; try reflexivity.
    + intros ps rest Hok. rewrite parse_string_quoted.
      destruct (parse_string_loop_pieces ps (q ++ rest) Hok "" 0%N)
        as [cap' ->].
      reflexivity.
    + intros ps rest Hok. rewrite parse_string_quoted.
      destruct (parse_string_loop_pieces ps (String LF rest) Hok "" 0%N)
        as [cap' ->].
      reflexivity.
    + intros ps Hok. rewrite parse_string_quoted.
      destruct (parse_string_loop_pieces ps "" Hok "" 0%N) as [cap' H].
      rewrite append_empty_r in H. rewrite H. reflexivity.
    + intros ps e rest Hok He. rewrite parse_string_quoted.
      destruct (parse_string_loop_pieces ps
                  (String BACKSLASH (String e rest)) Hok "" 0%N)
        as [cap' ->].
      cbn [parse_string_loop Ascii.eqb Bool.eqb orb BACKSLASH DQUOTE LF NUL].
      rewrite He. reflexivity.
    + intros ps Hok. rewrite parse_string_quoted.
      destruct (parse_string_loop_pieces ps (String BACKSLASH "") Hok "" 0%N)
        as [cap' ->].
      reflexivity.
Qed.

(** ** Binary64 facts for the digit accumulator *)

Lemma digits2_log2 (m : positive) :
  Zpos (digits2_pos m) = Z.log2 (Zpos m) + 1.
Proof.
  assert (H : forall p, digits2_pos p = Pos.size p).
  { induction p; simpl; congruence. }
  destruct m; simpl; rewrite ?H; lia.
Qed.

Lemma shr_1_shiftr (mrs : shr_record) :
  0 <= shr_m mrs -> shr_m (shr_1 mrs) = Z.shiftr (shr_m mrs) 1.
Proof.
  destruct mrs as [m r s]. simpl. intros Hm.
  rewrite Z.shiftr_div_pow2 by lia. change (2 ^ 1) with 2.
  destruct m as [|[p|p|]|p]; simpl; try lia; try reflexivity.
  - rewrite Pos2Z.inj_xI.
    apply Z.div_unique with 1; lia.
  - rewrite Pos2Z.inj_xO.
    apply Z.div_unique with 0; lia.
Qed.

Lemma iter_shr_1_shiftr (p : positive) :
  forall mrs : shr_record,
    0 <= shr_m mrs ->
    shr_m (iter_pos shr_1 p mrs) = Z.shiftr (shr_m mrs) (Zpos p).
Proof.
  induction p as [p IH|p IH|]; intros mrs Hm; simpl.
  - assert (H1 : 0 <= shr_m (shr_1 mrs)).
    { rewrite shr_1_shiftr by assumption. now apply Z.shiftr_nonneg. }
    assert (H2 : 0 <= shr_m (iter_pos shr_1 p (shr_1 mrs))).
    { rewrite IH by assumption. now apply Z.shiftr_nonneg. }
    rewrite IH, IH, shr_1_shiftr by assumption.
    rewrite !Z.shiftr_shiftr by lia. f_equal. lia.
  - assert (H2 : 0 <= shr_m (iter_pos shr_1 p mrs)).
    { rewrite IH by assumption. now apply Z.shiftr_nonneg. }
    rewrite IH, IH by assumption.
    rewrite !Z.shiftr_shiftr by lia. f_equal. lia.
  - now apply shr_1_shiftr.
Qed.

(** Shifting a mantissa of at least 53 bits down to 53 bits. *)
Lemma shr_fexp_normal (m : positive) (e : Z) :
  52 <= Z.log2 (Zpos m) -> -1074 <= e ->
  exists mrs,
    shr_fexp Dbl.prec Dbl.emax (Zpos m) e loc_Exact
    = (mrs, e + (Z.log2 (Zpos m) - 52)) /\
    shr_m mrs = Z.shiftr (Zpos m) (Z.log2 (Zpos m) - 52).
Proof.
  intros Hm He. unfold shr_fexp, fexp, emin, Dbl.prec, Dbl.emax.
  cbn [Zdigits2 shr_record_of_loc]. rewrite digits2_log2.
  replace (Z.max (Z.log2 (Zpos m) + 1 + e - 53) (3 - 1024 - 53) - e)
    with (Z.log2 (Zpos m) - 52) by lia.
  unfold shr.
  destruct (Z.log2 (Zpos m) - 52) as [|p|p] eqn:E; try lia.
  - eexists. split; [f_equal; lia|]. reflexivity.
  - eexists. split; [reflexivity|].
    now rewrite iter_shr_1_shiftr.
Qed.

Lemma round_nearest_even_near (m : Z) (l : location) :
  round_nearest_even m l = m \/ round_nearest_even m l = m + 1.
Proof.
  unfold round_nearest_even.
  destruct l as [|[]]; auto. destruct (Z.even m); auto.
Qed.

(** Rounding a positive mantissa of at least 53 bits gives a normal number
    with a mantissa of exactly 53 bits, or overflows to infinity. *)
Lemma binary_round_aux_normal (m : positive) (e : Z) :
  52 <= Z.log2 (Zpos m) -> -1074 <= e ->
  match binary_round_aux Dbl.prec Dbl.emax false (Zpos m) e loc_Exact with
  | S754_infinity false => True
  | S754_finite false m' e' =>
      Z.log2 (Zpos m') = 52 /\ e + (Z.log2 (Zpos m) - 52) <= e'
  | _ => False
  end.
Proof.
  intros Hm He. unfold binary_round_aux.
  destruct (shr_fexp_normal m e Hm He) as (mrs & -> & Hmrs).
  set (m1 := shr_m mrs) in *.
  assert (Hm1 : Z.log2 m1 = 52).
  { rewrite Hmrs, Z.log2_shiftr by lia. lia. }
  assert (Hm1pos : 0 < m1).
  { destruct (Z.lt_ge_cases 0 m1) as [H|H]; [assumption|].
    rewrite Z.log2_nonpos in Hm1 by lia. discriminate. }
  set (e1 := e + (Z.log2 (Zpos m) - 52)) in *.
  set (m2 := round_nearest_even m1 (loc_of_shr_record mrs)).
  assert (Hm2 : 0 < m2 /\ 52 <= Z.log2 m2).
  { subst m2.
    destruct (round_nearest_even_near m1 (loc_of_shr_record mrs)) as [->| ->].
    - lia.
    - split; [lia|]. rewrite <- Hm1. apply Z.log2_le_mono. lia. }
  destruct Hm2 as [Hm2pos Hm2].
  destruct m2 as [|m2p|m2p]; try lia.
  destruct (shr_fexp_normal m2p e1) as (mrs2 & -> & Hmrs2);
    [assumption | subst e1; lia |].
  assert (Hm3 : Z.log2 (shr_m mrs2) = 52).
  { rewrite Hmrs2, Z.log2_shiftr by lia. lia. }
  destruct (shr_m mrs2) as [|m3|m3]; try discriminate.
  destruct (e1 + (Z.log2 (Z.pos m2p) - 52) <=? Dbl.emax - Dbl.prec).
  - split; [assumption|]. lia.
  - exact I.
Qed.

Lemma ten_bits : Dbl.ten = S754_finite false 5629499534213120 (-49).
Proof. reflexivity. Qed.

(** The constant taken for the literal 0.1 is the correctly rounded
    quotient of one by ten. *)
Lemma tenth_bits : Dbl.tenth = Dbl.div Dbl.one Dbl.ten.
Proof. vm_compute. reflexivity. Qed.

Lemma mul_ten_at_least_one (x : double) :
  at_least_one x -> at_least_one (Dbl.mul x Dbl.ten).
Proof.
  rewrite ten_bits.
  destruct x as [s|[|]| |[|] m e]; cbn [at_least_one]; try tauto.
  intros [Hm He].
  pose proof (binary_round_aux_normal (m * 5629499534213120) (e + -49)) as H.
  assert (Hlog : 104 <= Z.log2 (Zpos (m * 5629499534213120))).
  { rewrite Pos2Z.inj_mul.
    assert (H0 : Z.log2 (Zpos m) + Z.log2 5629499534213120
                 <= Z.log2 (Zpos m * 5629499534213120))
      by (apply Z.log2_mul_below; lia).
    change (Z.log2 5629499534213120) with 52 in H0. lia. }
  change (Dbl.mul (S754_finite false m e)
            (S754_finite false 5629499534213120 (-49)))
    with (binary_round_aux Dbl.prec Dbl.emax false
            (Zpos (m * 5629499534213120)) (e + -49) loc_Exact).
  specialize (H ltac:(lia) ltac:(lia)).
  destruct (binary_round_aux Dbl.prec Dbl.emax false
              (Zpos (m * 5629499534213120)) (e + -49) loc_Exact)
    as [s|[|]| |[|] m' e']; cbn [at_least_one]; cbv beta iota in H;
    try tauto.
  destruct H as [H1 H2]. split; [assumption | lia].
Qed.

Lemma shl_align_fst_ge (mx : positive) (ex ez : Z) :
  (mx <= fst (shl_align mx ex ez))%positive.
Proof.
  unfold shl_align. destruct (ez - ex) as [|d|d]; simpl; try lia.
  apply Pos.iter_invariant; [|lia]. intros; lia.
Qed.

Lemma add_at_least_one (x y : double) :
  at_least_one x -> at_least_one y -> at_least_one (Dbl.add x y).
Proof.
  destruct x as [s|[|]| |[|] mx ex]; cbn [at_least_one]; try tauto;
    destruct y as [s|[|]| |[|] my ey]; cbn [at_least_one]; try tauto.
  intros [Hmx Hex] [Hmy Hey].
  unfold Dbl.add, SFadd. cbn [cond_Zopp Z.add].
  set (ez := Z.min ex ey).
  set (msum := (fst (shl_align mx ex ez) + fst (shl_align my ey ez))%positive).
  assert (Hsum : 52 <= Z.log2 (Zpos msum)).
  { rewrite <- Hmx. apply Z.log2_le_mono.
    pose proof (shl_align_fst_ge mx ex ez). subst msum. lia. }
  unfold binary_normalize, binary_round.
  assert (Hal : shl_align msum ez
                  (fexp Dbl.prec Dbl.emax (Zpos (digits2_pos msum) + ez))
                = (msum, ez)).
  { unfold shl_align, fexp, emin, Dbl.prec, Dbl.emax.
    rewrite digits2_log2.
    destruct (Z.max (Z.log2 (Zpos msum) + 1 + ez - 53) (3 - 1024 - 53) - ez)
      eqn:E; try reflexivity. lia. }
  change (SFadd Dbl.prec Dbl.emax) with Dbl.add.
  fold Dbl.prec Dbl.emax. rewrite Hal.
  pose proof (binary_round_aux_normal msum ez Hsum) as H.
  specialize (H ltac:(subst ez; lia)).
  destruct (binary_round_aux Dbl.prec Dbl.emax false (Zpos msum) ez loc_Exact)
    as [s|[|]| |[|] m' e']; cbn [at_least_one]; cbv beta iota in H;
    try tauto.
  destruct H as [H1 H2]. split; [assumption | subst ez; lia].
Qed.

Lemma is_digit_val (c : ascii) :
  is_digit c = true -> 0 <= digit_val c <= 9.
Proof. unfold is_digit, digit_val. lia. Qed.

Lemma is_digit_zero (c : ascii) :
  is_digit c = true -> Ascii.eqb c "0" = false -> 1 <= digit_val c.
Proof.
  intros Hd Hz. apply is_digit_val in Hd as Hv.
  destruct (Z.eq_dec (digit_val c) 0) as [E|E]; [|lia].
  exfalso. apply Ascii.eqb_neq in Hz. apply Hz.
  apply byte_inj. unfold digit_val in E. change (byte "0") with 48. lia.
Qed.

(** The digits one to nine convert to normal numbers. *)
Lemma of_int_digit_at_least_one (d : Z) :
  1 <= d <= 9 -> at_least_one (Dbl.of_int d).
Proof.
  intros H.
  assert (Hd : d = 1 \/ d = 2 \/ d = 3 \/ d = 4 \/ d = 5 \/ d = 6 \/ d = 7
               \/ d = 8 \/ d = 9) by lia.
  repeat (destruct Hd as [->|Hd]); try subst d; vm_compute;
    (split; [reflexivity | discriminate]).
Qed.

Lemma at_least_one_nonzero (x : double) :
  at_least_one x -> Dbl.eqb x Dbl.zero = false.
Proof. destruct x as [s|[|]| |[|] m e]; simpl; tauto. Qed.

(** One step of the accumulation of the integer part. *)
Lemma accumulate_at_least_one (val : double) (c : ascii) :
  is_digit c = true -> at_least_one val ->
  at_least_one (Dbl.add (Dbl.mul val Dbl.ten) (Dbl.of_int (digit_val c))).
Proof.
  intros Hc Hval. pose proof (is_digit_val c Hc) as Hd.
  pose proof (mul_ten_at_least_one val Hval) as Hmul.
  destruct (Z.eq_dec (digit_val c) 0) as [->|Hnz].
  - change (Dbl.of_int 0) with (S754_zero false).
    destruct (Dbl.mul val Dbl.ten) as [s|[|]| |[|] m e]; simpl in *; tauto.
  - apply add_at_least_one; [assumption|].
    apply of_int_digit_at_least_one. lia.
Qed.

Lemma int_digits_at_least_one (ds : string) :
  forall val : double,
    at_least_one val -> at_least_one (fst (int_digits ds val)).
Proof.
  induction ds as [|c ds IH]; intros val Hval; simpl; [assumption|].
  destruct (is_digit c) eqn:Hc; [|assumption].
  apply IH. now apply accumulate_at_least_one.
Qed.

(** The digit loops read a run of digits to its end and stop on what
    follows, if that is not a digit. *)
Lemma int_digits_app (ds t : string) :
  all_digits ds = true -> is_digit (peek t) = false ->
  forall val, int_digits (ds ++ t) val = (fst (int_digits ds val), t).
Proof.
  intros Hds Ht. induction ds as [|c ds IH]; intros val.
  - simpl. destruct t as [|c t]; [reflexivity|].
    cbn [peek] in Ht. cbn [int_digits]. now rewrite Ht.
  - simpl in Hds. apply andb_prop in Hds as [Hc Hds].
    cbn [append int_digits]. rewrite Hc. now apply IH.
Qed.

Lemma frac_digits_app (ds t : string) :
  all_digits ds = true -> is_digit (peek t) = false ->
  forall frac val,
    frac_digits (ds ++ t) frac val = (fst (frac_digits ds frac val), t).
Proof.
  intros Hds Ht. induction ds as [|c ds IH]; intros frac val.
  - simpl. destruct t as [|c t]; [reflexivity|].
    cbn [peek] in Ht. cbn [frac_digits]. now rewrite Ht.
  - simpl in Hds. apply andb_prop in Hds as [Hc Hds].
    cbn [append frac_digits]. rewrite Hc. now apply IH.
Qed.

Lemma exp_digits_app (ds t : string) :
  all_digits ds = true -> is_digit (peek t) = false ->
  forall exp, exp_digits (ds ++ t) exp = (fst (exp_digits ds exp), t).
Proof.
  intros Hds Ht. induction ds as [|c ds IH]; intros exp.
  - simpl. destruct t as [|c t]; [reflexivity|].
    cbn [peek] in Ht. cbn [exp_digits]. now rewrite Ht.
  - simpl in Hds. apply andb_prop in Hds as [Hc Hds].
    cbn [append exp_digits]. rewrite Hc. now apply IH.
Qed.

Lemma wrap_int_small (z : Z) : - 2 ^ 31 <= z < 2 ^ 31 -> wrap_int z = z.
Proof.
  intros H. unfold wrap_int. rewrite Z.mod_small; lia.
Qed.

Lemma decimal_ge (ds : string) :
  all_digits ds = true -> forall acc, 0 <= acc -> acc <= decimal acc ds.
Proof.
  induction ds as [|c ds IH]; intros Hds acc Hacc; simpl; [lia|].
  simpl in Hds. apply andb_prop in Hds as [Hc Hds].
  apply is_digit_val in Hc.
  etransitivity; [|apply IH]; auto; lia.
Qed.

(** As long as the number written fits an [int], the exponent loop
    computes it. *)
Lemma exp_digits_decimal (ds : string) :
  all_digits ds = true ->
  forall acc, 0 <= acc -> decimal acc ds < 2 ^ 31 ->
              fst (exp_digits ds acc) = decimal acc ds.
Proof.
  induction ds as [|c ds IH]; intros Hds acc Hacc Hlt; simpl; [reflexivity|].
  simpl in Hds. apply andb_prop in Hds as [Hc Hds]. rewrite Hc.
  pose proof (is_digit_val c Hc) as Hd. simpl in Hlt.
  pose proof (decimal_ge ds Hds (acc * 10 + digit_val c)) as Hge.
  unfold digit_val in *.
  replace (acc * 10 + byte c - 48) with (acc * 10 + (byte c - 48)) by lia.
  rewrite wrap_int_small by lia.
  apply IH; auto; lia.
Qed.

(** ** Number literals with an exponent *)

(** The integer part of a literal, followed by something that is not a
    digit. *)
Lemma number_int_app (ip : string) :
  int_part_ok ip = true ->
  exists val, forall t, is_digit (peek t) = false ->
                        number_int (ip ++ t) = Some (val, t).
Proof.
  intros Hip. destruct ip as [|c r]; [discriminate|].
  cbn [int_part_ok] in Hip. unfold number_int.
  destruct (Ascii.eqb c "0") eqn:Ec.
  - destruct r; [|discriminate].
    exists Dbl.zero. intros t Ht. cbn [append peek advance]. now rewrite Ec.
  - apply andb_prop in Hip as [Hc Hr].
    exists (fst (int_digits (String c r) Dbl.zero)). intros t Ht.
    cbn [append peek]. rewrite Ec.
    change (String c (r ++ t)) with (String c r ++ t)%string.
    rewrite int_digits_app; auto; [|cbn [all_digits]; now rewrite Hc, Hr].
    rewrite at_least_one_nonzero; [reflexivity|].
    cbn [int_digits]. rewrite Hc. apply int_digits_at_least_one.
    change (Dbl.mul Dbl.zero Dbl.ten) with Dbl.zero.
    pose proof (is_digit_val c Hc). pose proof (is_digit_zero c Hc Ec).
    pose proof (of_int_digit_at_least_one (digit_val c)) as H1.
    destruct (Dbl.of_int (digit_val c)) as [s|[|]| |[|] m e];
      cbn [at_least_one] in *; try (exfalso; apply H1; lia).
    + exact I.
    + apply H1. lia.
Qed.

Lemma int_part_starts_digit (ip t : string) :
  int_part_ok ip = true -> is_digit (peek (ip ++ t)) = true.
Proof.
  destruct ip as [|c r]; [discriminate|]. cbn [int_part_ok append peek].
  destruct (Ascii.eqb_spec c "0") as [->|]; [reflexivity|].
  intros H. now apply andb_prop in H.
Qed.

(** The fraction of a literal, followed by something that is neither a
    digit nor a point. *)
Lemma number_frac_app (fp : string) (val : double) :
  frac_part_ok fp = true ->
  exists val', forall t,
    is_digit (peek t) = false -> Ascii.eqb (peek t) "." = false ->
    number_frac val (fp ++ t) = Some (val', t).
Proof.
  intros Hfp. destruct fp as [|c r].
  - exists val. intros t Hd Hp. unfold number_frac. cbn [append].
    now rewrite Hp.
  - cbn [frac_part_ok] in Hfp. apply andb_prop in Hfp as [Hc Hr].
    apply Ascii.eqb_eq in Hc. subst c.
    destruct r as [|d r]; [discriminate|].
    exists (fst (frac_digits (String d r) Dbl.one val)). intros t Hd Hp.
    unfold number_frac. cbn [append peek advance Ascii.eqb Bool.eqb].
    pose proof Hr as Hr'. cbn [all_digits] in Hr'.
    apply andb_prop in Hr' as [Hd0 _]. rewrite Hd0. cbn [negb].
    change (String d (r ++ t)) with (String d r ++ t)%string.
    now rewrite frac_digits_app.
Qed.

Lemma frac_part_starts (fp t : string) :
  frac_part_ok fp = true -> is_digit (peek t) = false ->
  is_digit (peek (fp ++ t)) = false.
Proof.
  destruct fp as [|c r]; [auto|]. cbn [frac_part_ok append peek].
  intros H _. apply andb_prop in H as [H _].
  apply Ascii.eqb_eq in H. now subst c.
Qed.

(** The exponent of a literal whose digits write a number that fits an
    [int]. *)
Lemma number_exp_app (val : double) (ee es : ascii) (ds rest : string) :
  (ee = "e" \/ ee = "E")%char -> (es = "+" \/ es = "-")%char ->
  ds <> EmptyString -> all_digits ds = true ->
  is_digit (peek rest) = false -> decimal 0 ds < 2 ^ 31 ->
  number_exp val (String ee (String es (ds ++ rest)))
  = Some (pow10 val (if Ascii.eqb es "+" then decimal 0 ds
                     else - decimal 0 ds), rest).
Proof.
  intros Hee Hes Hne Hds Hrest Hlt. unfold number_exp.
  assert (Hfirst : is_digit (peek (ds ++ rest)) = true).
  { destruct ds as [|d ds]; [congruence|]. cbn [all_digits] in Hds.
    now apply andb_prop in Hds. }
  pose proof (decimal_ge ds Hds 0 (Z.le_refl 0)) as Hge.
  cbn [peek advance].
  replace (Ascii.eqb ee "e" || Ascii.eqb ee "E") with true
    by (destruct Hee; subst ee; reflexivity).
  rewrite Hfirst. cbn [negb].
  rewrite exp_digits_app by assumption.
  rewrite exp_digits_decimal by (auto; lia).
  destruct Hes; subst es; cbn [Ascii.eqb Bool.eqb Z.eqb]; [reflexivity|].
  rewrite wrap_int_small by lia. do 3 f_equal. lia.
Qed.

Lemma parse_number_steps (neg : bool) (s s1 s2 s3 : string)
      (v1 v2 v3 : double) :
  is_digit (peek s) = true ->
  number_int s = Some (v1, s1) ->
  number_frac v1 s1 = Some (v2, s2) ->
  number_exp v2 s2 = Some (v3, s3) ->
  parse_number ((if neg then "-" else "") ++ s)
  = Some (if neg then Dbl.mul v3 Dbl.minus_one else v3, s3).
Proof.
  intros Hd H1 H2 H3. unfold parse_number. destruct neg.
  - cbn [append peek advance Ascii.eqb Bool.eqb]. now rewrite H1, H2, H3.
  - cbn [append]. rewrite (is_digit_not _ "-" Hd) by reflexivity.
    now rewrite H1, H2, H3.
Qed.

Lemma pow10_beyond_30 (x : double) (y : Z) :
  - 2 ^ 31 < y < 2 ^ 31 -> 30 < Z.abs y -> pow10 x y = Dbl.zero.
Proof.
  intros Hy Habs. unfold pow10, abs_int.
  rewrite wrap_int_small by lia.
  destruct (Z.ltb_spec 30 (Z.abs y)); [reflexivity | lia].
Qed.

Lemma pow10_up (x : double) (n : Z) :
  0 <= n <= 30 -> pow10 x n = scale_loop Dbl.ten (Z.to_nat n) x.
Proof.
  intros Hn. unfold pow10, abs_int.
  rewrite !wrap_int_small by lia.
  destruct (Z.ltb_spec 30 (Z.abs n)); [lia|].
  replace (Z.to_nat (- n)) with 0%nat by lia. reflexivity.
Qed.

Lemma pow10_down (x : double) (n : Z) :
  0 <= n <= 30 -> pow10 x (- n) = scale_loop Dbl.tenth (Z.to_nat n) x.
Proof.
  intros Hn. unfold pow10, abs_int.
  rewrite !wrap_int_small by lia.
  destruct (Z.ltb_spec 30 (Z.abs (- n))); [lia|].
  replace (Z.to_nat (- n)) with 0%nat by lia.
  replace (- - n) with n by lia. reflexivity.
Qed.

(** C6, as the code has it.  Take a number literal with an exponent part
    whose digits write a number n that fits an [int].  [parse_number]
    succeeds on it and returns what [pow10] makes of the value of the
    mantissa and of the signed exponent, multiplied by -1.0 when the
    literal has a minus sign.  When n exceeds 30, [pow10] returns 0.0
    whatever the mantissa is, so the literal evaluates to zero: 0.0, or
    -0.0 when it has a minus sign.  When n is at most 30, [pow10]
    multiplies the mantissa n times by 10.0 for a positive exponent, and n
    times by the double 0.1 for a negative one. *)
Theorem exponent_applied_by_pow10 (neg : bool) (ip fp : string)
        (ee es : ascii) (ds rest : string) :
  int_part_ok ip = true -> frac_part_ok fp = true ->
  (ee = "e" \/ ee = "E")%char -> (es = "+" \/ es = "-")%char ->
  ds <> EmptyString -> all_digits ds = true ->
  is_digit (peek rest) = false ->
  decimal 0 ds < 2 ^ 31 ->
  let n := decimal 0 ds in
  let exp := if Ascii.eqb es "+" then n else - n in
  let text := ((if neg then "-" else "") ++
               (ip ++ fp ++ String ee (String es (ds ++ rest))))%string in
  exists val,
    parse_number (ip ++ fp) = Some (val, "") /\
    parse_number text
    = Some (if neg then Dbl.mul (pow10 val exp) Dbl.minus_one
            else pow10 val exp, rest) /\
    (30 < n ->
     pow10 val exp = Dbl.zero /\
     parse_number text = Some (if neg then Dbl.neg_zero else Dbl.zero, rest)) /\
    (n <= 30 ->
     pow10 val exp = if Ascii.eqb es "+"
                     then scale_loop Dbl.ten (Z.to_nat n) val
                     else scale_loop Dbl.tenth (Z.to_nat n) val).
Proof.
  intros Hip Hfp Hee Hes Hne Hds Hrest Hlt n exp text.
  destruct (number_int_app ip Hip) as [vi Hvi].
  destruct (number_frac_app fp vi Hfp) as [val Hval].
  pose proof (decimal_ge ds Hds 0 (Z.le_refl 0)) as Hge. fold n in Hge.
  set (tail := String ee (String es (ds ++ rest))).
  assert (Htail : is_digit (peek tail) = false
                  /\ Ascii.eqb (peek tail) "." = false).
  { subst tail. cbn [peek]. destruct Hee; subst ee; split; reflexivity. }
  destruct Htail as [Ht1 Ht2].
  assert (Hfull : parse_number text
                  = Some (if neg then Dbl.mul (pow10 val exp) Dbl.minus_one
                          else pow10 val exp, rest)).
  { subst text.
    apply (parse_number_steps neg _ (fp ++ tail) tail rest vi val).
    - now apply int_part_starts_digit.
    - apply Hvi. now apply frac_part_starts.
    - now apply Hval.
    - subst tail exp n. now apply number_exp_app. }
  exists val. split; [|split; [exact Hfull|split]].
  - rewrite <- (append_empty_r (ip ++ fp)), append_assoc.
    apply (parse_number_steps false _ (fp ++ "") "" "" vi val val).
    + now apply int_part_starts_digit.
    + apply Hvi. now apply frac_part_starts.
    + now apply Hval.
    + reflexivity.
  - intros Hn.
    assert (Hz : pow10 val exp = Dbl.zero).
    { apply pow10_beyond_30; subst exp;
        destruct (Ascii.eqb es "+"); lia. }
    split; [exact Hz|]. rewrite Hfull, Hz. destruct neg; reflexivity.
  - intros Hn. subst exp. destruct (Ascii.eqb es "+").
    + apply pow10_up. lia.
    + apply pow10_down. lia.
Qed.

(** The literal of the specification: 1e+40 evaluates to 0.0. *)
Lemma exponent_example :
  (int_part_ok "1" = true /\ frac_part_ok "" = true /\
   all_digits "40" = true /\ is_digit (peek "") = false /\
   30 < decimal 0 "40" < 2 ^ 31) /\
  exists val,
    parse_number "1" = Some (val, "") /\
    parse_number "1e+40" = Some (pow10 val 40, "") /\
    (30 < 40 ->
     pow10 val 40 = Dbl.zero /\
     parse_number "1e+40" = Some (Dbl.zero, "")) /\
    (40 <= 30 -> pow10 val 40 = scale_loop Dbl.ten 40 val).
Proof.
  split; [repeat split; try reflexivity|].
  exact (exponent_applied_by_pow10 false "1" "" "e" "+" "40" ""
           eq_refl eq_refl (or_introl eq_refl) (or_introl eq_refl)
           ltac:(discriminate) eq_refl eq_refl eq_refl).
Defined.

(** Where the claim of the specification does not hold.  The exponent is
    accumulated in an [int]: the digits 4294967296 wrap around to 0, and
    the literal evaluates to 1.0 although its exponent exceeds 30.  A
    negative exponent multiplies by the double 0.1, which is not a division
    by 10: 3e-1 does not evaluate to the quotient of 3.0 by 10.0. *)
Lemma exponent_claim_fails :
  decimal 0 "4294967296" = 4294967296 /\
  parse_number "1e+4294967296" = Some (Dbl.one, "") /\
  Dbl.eqb Dbl.one Dbl.zero = false /\
  parse_number "3e-1" = Some (Dbl.mul (Dbl.of_int 3) Dbl.tenth, "") /\
  Dbl.eqb (Dbl.mul (Dbl.of_int 3) Dbl.tenth)
          (Dbl.div (Dbl.of_int 3) Dbl.ten) = false.
Proof. repeat split; vm_compute; reflexivity. Qed.

(** Behind a minus sign the zero is the negative one. *)
Lemma exponent_negative_zero :
  parse_number "-1e+40" = Some (Dbl.neg_zero, "") /\
  Dbl.eqb Dbl.neg_zero Dbl.zero = true.
Proof. split; vm_compute; reflexivity. Qed.

(** ** Further properties *)




(** The empty object, and the order of the pairs: reading the object of
    the lookup example by index yields its keys in sorted order, not in the
    order of the input. *)
Theorem pairs_come_in_key_order :
  jy_parse "{}" = Some (mkDocument (mkObject [] 0%N)) /\
  o_count (mkObject [] 0%N) = 0%N /\
  exists o,
    jy_parse input_b_a = Some (mkDocument o) /\
    o_count o = 2%N /\
    jy_index_i_obj o 0 Uninit = (Slot 0, Live "a") /\
    jy_index_i_obj o 1 Uninit = (Slot 1, Live "b") /\
    object_at o (Slot 0) = Live (VNumber Dbl.one) /\
    object_at o (Slot 1) = Live (VNumber Dbl.zero).
Proof.
  split; [reflexivity|]. split; [reflexivity|].
  eexists. split; [reflexivity|]. repeat split.
Qed.

(** The number grammar at its edges: a lone zero and a negative fraction
    are numbers; an exponent needs an explicit sign, a point needs a digit
    after it, and a number needs a digit to start with. *)
Theorem number_grammar_edges :
  parse_number "0" = Some (Dbl.zero, "") /\
  parse_number "-0.5"
  = Some (Dbl.mul (Dbl.mul (Dbl.of_int 5) Dbl.tenth) Dbl.minus_one, "") /\
  Dbl.mul (Dbl.mul (Dbl.of_int 5) Dbl.tenth) Dbl.minus_one
  = SFopp (Dbl.div Dbl.one (Dbl.of_int 2)) /\
  (forall val c rest,
      c <> "+"%char -> c <> "-"%char ->
      number_exp val (String "e" (String c rest)) = None /\
      number_exp val (String "E" (String c rest)) = None) /\
  parse_number "1e5" = None /\
  (forall val c rest,
      is_digit c = false -> number_frac val (String "." (String c rest)) = None) /\
  parse_number "1." = None /\
  (forall c rest,
      is_digit c = false -> c <> "-"%char ->
      parse_number (String c rest) = None) /\
  parse_number "-" = None /\
  parse_number ".5" = None.
Proof.
  repeat split; try reflexivity.
  - unfold number_exp. cbn [peek advance Ascii.eqb Bool.eqb orb].
    destruct (Ascii.eqb_spec c "+"); [congruence|].
    destruct (Ascii.eqb_spec c "-"); [congruence|]. reflexivity.
  - unfold number_exp. cbn [peek advance Ascii.eqb Bool.eqb orb].
    destruct (Ascii.eqb_spec c "+"); [congruence|].
    destruct (Ascii.eqb_spec c "-"); [congruence|]. reflexivity.
  - intros val c rest Hc. unfold number_frac.
    cbn [peek advance Ascii.eqb Bool.eqb]. now rewrite Hc.
  - intros c rest Hc Hm.
    unfold parse_number. cbn [peek].
    destruct (Ascii.eqb_spec c "-"); [congruence|].
    unfold number_int. cbn [peek].
    destruct (Ascii.eqb_spec c "0") as [->|H0]; [discriminate|].
    cbn [int_digits]. rewrite Hc. reflexivity.
Qed.

Section Budget.

(** Two value parsers, the second one giving the answer of the first
    wherever the first has one. *)
Variables pv pv' : string -> result JYValue.
Hypothesis pv_extends : forall u, pv u <> OutOfFuel -> pv' u = pv u.

Lemma parse_element_extends (s : string) (out : JYArray) :
  parse_element pv s out <> OutOfFuel ->
  parse_element pv' s out = parse_element pv s out.
Proof.
  unfold parse_element. intros H.
  rewrite pv_extends; [reflexivity|].
  intros E. now rewrite E in H.
Qed.

Lemma parse_array_loop_extends (n : nat) :
  forall (s : string) (out : JYArray),
    parse_array_loop pv n s out <> OutOfFuel ->
    parse_array_loop pv' n s out = parse_array_loop pv n s out.
Proof.
  induction n as [|n IH]; intros s out H; simpl in *;
    destruct (Ascii.eqb (peek s) "]"); try reflexivity.
  rewrite parse_element_extends
    by (intros E; now rewrite E in H).
  destruct (parse_element pv s out) as [out1 s1| |]; try reflexivity.
  apply IH. exact H.
Qed.

Lemma parse_array_extends (s : string) :
  parse_array pv s <> OutOfFuel -> parse_array pv' s = parse_array pv s.
Proof.
  unfold parse_array.
  destruct (negb (Ascii.eqb (peek s) "[")); [reflexivity|].
  destruct (Ascii.eqb (peek (parse_space (advance s))) NUL); [reflexivity|].
  apply parse_array_loop_extends.
Qed.

Lemma parse_pair_extends (s : string) (out : JYObject) :
  parse_pair pv s out <> OutOfFuel ->
  parse_pair pv' s out = parse_pair pv s out.
Proof.
  unfold parse_pair. intros H.
  destruct (parse_string s) as [[k s1]|]; [|reflexivity].
  destruct (negb (Ascii.eqb (peek (parse_space s1)) ":")); [reflexivity|].
  rewrite pv_extends; [reflexivity|].
  intros E. now rewrite E in H.
Qed.

Lemma parse_object_loop_extends (n : nat) :
  forall (s : string) (out : JYObject),
    parse_object_loop pv n s out <> OutOfFuel ->
    parse_object_loop pv' n s out = parse_object_loop pv n s out.
Proof.
  induction n as [|n IH]; intros s out H; simpl in *;
    destruct (Ascii.eqb (peek s) "}"); try reflexivity.
  rewrite parse_pair_extends
    by (intros E; now rewrite E in H).
  destruct (parse_pair pv s out) as [out1 s1| |]; try reflexivity.
  apply IH. exact H.
Qed.

Lemma parse_object_extends (s : string) :
  parse_object pv s <> OutOfFuel -> parse_object pv' s = parse_object pv s.
Proof.
  unfold parse_object.
  destruct (negb (Ascii.eqb (peek s) "{")); [reflexivity|].
  destruct (Ascii.eqb (peek (parse_space (advance s))) NUL); [reflexivity|].
  apply parse_object_loop_extends.
Qed.

End Budget.

Lemma parse_value_unfold (fuel : nat) (s : string) :
  parse_value (S fuel) s
  = match parse_null s with
    | Some tmp => Ok VNull tmp
    | None =>
    match parse_bool s with
    | Some (b, tmp) => Ok (VBool b) tmp
    | None =>
    match parse_number s with
    | Some (d, tmp) => Ok (VNumber d) tmp
    | None =>
    match parse_string s with
    | Some (str, tmp) => Ok (VString str) tmp
    | None =>
    match parse_array (parse_value fuel) s with
    | Ok a tmp => Ok (VArray a) tmp
    | OutOfFuel => OutOfFuel
    | Fail =>
    match parse_object (parse_value fuel) s with
    | Ok o tmp => Ok (VObject o) tmp
    | OutOfFuel => OutOfFuel
    | Fail => Fail
    end end end end end end.
Proof. reflexivity. Qed.

Lemma parse_value_succ (fuel : nat) :
  forall s : string,
    parse_value fuel s <> OutOfFuel ->
    parse_value (S fuel) s = parse_value fuel s.
Proof.
  induction fuel as [|fuel IH]; intros s H; [now contradiction H|].
  rewrite (parse_value_unfold (S fuel) s), (parse_value_unfold fuel s).
  rewrite (parse_value_unfold fuel s) in H.
  destruct (parse_null s); [reflexivity|].
  destruct (parse_bool s) as [[b t]|]; [reflexivity|].
  destruct (parse_number s) as [[d t]|]; [reflexivity|].
  destruct (parse_string s) as [[str t]|]; [reflexivity|].
  assert (Ha : parse_array (parse_value fuel) s <> OutOfFuel).
  { intros E. now rewrite E in H. }
  rewrite (parse_array_extends _ _ IH s Ha).
  destruct (parse_array (parse_value fuel) s) as [a t| |];
    try reflexivity.
  assert (Ho : parse_object (parse_value fuel) s <> OutOfFuel).
  { intros E. now rewrite E in H. }
  now rewrite (parse_object_extends _ _ IH s Ho).
Qed.

Lemma parse_value_more (k fuel : nat) (s : string) :
  parse_value fuel s <> OutOfFuel ->
  parse_value (k + fuel) s = parse_value fuel s.
Proof.
  intros H. induction k as [|k IH]; [reflexivity|].
  cbn [Nat.add]. rewrite parse_value_succ; [assumption|]. now rewrite IH.
Qed.

(** What the dispatcher returns does not depend on the nesting budget, as
    soon as the budget exceeds the length of the input. *)
Theorem budget_is_immaterial (fuel : nat) (s : string) :
  (String.length s < fuel)%nat ->
  parse_value fuel s = parse_value (S (String.length s)) s /\
  parse_object (parse_value fuel) s = parse_root s.
Proof.
  intros H. split.
  - replace fuel with ((fuel - S (String.length s)) + S (String.length s))%nat
      by lia.
    apply parse_value_more. apply parse_value_total. lia.
  - unfold parse_root.
    replace fuel with ((fuel - String.length s) + String.length s)%nat by lia.
    apply parse_object_extends.
    + intros u Hu. now apply parse_value_more.
    + apply parse_root_total.
Qed.

Lemma budget_is_immaterial_example :
  (String.length input_b_a < 100)%nat /\
  parse_value 100 input_b_a = parse_value (S (String.length input_b_a)) input_b_a /\
  parse_object (parse_value 100) input_b_a = parse_root input_b_a.
Proof.
  assert (H : (String.length input_b_a < 100)%nat) by (vm_compute; lia).
  split; [exact H|]. exact (budget_is_immaterial 100 input_b_a H).
Defined.

(** ** What follows the text of a value does not matter

    A parser that succeeds has looked at the bytes it consumed and at most
    at the first byte of what it left.  So when something is left, the
    outcome is the same with any bytes appended to the input. *)

Lemma peek_app (s g : string) : s <> EmptyString -> peek (s ++ g) = peek s.
Proof. destruct s; [congruence | reflexivity]. Qed.

Lemma advance_app (s g : string) :
  s <> EmptyString -> advance (s ++ g) = (advance s ++ g)%string.
Proof. destruct s; [congruence | reflexivity]. Qed.

Lemma peek_nonempty (s : string) (c : ascii) :
  Ascii.eqb (peek s) c = true -> c <> NUL -> s <> EmptyString.
Proof.
  intros H Hc ->. cbn [peek] in H. apply Ascii.eqb_eq in H. congruence.
Qed.

Lemma shorter_nonempty (r s : string) :
  r <> EmptyString -> (String.length r <= String.length s)%nat ->
  s <> EmptyString.
Proof. intros Hr Hl ->. destruct r; [congruence | simpl in Hl; lia]. Qed.

Lemma match_word_ext (w s r g : string) :
  match_word w s = Some r -> match_word w (s ++ g) = Some (r ++ g)%string.
Proof.
  revert s. induction w as [|c w IH]; intros s; simpl.
  - now intros [= ->].
  - destruct s as [|d s]; [discriminate|]. cbn [append].
    destruct (Ascii.eqb c d); [apply IH | discriminate].
Qed.

Lemma parse_null_ext (s r g : string) :
  parse_null s = Some r -> parse_null (s ++ g) = Some (r ++ g)%string.
Proof. apply match_word_ext. Qed.

Lemma parse_bool_ext (s r g : string) (b : Z) :
  parse_bool s = Some (b, r) -> parse_bool (s ++ g) = Some (b, (r ++ g)%string).
Proof.
  intros H. pose proof (parse_bool_length _ _ _ H) as Hl.
  assert (Hs : s <> EmptyString) by (intros ->; simpl in Hl; lia).
  unfold parse_bool in *. rewrite (peek_app s g Hs).
  destruct (match_word (if Ascii.eqb (peek s) "t" then "true" else "false") s)
    as [t|] eqn:E; [|discriminate].
  injection H as <- <-.
  now rewrite (match_word_ext _ _ _ g E).
Qed.

Lemma int_digits_ext (s : string) :
  forall (val val' : double) (r g : string),
    int_digits s val = (val', r) -> r <> EmptyString ->
    int_digits (s ++ g) val = (val', (r ++ g)%string).
Proof.
  induction s as [|c s IH]; intros val val' r g; simpl.
  - intros [= _ <-]. congruence.
  - destruct (is_digit c) eqn:Hc.
    + apply IH.
    + intros [= <- <-] _. reflexivity.
Qed.

Lemma frac_digits_ext (s : string) :
  forall (frac val val' : double) (r g : string),
    frac_digits s frac val = (val', r) -> r <> EmptyString ->
    frac_digits (s ++ g) frac val = (val', (r ++ g)%string).
Proof.
  induction s as [|c s IH]; intros frac val val' r g; simpl.
  - intros [= _ <-]. congruence.
  - destruct (is_digit c) eqn:Hc.
    + apply IH.
    + intros [= <- <-] _. reflexivity.
Qed.

Lemma exp_digits_ext (s : string) :
  forall (exp exp' : Z) (r g : string),
    exp_digits s exp = (exp', r) -> r <> EmptyString ->
    exp_digits (s ++ g) exp = (exp', (r ++ g)%string).
Proof.
  induction s as [|c s IH]; intros exp exp' r g; simpl.
  - intros [= _ <-]. congruence.
  - destruct (is_digit c) eqn:Hc.
    + apply IH.
    + intros [= <- <-] _. reflexivity.
Qed.

Lemma number_int_ext (s r g : string) (val : double) :
  number_int s = Some (val, r) -> r <> EmptyString ->
  number_int (s ++ g) = Some (val, (r ++ g)%string).
Proof.
  intros H Hr. pose proof (number_int_length _ _ _ H) as Hl.
  assert (Hs : s <> EmptyString) by (intros ->; simpl in Hl; lia).
  unfold number_int in *. rewrite (peek_app s g Hs).
  destruct (Ascii.eqb (peek s) "0").
  - injection H as <- <-. now rewrite advance_app.
  - destruct (int_digits s Dbl.zero) as [v t] eqn:E.
    destruct (Dbl.eqb v Dbl.zero) eqn:Ez; [discriminate|].
    injection H as <- <-.
    now rewrite (int_digits_ext _ _ _ _ g E Hr), Ez.
Qed.

Lemma number_frac_ext (s r g : string) (val val' : double) :
  number_frac val s = Some (val', r) -> r <> EmptyString ->
  number_frac val (s ++ g) = Some (val', (r ++ g)%string).
Proof.
  intros H Hr. pose proof (number_frac_length _ _ _ _ H) as Hl.
  pose proof (shorter_nonempty _ _ Hr Hl) as Hs.
  unfold number_frac in *. rewrite (peek_app s g Hs).
  destruct (Ascii.eqb (peek s) ".").
  - destruct (is_digit (peek (advance s))) eqn:Hd; [|discriminate].
    cbn [negb] in *.
    assert (Ha : advance s <> EmptyString).
    { intros E. rewrite E in Hd. discriminate. }
    rewrite (advance_app s g Hs), (peek_app _ g Ha), Hd. cbn [negb].
    injection H as H. f_equal. now apply frac_digits_ext.
  - now injection H as <- <-.
Qed.

Lemma number_exp_ext (s r g : string) (val val' : double) :
  number_exp val s = Some (val', r) -> r <> EmptyString ->
  number_exp val (s ++ g) = Some (val', (r ++ g)%string).
Proof.
  intros H Hr. pose proof (number_exp_length _ _ _ _ H) as Hl.
  pose proof (shorter_nonempty _ _ Hr Hl) as Hs.
  unfold number_exp in *. rewrite (peek_app s g Hs).
  destruct (Ascii.eqb (peek s) "e" || Ascii.eqb (peek s) "E");
    [|now injection H as <- <-].
  assert (Hd : is_digit (peek (advance (advance s))) = true).
  { destruct (if Ascii.eqb (peek (advance s)) "+" then Some 0
              else if Ascii.eqb (peek (advance s)) "-" then Some 1 else None);
      [|discriminate].
    destruct (is_digit (peek (advance (advance s)))); [reflexivity|].
    discriminate. }
  assert (Ha2 : advance (advance s) <> EmptyString).
  { intros E. rewrite E in Hd. discriminate. }
  assert (Ha1 : advance s <> EmptyString).
  { intros E. rewrite E in Ha2. now apply Ha2. }
  rewrite (advance_app s g Hs), (peek_app _ g Ha1),
    (advance_app _ g Ha1), (peek_app _ g Ha2).
  destruct (if Ascii.eqb (peek (advance s)) "+" then Some 0
            else if Ascii.eqb (peek (advance s)) "-" then Some 1 else None)
    as [sign|]; [|discriminate].
  rewrite Hd in *. cbn [negb] in *.
  destruct (exp_digits (advance (advance s)) 0) as [e t] eqn:E.
  injection H as <- <-.
  now rewrite (exp_digits_ext _ _ _ _ g E Hr).
Qed.

Lemma parse_number_ext (s r g : string) (val : double) :
  parse_number s = Some (val, r) -> r <> EmptyString ->
  parse_number (s ++ g) = Some (val, (r ++ g)%string).
Proof.
  intros H Hr. pose proof (parse_number_length _ _ _ H) as Hl.
  assert (Hs : s <> EmptyString) by (intros ->; simpl in Hl; lia).
  unfold parse_number in *. rewrite (peek_app s g Hs).
  assert (Hsg : forall (sg : Z) (t : string),
             (if Ascii.eqb (peek s) "-" then (1, advance s) else (0, s)) = (sg, t) ->
             (if Ascii.eqb (peek s) "-" then (1, advance (s ++ g)) else (0, (s ++ g)%string))
             = (sg, (t ++ g)%string)).
  { intros sg t. destruct (Ascii.eqb (peek s) "-"); intros [= <- <-];
      [rewrite advance_app by assumption|]; reflexivity. }
  destruct (if Ascii.eqb (peek s) "-" then (1, advance s) else (0, s))
    as [sg t] eqn:E.
  rewrite (Hsg _ _ eq_refl).
  destruct (number_int t) as [[v1 t1]|] eqn:E1; [|discriminate].
  destruct (number_frac v1 t1) as [[v2 t2]|] eqn:E2; [|discriminate].
  destruct (number_exp v2 t2) as [[v3 t3]|] eqn:E3; [|discriminate].
  injection H as Hv Ht. subst r val.
  assert (Ht2 : t2 <> EmptyString).
  { apply (shorter_nonempty t3 t2 Hr). eapply number_exp_length; eauto. }
  assert (Ht1 : t1 <> EmptyString).
  { apply (shorter_nonempty t2 t1 Ht2). eapply number_frac_length; eauto. }
  rewrite (number_int_ext _ _ g _ E1 Ht1), (number_frac_ext _ _ g _ _ E2 Ht2),
    (number_exp_ext _ _ g _ _ E3 Hr).
  reflexivity.
Qed.

Lemma parse_string_loop_ext (s : string) :
  forall (val : string) (cap : N) (val' : string) (cap' : N) (r g : string),
    parse_string_loop s val cap = Some (val', cap', r) ->
    parse_string_loop (s ++ g) val cap = Some (val', cap', (r ++ g)%string).
Proof.
  assert (H : forall n s, (String.length s <= n)%nat ->
    forall (val : string) (cap : N) (val' : string) (cap' : N) (r g : string),
      parse_string_loop s val cap = Some (val', cap', r) ->
      parse_string_loop (s ++ g) val cap = Some (val', cap', (r ++ g)%string));
    [|now apply (H (String.length s))].
  clear s. induction n as [|n IH]; intros s Hn val cap val' cap' r g.
  - destruct s; [discriminate | simpl in Hn; lia].
  - destruct s as [|c s]; [discriminate|]. simpl in Hn.
    cbn [append parse_string_loop].
    destruct (Ascii.eqb c DQUOTE).
    + now intros [= <- <- <-].
    + destruct (Ascii.eqb c LF || Ascii.eqb c NUL); [discriminate|].
      destruct (Ascii.eqb c BACKSLASH).
      * destruct s as [|e s]; [discriminate|]. simpl in Hn.
        cbn [append].
        destruct (escape e); [|discriminate].
        destruct (string_push val cap a) as [v1 c1]. apply IH. lia.
      * destruct (string_push val cap c) as [v1 c1]. apply IH. lia.
Qed.

Lemma parse_string_ext (s r g val : string) :
  parse_string s = Some (val, r) ->
  parse_string (s ++ g) = Some (val, (r ++ g)%string).
Proof.
  unfold parse_string.
  destruct (Ascii.eqb (peek s) DQUOTE) eqn:Eq; [|discriminate].
  assert (Hq : DQUOTE <> NUL) by discriminate.
  pose proof (peek_nonempty s _ Eq Hq) as Hs.
  rewrite (peek_app s g Hs), Eq, (advance_app s g Hs). cbn [negb].
  destruct (parse_string_loop (advance s) "" 0) as [[[v c] t]|] eqn:E;
    [|discriminate].
  intros [= <- <-].
  rewrite (parse_string_loop_ext _ _ _ _ _ _ g E).
  apply parse_string_loop_length in E as [_ Ht].
  assert (Hne : t <> EmptyString).
  { intros ->. discriminate. }
  now rewrite (advance_app t g Hne).
Qed.

(** The scanner: something is left, and it does not start with a slash. *)
Lemma skip_line_ext (k : string -> string) (t : string) :
  forall r g : string,
    (forall u r, (String.length u <= String.length t)%nat ->
                 k u = r -> r <> EmptyString ->
                 Ascii.eqb (peek r) SLASH = false ->
                 k (u ++ g) = (r ++ g)%string) ->
    k EmptyString = EmptyString ->
    skip_line k t = r -> r <> EmptyString ->
    Ascii.eqb (peek r) SLASH = false ->
    skip_line k (t ++ g) = (r ++ g)%string.
Proof.
  induction t as [|c t IH]; intros r g Hk Hk0 Hr Hne Hsl.
  - simpl in Hr. congruence.
  - cbn [append skip_line] in *.
    destruct (Ascii.eqb c NUL || Ascii.eqb c LF).
    + apply (Hk (String c t)); auto.
    + apply IH; auto. intros u r' Hu. apply Hk. simpl. lia.
Qed.

Lemma skip_block_ext (k : string -> string) (t : string) :
  forall r g : string,
    (forall u r, (String.length u <= String.length t)%nat ->
                 k u = r -> r <> EmptyString ->
                 Ascii.eqb (peek r) SLASH = false ->
                 k (u ++ g) = (r ++ g)%string) ->
    k EmptyString = EmptyString ->
    skip_block k t = r -> r <> EmptyString ->
    Ascii.eqb (peek r) SLASH = false ->
    skip_block k (t ++ g) = (r ++ g)%string.
Proof.
  induction t as [|c t IH]; intros r g Hk Hk0 Hr Hne Hsl.
  - simpl in Hr. congruence.
  - assert (Hgo : skip_block k t = r ->
                  skip_block k (t ++ g) = (r ++ g)%string).
    { intros E. apply IH; auto. intros u r' Hu. apply Hk. simpl. lia. }
    cbn [append skip_block] in *.
    destruct (Ascii.eqb c NUL); [apply (Hk (String c t)); auto|].
    destruct (Ascii.eqb c STAR); [|auto].
    destruct t as [|d t].
    + simpl in Hr. congruence.
    + cbn [append]. destruct (Ascii.eqb d SLASH); [|auto].
      apply Hk; auto. simpl. lia.
Qed.

Lemma parse_space_ext (s r g : string) :
  parse_space s = r -> r <> EmptyString ->
  Ascii.eqb (peek r) SLASH = false ->
  parse_space (s ++ g) = (r ++ g)%string.
Proof.
  assert (H : forall n s r, (String.length s <= n)%nat ->
                parse_space s = r -> r <> EmptyString ->
                Ascii.eqb (peek r) SLASH = false ->
                parse_space (s ++ g) = (r ++ g)%string);
    [|now apply (H (String.length s))].
  clear s r. induction n as [|n IH]; intros s r Hn Hr Hne Hsl.
  - destruct s; [simpl in Hr; congruence | simpl in Hn; lia].
  - destruct s as [|c s]; [simpl in Hr; congruence|]. simpl in Hn.
    cbn [append parse_space] in *.
    destruct (isspace c); [apply IH; auto; lia|].
    destruct (Ascii.eqb c SLASH) eqn:Ec.
    + destruct s as [|d s].
      * subst r. cbn [peek] in Hsl. congruence.
      * simpl in Hn. cbn [append].
        destruct (Ascii.eqb d SLASH); [|destruct (Ascii.eqb d STAR)].
        -- apply skip_line_ext; auto.
           intros u r' Hu. apply IH. lia.
        -- apply skip_block_ext; auto.
           intros u r' Hu. apply IH. lia.
        -- subst r. cbn [peek] in Hsl. congruence.
    + now subst r.
Qed.

(** The first byte decides which recognizers can succeed. *)

Lemma parse_null_start (s : string) :
  Ascii.eqb (peek s) "n" = false -> parse_null s = None.
Proof.
  destruct s as [|c s]; [reflexivity|]. cbn [peek]. intros H.
  unfold parse_null. cbn [match_word]. rewrite Ascii.eqb_sym. now rewrite H.
Qed.

Lemma parse_bool_start (s : string) :
  Ascii.eqb (peek s) "t" = false -> Ascii.eqb (peek s) "f" = false ->
  parse_bool s = None.
Proof.
  intros Ht Hf. unfold parse_bool. rewrite Ht.
  destruct s as [|c s]; [reflexivity|]. cbn [peek] in Hf.
  cbn [match_word]. rewrite Ascii.eqb_sym. now rewrite Hf.
Qed.

Lemma parse_number_start (s : string) :
  Ascii.eqb (peek s) "-" = false -> is_digit (peek s) = false ->
  parse_number s = None.
Proof.
  intros Hm Hd. unfold parse_number, number_int. rewrite Hm.
  destruct (Ascii.eqb_spec (peek s) "0") as [E|E];
    [rewrite E in Hd; discriminate|].
  destruct s as [|c s]; [reflexivity|]. cbn [peek] in Hd.
  cbn [int_digits]. now rewrite Hd.
Qed.

Lemma parse_string_start (s : string) :
  Ascii.eqb (peek s) DQUOTE = false -> parse_string s = None.
Proof. intros H. unfold parse_string. now rewrite H. Qed.

(** The bytes a value can start with. *)
Lemma parse_null_first (s r : string) :
  parse_null s = Some r -> peek s = "n"%char.
Proof.
  intros H. destruct (Ascii.eqb_spec (peek s) "n") as [E|E]; [assumption|].
  rewrite parse_null_start in H; [discriminate|]. now apply Ascii.eqb_neq.
Qed.

Lemma parse_bool_first (s r : string) (b : Z) :
  parse_bool s = Some (b, r) -> peek s = "t"%char \/ peek s = "f"%char.
Proof.
  intros H.
  destruct (Ascii.eqb_spec (peek s) "t") as [E|Et]; [now left|].
  destruct (Ascii.eqb_spec (peek s) "f") as [E|Ef]; [now right|].
  rewrite parse_bool_start in H; [discriminate| |]; now apply Ascii.eqb_neq.
Qed.

Lemma parse_number_first (s r : string) (d : double) :
  parse_number s = Some (d, r) ->
  peek s = "-"%char \/ is_digit (peek s) = true.
Proof.
  intros H.
  destruct (Ascii.eqb_spec (peek s) "-") as [E|Em]; [now left|].
  destruct (is_digit (peek s)) eqn:Ed; [now right|].
  rewrite parse_number_start in H; [discriminate| |assumption].
  now apply Ascii.eqb_neq.
Qed.

Lemma append_length (a b : string) :
  String.length (a ++ b) = (String.length a + String.length b)%nat.
Proof. induction a as [|c a IH]; simpl; [reflexivity | now rewrite IH]. Qed.

Section Extension.

(** A value parser that consumes input, starts on no slash, and does not
    depend on what follows the byte after its value. *)
Variable pv : string -> result JYValue.
Hypothesis pv_shrinks :
  forall s v r, pv s = Ok v r -> (String.length r < String.length s)%nat.
Hypothesis pv_start :
  forall s v r, pv s = Ok v r -> Ascii.eqb (peek s) SLASH = false.
Hypothesis pv_ext :
  forall s v r g, pv s = Ok v r -> r <> EmptyString ->
                  pv (s ++ g) = Ok v (r ++ g)%string.

Lemma parse_element_ext (s : string) (out out1 : JYArray) (s1 g : string) :
  parse_element pv s out = Ok out1 s1 ->
  s1 <> EmptyString -> Ascii.eqb (peek s1) SLASH = false ->
  parse_element pv (s ++ g) out = Ok out1 (s1 ++ g)%string.
Proof.
  unfold parse_element. intros H Hne Hsl.
  destruct (pv s) as [res t| |] eqn:E; try discriminate.
  pose proof (parse_space_length t) as Hl1.
  pose proof (advance_length (parse_space t)) as Hl2.
  pose proof (parse_space_length (advance (parse_space t))) as Hl3.
  pose proof (parse_space_length (parse_space t)) as Hl4.
  destruct (Ascii.eqb (peek (parse_space t)) ",") eqn:Ec.
  - injection H as <- <-.
    assert (Ht1 : parse_space t <> EmptyString).
    { eapply peek_nonempty; eauto. discriminate. }
    assert (Ht : t <> EmptyString).
    { eapply shorter_nonempty; eauto. }
    rewrite (pv_ext _ _ _ g E Ht).
    rewrite (parse_space_ext t _ g eq_refl Ht1)
      by (apply Ascii.eqb_eq in Ec; now rewrite Ec).
    rewrite (peek_app _ g Ht1), Ec, (advance_app _ g Ht1).
    now rewrite (parse_space_ext _ _ g eq_refl Hne Hsl).
  - destruct (Ascii.eqb (peek (parse_space t)) "]") eqn:Eb; [|discriminate].
    cbn [negb] in H. injection H as <- <-.
    assert (Ht1 : parse_space t <> EmptyString).
    { eapply peek_nonempty; eauto. discriminate. }
    assert (Ht : t <> EmptyString).
    { eapply shorter_nonempty; eauto. }
    rewrite (pv_ext _ _ _ g E Ht).
    rewrite (parse_space_ext t _ g eq_refl Ht1)
      by (apply Ascii.eqb_eq in Eb; now rewrite Eb).
    rewrite (peek_app _ g Ht1), Ec, Eb. cbn [negb].
    now rewrite (parse_space_ext _ _ g eq_refl Hne Hsl).
Qed.

Lemma parse_array_loop_start (n : nat) (s : string) (out o : JYArray)
      (r : string) :
  parse_array_loop pv n s out = Ok o r ->
  s <> EmptyString /\ Ascii.eqb (peek s) SLASH = false.
Proof.
  destruct n as [|n]; simpl;
    destruct (Ascii.eqb (peek s) "]") eqn:Eb; try discriminate;
    try (intros _; split;
         [eapply peek_nonempty; eauto; discriminate
         | apply Ascii.eqb_eq in Eb; now rewrite Eb]).
  unfold parse_element.
  destruct (pv s) as [res t| |] eqn:E; try discriminate.
  intros _. split; [|eapply pv_start; eauto].
  apply pv_shrinks in E. intros ->. simpl in E. lia.
Qed.

Lemma parse_array_loop_more (n : nat) :
  forall (s : string) (out o : JYArray) (r : string) (k : nat),
    parse_array_loop pv n s out = Ok o r ->
    parse_array_loop pv (k + n) s out = Ok o r.
Proof.
  induction n as [|n IH]; intros s out o r k.
  - simpl. destruct (Ascii.eqb (peek s) "]") eqn:Eb; [|discriminate].
    intros H. destruct (k + 0)%nat; simpl; now rewrite Eb.
  - rewrite Nat.add_succ_r. simpl.
    destruct (Ascii.eqb (peek s) "]"); [auto|].
    destruct (parse_element pv s out) as [out1 s1| |]; try discriminate.
    apply IH.
Qed.

Lemma parse_array_loop_ext (n : nat) :
  forall (s : string) (out o : JYArray) (r g : string),
    parse_array_loop pv n s out = Ok o r ->
    parse_array_loop pv n (s ++ g) out = Ok o (r ++ g)%string.
Proof.
  induction n as [|n IH]; intros s out o r g H;
    destruct (parse_array_loop_start _ _ _ _ _ H) as [Hs Hsl];
    simpl in *; rewrite (peek_app s g Hs);
    destruct (Ascii.eqb (peek s) "]"); try discriminate;
    try (injection H as <- <-; now rewrite advance_app).
  destruct (parse_element pv s out) as [out1 s1| |] eqn:E; try discriminate.
  destruct (parse_array_loop_start _ _ _ _ _ H) as [Hs1 Hsl1].
  rewrite (parse_element_ext _ _ _ _ g E Hs1 Hsl1). now apply IH.
Qed.

Lemma parse_array_ext (s : string) (o : JYArray) (r g : string) :
  parse_array pv s = Ok o r -> parse_array pv (s ++ g) = Ok o (r ++ g)%string.
Proof.
  unfold parse_array.
  destruct (Ascii.eqb (peek s) "[") eqn:Eb; [|discriminate]. cbn [negb].
  assert (Hs : s <> EmptyString) by (eapply peek_nonempty; eauto; discriminate).
  rewrite (peek_app s g Hs), Eb, (advance_app s g Hs). cbn [negb].
  destruct (Ascii.eqb (peek (parse_space (advance s))) NUL) eqn:E0;
    [discriminate|].
  intros H. destruct (parse_array_loop_start _ _ _ _ _ H) as [Hs1 Hsl1].
  rewrite (parse_space_ext _ _ g eq_refl Hs1 Hsl1).
  rewrite (peek_app _ g Hs1), E0.
  apply (parse_array_loop_ext _ _ _ _ _ g) in H.
  replace (S (String.length (parse_space (advance s) ++ g)))
    with (String.length g + S (String.length (parse_space (advance s))))%nat.
  - now apply parse_array_loop_more.
  - rewrite append_length. lia.
Qed.

Lemma parse_pair_ext (s : string) (out out1 : JYObject) (s1 g : string) :
  parse_pair pv s out = Ok out1 s1 ->
  s1 <> EmptyString -> Ascii.eqb (peek s1) SLASH = false ->
  parse_pair pv (s ++ g) out = Ok out1 (s1 ++ g)%string.
Proof.
  unfold parse_pair. intros H Hne Hsl.
  destruct (parse_string s) as [[k t]|] eqn:Ek; [|discriminate].
  rewrite (parse_string_ext _ _ g _ Ek).
  destruct (Ascii.eqb (peek (parse_space t)) ":") eqn:Ec; [|discriminate].
  cbn [negb] in H.
  assert (Ht1 : parse_space t <> EmptyString).
  { eapply peek_nonempty; eauto. discriminate. }
  rewrite (parse_space_ext t _ g eq_refl Ht1)
    by (apply Ascii.eqb_eq in Ec; now rewrite Ec).
  rewrite (peek_app _ g Ht1), Ec, (advance_app _ g Ht1). cbn [negb].
  set (t2 := parse_space (advance (parse_space t))) in *.
  destruct (pv t2) as [val t3| |] eqn:E; try discriminate.
  assert (Ht2 : t2 <> EmptyString).
  { apply pv_shrinks in E. intros E2. rewrite E2 in E. simpl in E. lia. }
  rewrite (parse_space_ext _ _ g eq_refl Ht2 (pv_start _ _ _ E)).
  fold t2.
  destruct (object_insert out k val) as [out2|] eqn:Ei; [|discriminate].
  pose proof (parse_space_length t3) as Hl1.
  pose proof (advance_length (parse_space t3)) as Hl2.
  pose proof (parse_space_length (advance (parse_space t3))) as Hl3.
  pose proof (parse_space_length (parse_space t3)) as Hl4.
  destruct (Ascii.eqb (peek (parse_space t3)) ",") eqn:Ecm.
  - injection H as <- <-.
    assert (Ht4 : parse_space t3 <> EmptyString).
    { eapply peek_nonempty; eauto. discriminate. }
    assert (Ht3 : t3 <> EmptyString).
    { eapply shorter_nonempty; eauto. }
    rewrite (pv_ext _ _ _ g E Ht3), Ei.
    rewrite (parse_space_ext t3 _ g eq_refl Ht4)
      by (apply Ascii.eqb_eq in Ecm; now rewrite Ecm).
    rewrite (peek_app _ g Ht4), Ecm, (advance_app _ g Ht4).
    now rewrite (parse_space_ext _ _ g eq_refl Hne Hsl).
  - destruct (Ascii.eqb (peek (parse_space t3)) "}") eqn:Eb; [|discriminate].
    cbn [negb] in H. injection H as <- <-.
    assert (Ht4 : parse_space t3 <> EmptyString).
    { eapply peek_nonempty; eauto. discriminate. }
    assert (Ht3 : t3 <> EmptyString).
    { eapply shorter_nonempty; eauto. }
    rewrite (pv_ext _ _ _ g E Ht3), Ei.
    rewrite (parse_space_ext t3 _ g eq_refl Ht4)
      by (apply Ascii.eqb_eq in Eb; now rewrite Eb).
    rewrite (peek_app _ g Ht4), Ecm, Eb. cbn [negb].
    now rewrite (parse_space_ext _ _ g eq_refl Hne Hsl).
Qed.

Lemma parse_object_loop_start (n : nat) (s : string) (out o : JYObject)
      (r : string) :
  parse_object_loop pv n s out = Ok o r ->
  s <> EmptyString /\ Ascii.eqb (peek s) SLASH = false.
Proof.
  destruct n as [|n]; simpl;
    destruct (Ascii.eqb (peek s) "}") eqn:Eb; try discriminate;
    try (intros _; split;
         [eapply peek_nonempty; eauto; discriminate
         | apply Ascii.eqb_eq in Eb; now rewrite Eb]).
  unfold parse_pair.
  destruct (parse_string s) as [[k t]|] eqn:Ek; try discriminate.
  intros _. apply parse_string_starts_quoted in Ek.
  split; [eapply peek_nonempty; eauto; discriminate|].
  apply Ascii.eqb_eq in Ek. now rewrite Ek.
Qed.

Lemma parse_object_loop_more (n : nat) :
  forall (s : string) (out o : JYObject) (r : string) (k : nat),
    parse_object_loop pv n s out = Ok o r ->
    parse_object_loop pv (k + n) s out = Ok o r.
Proof.
  induction n as [|n IH]; intros s out o r k.
  - simpl. destruct (Ascii.eqb (peek s) "}") eqn:Eb; [|discriminate].
    intros H. destruct (k + 0)%nat; simpl; now rewrite Eb.
  - rewrite Nat.add_succ_r. simpl.
    destruct (Ascii.eqb (peek s) "}"); [auto|].
    destruct (parse_pair pv s out) as [out1 s1| |]; try discriminate.
    apply IH.
Qed.

Lemma parse_object_loop_ext (n : nat) :
  forall (s : string) (out o : JYObject) (r g : string),
    parse_object_loop pv n s out = Ok o r ->
    parse_object_loop pv n (s ++ g) out = Ok o (r ++ g)%string.
Proof.
  induction n as [|n IH]; intros s out o r g H;
    destruct (parse_object_loop_start _ _ _ _ _ H) as [Hs Hsl];
    simpl in *; rewrite (peek_app s g Hs);
    destruct (Ascii.eqb (peek s) "}"); try discriminate;
    try (injection H as <- <-; now rewrite advance_app).
  destruct (parse_pair pv s out) as [out1 s1| |] eqn:E; try discriminate.
  destruct (parse_object_loop_start _ _ _ _ _ H) as [Hs1 Hsl1].
  rewrite (parse_pair_ext _ _ _ _ g E Hs1 Hsl1). now apply IH.
Qed.

Lemma parse_object_ext (s : string) (o : JYObject) (r g : string) :
  parse_object pv s = Ok o r ->
  parse_object pv (s ++ g) = Ok o (r ++ g)%string.
Proof.
  unfold parse_object.
  destruct (Ascii.eqb (peek s) "{") eqn:Eb; [|discriminate]. cbn [negb].
  assert (Hs : s <> EmptyString) by (eapply peek_nonempty; eauto; discriminate).
  rewrite (peek_app s g Hs), Eb, (advance_app s g Hs). cbn [negb].
  destruct (Ascii.eqb (peek (parse_space (advance s))) NUL) eqn:E0;
    [discriminate|].
  intros H. destruct (parse_object_loop_start _ _ _ _ _ H) as [Hs1 Hsl1].
  rewrite (parse_space_ext _ _ g eq_refl Hs1 Hsl1).
  rewrite (peek_app _ g Hs1), E0.
  apply (parse_object_loop_ext _ _ _ _ _ g) in H.
  replace (S (String.length (parse_space (advance s) ++ g)))
    with (String.length g + S (String.length (parse_space (advance s))))%nat.
  - now apply parse_object_loop_more.
  - rewrite append_length. lia.
Qed.

End Extension.

Lemma parse_array_first pv (s : string) :
  Ascii.eqb (peek s) "[" = false -> parse_array pv s = Fail.
Proof. intros H. unfold parse_array. now rewrite H. Qed.

Lemma parse_object_first pv (s : string) :
  Ascii.eqb (peek s) "{" = false -> parse_object pv s = Fail.
Proof. intros H. unfold parse_object. now rewrite H. Qed.

(** The dispatcher starts on no slash. *)
Lemma parse_value_start (fuel : nat) (s : string) (v : JYValue) (r : string) :
  parse_value fuel s = Ok v r -> Ascii.eqb (peek s) SLASH = false.
Proof.
  destruct fuel as [|fuel]; [discriminate|]. rewrite parse_value_unfold.
  destruct (parse_null s) eqn:E1.
  { apply parse_null_first in E1. now rewrite E1. }
  destruct (parse_bool s) as [[b t]|] eqn:E2.
  { apply parse_bool_first in E2 as [E|E]; now rewrite E. }
  destruct (parse_number s) as [[d t]|] eqn:E3.
  { apply parse_number_first in E3 as [E|E]; [now rewrite E|].
    intros _. now apply is_digit_not. }
  destruct (parse_string s) as [[str t]|] eqn:E4.
  { apply parse_string_starts_quoted in E4. apply Ascii.eqb_eq in E4.
    now rewrite E4. }
  destruct (Ascii.eqb_spec (peek s) "[") as [E|Ea]; [now rewrite E|].
  rewrite parse_array_first by now apply Ascii.eqb_neq.
  destruct (Ascii.eqb_spec (peek s) "{") as [E|Eo]; [now rewrite E|].
  rewrite parse_object_first by now apply Ascii.eqb_neq.
  discriminate.
Qed.

(** The dispatcher does not depend on what follows the byte after the
    value. *)
Lemma parse_value_ext (fuel : nat) :
  forall (s : string) (v : JYValue) (r g : string),
    parse_value fuel s = Ok v r -> r <> EmptyString ->
    parse_value fuel (s ++ g) = Ok v (r ++ g)%string.
Proof.
  induction fuel as [|fuel IH]; intros s v r g H Hr; [discriminate|].
  pose proof (parse_value_length _ _ _ _ H) as Hl.
  assert (Hs : s <> EmptyString) by (intros ->; simpl in Hl; lia).
  rewrite parse_value_unfold in *.
  destruct (parse_null s) eqn:E1.
  { injection H as <- <-. now rewrite (parse_null_ext _ _ g E1). }
  destruct (parse_bool s) as [[b t]|] eqn:E2.
  { injection H as <- <-.
    rewrite parse_null_start, (parse_bool_ext _ _ g _ E2); [reflexivity|].
    rewrite peek_app by assumption.
    apply parse_bool_first in E2 as [E|E]; now rewrite E. }
  destruct (parse_number s) as [[d t]|] eqn:E3.
  { injection H as <- <-.
    assert (Hn : Ascii.eqb (peek s) "n" = false
                 /\ Ascii.eqb (peek s) "t" = false
                 /\ Ascii.eqb (peek s) "f" = false).
    { apply parse_number_first in E3 as [E|E];
        [rewrite E; repeat split
        |repeat split; now apply is_digit_not]. }
    destruct Hn as (Hn1 & Hn2 & Hn3).
    rewrite parse_null_start, parse_bool_start,
      (parse_number_ext _ _ g _ E3 Hr);
      rewrite ?peek_app by assumption; auto. }
  destruct (parse_string s) as [[str t]|] eqn:E4.
  { injection H as <- <-.
    pose proof (parse_string_starts_quoted _ _ _ E4) as Hq.
    apply Ascii.eqb_eq in Hq.
    rewrite parse_null_start, parse_bool_start, parse_number_start,
      (parse_string_ext _ _ g _ E4);
      rewrite ?peek_app by assumption; try rewrite Hq; reflexivity. }
  destruct (parse_array (parse_value fuel) s) as [a t| |] eqn:Ea;
    try discriminate.
  { injection H as <- <-.
    assert (Hb : peek s = "["%char).
    { destruct (Ascii.eqb_spec (peek s) "[") as [E|E]; [assumption|].
      rewrite parse_array_first in Ea; [discriminate|].
      now apply Ascii.eqb_neq. }
    rewrite parse_null_start, parse_bool_start, parse_number_start,
      parse_string_start;
      rewrite ?peek_app by assumption; try rewrite Hb; try reflexivity.
    now rewrite (parse_array_ext _ (parse_value_length fuel)
                   (parse_value_start fuel) IH _ _ _ g Ea). }
  destruct (parse_object (parse_value fuel) s) as [o t| |] eqn:Eo;
    try discriminate.
  injection H as <- <-.
  assert (Hb : peek s = "{"%char).
  { destruct (Ascii.eqb_spec (peek s) "{") as [E|E]; [assumption|].
    rewrite parse_object_first in Eo; [discriminate|].
    now apply Ascii.eqb_neq. }
  rewrite parse_null_start, parse_bool_start, parse_number_start,
    parse_string_start, parse_array_first;
    rewrite ?peek_app by assumption; try rewrite Hb; try reflexivity.
  now rewrite (parse_object_ext _ (parse_value_length fuel)
                 (parse_value_start fuel) IH _ _ _ g Eo).
Qed.

(** Whatever follows the closing brace of the root object is carried
    along untouched. *)
Lemma parse_root_ext (s : string) (o : JYObject) (r g : string) :
  parse_root s = Ok o r -> parse_root (s ++ g) = Ok o (r ++ g)%string.
Proof.
  unfold parse_root. intros H.
  apply (parse_object_ext _ (parse_value_length _) (parse_value_start _)
           (parse_value_ext _) _ _ _ g) in H.
  rewrite <- H. rewrite append_length.
  rewrite (Nat.add_comm (String.length s)).
  apply parse_object_extends; [|congruence].
  intros u Hu. now apply parse_value_more.
Qed.

(** ** The entry point *)

(** C3. [jy_parse] succeeds exactly when the object parser, started on the
    first byte of the input, returns an object; the cursor it returns,
    that is whatever follows the closing brace, is not looked at, so any
    bytes appended to an accepted input leave the document as it is.  An
    input that does not start with an opening brace (a scalar, an array,
    the empty input) is rejected, although the value dispatcher accepts
    it. *)
Theorem jy_parse_runs_object_parser :
  (forall s, (exists doc, jy_parse s = Some doc) <->
             (exists o rest, parse_root s = Ok o rest)) /\
  (forall s, jy_parse s = None <-> parse_root s = Fail) /\
  (forall s o rest, parse_root s = Ok o rest ->
                    jy_parse s = Some (mkDocument o)) /\
  (forall s o rest garbage,
      parse_root s = Ok o rest ->
      jy_parse (s ++ garbage) = Some (mkDocument o)) /\
  (forall garbage,
      jy_parse ("{}" ++ garbage) = Some (mkDocument (mkObject [] 0%N))) /\
  jy_parse "{} garbage" = Some (mkDocument (mkObject [] 0%N)) /\
  (forall s, Ascii.eqb (peek s) "{" = false -> jy_parse s = None) /\
  jy_parse "[1,2,3]" = None /\
  (exists a, parse_value 2 "[1,2,3]" = Ok (VArray a) "" /\ a_count a = 3%N) /\
  jy_parse "" = None /\
  jy_parse "1" = None /\
  jy_parse "null" = None /\
  jy_parse (q ++ "text" ++ q) = None.
Proof.
  assert (Hok : forall s o rest, parse_root s = Ok o rest ->
                                 jy_parse s = Some (mkDocument o)).
  { intros s o rest H. unfold jy_parse. now rewrite H. }
  split; [|split; [|split; [exact Hok|split]]].
  - intros s. split.
    + intros [doc H]. unfold jy_parse in H.
      destruct (parse_root s) as [o rest| |]; try discriminate. eauto.
    + intros (o & rest & H). eauto.
  - intros s. pose proof (parse_root_total s). unfold jy_parse.
    destruct (parse_root s); split; congruence.
  - intros s o rest garbage H.
    apply (Hok _ _ (rest ++ garbage)%string). now apply parse_root_ext.
  - repeat split; try reflexivity.
    + intros s H. unfold jy_parse, parse_root, parse_object. now rewrite H.
    + eexists. split; vm_compute; reflexivity.
Qed.

(** * The scanner *)

Lemma skip_line_suffix (k : string -> string) (t : string) :
  exists c u, t = (c ++ u)%string /\ skip_line k t = k u.
Proof.
  induction t as [|a t IH].
  - exists EmptyString, EmptyString. split; reflexivity.
  - cbn [skip_line].
    destruct (Ascii.eqb a NUL || Ascii.eqb a LF).
    + exists EmptyString, (String a t). split; reflexivity.
    + destruct IH as (c & u & Ht & Hk).
      exists (String a c), u. split; [simpl; now rewrite <- Ht | exact Hk].
Qed.

Lemma skip_block_suffix (k : string -> string) (t : string) :
  exists c u, t = (c ++ u)%string /\ skip_block k t = k u.
Proof.
  assert (H : forall n t, (String.length t <= n)%nat ->
                exists c u, t = (c ++ u)%string /\ skip_block k t = k u).
  { clear t. induction n as [|n IH]; intros [|a t] Hn; simpl in Hn; try lia;
      try (exists EmptyString, EmptyString; split; reflexivity).
    cbn [skip_block].
    destruct (Ascii.eqb a NUL).
    { exists EmptyString, (String a t). split; reflexivity. }
    assert (Hgo : exists c u, String a t = (c ++ u)%string
                              /\ skip_block k t = k u).
    { destruct (IH t) as (c & u & Ht & Hk); [lia|].
      exists (String a c), u. split; [simpl; now rewrite <- Ht | exact Hk]. }
    destruct (Ascii.eqb a STAR); [|exact Hgo].
    destruct t as [|d t]; [exact Hgo|].
    destruct (Ascii.eqb d SLASH); [|exact Hgo].
    exists (String a (String d EmptyString)), t. split; reflexivity. }
  apply (H (String.length t)). lia.
Qed.

Lemma parse_space_fixed (r : string) :
  isspace (peek r) = false -> comment_start r = false -> parse_space r = r.
Proof.
  destruct r as [|c r]; [reflexivity|]. cbn [peek parse_space comment_start].
  intros -> Hc. destruct (Ascii.eqb c SLASH); [|reflexivity].
  destruct r as [|d r]; [reflexivity|]. cbn [andb] in Hc.
  apply orb_false_elim in Hc as [-> ->]. reflexivity.
Qed.

Lemma parse_space_token (s : string) :
  (exists skipped, s = (skipped ++ parse_space s)%string) /\
  isspace (peek (parse_space s)) = false /\
  comment_start (parse_space s) = false.
Proof.
  assert (H : forall n s, (String.length s <= n)%nat ->
                (exists skipped, s = (skipped ++ parse_space s)%string) /\
                isspace (peek (parse_space s)) = false /\
                comment_start (parse_space s) = false).
  { clear s. induction n as [|n IH]; intros [|c s] Hn; simpl in Hn; try lia;
      try (split; [exists EmptyString; reflexivity | split; reflexivity]).
    cbn [parse_space].
    destruct (isspace c) eqn:Ec.
    { destruct (IH s) as ((sk & Hsk) & H1 & H2); [lia|].
      split; [|split; assumption].
      exists (String c sk). simpl. now rewrite <- Hsk. }
    assert (Hstay : comment_start (String c s) = false ->
              (exists skipped, String c s = (skipped ++ String c s)%string) /\
              isspace (peek (String c s)) = false /\
              comment_start (String c s) = false).
    { intros Hcs. split; [exists EmptyString; reflexivity|].
      split; [exact Ec | exact Hcs]. }
    destruct (Ascii.eqb c SLASH) eqn:Esl;
      [|apply Hstay; destruct s; simpl; now rewrite ?Esl].
    destruct s as [|d s]; [apply Hstay; reflexivity|].
    destruct (Ascii.eqb d SLASH) eqn:Ed.
    { destruct (skip_line_suffix parse_space s) as (c0 & u & Hs & ->).
      assert (Hu : (String.length u <= n)%nat).
      { apply (f_equal String.length) in Hs. rewrite append_length in Hs.
        simpl in Hn. lia. }
      destruct (IH u Hu) as ((sk & Hsk) & H1 & H2).
      split; [|split; assumption].
      exists (String c (String d (c0 ++ sk))). simpl.
      rewrite append_assoc, <- Hsk. now rewrite <- Hs. }
    destruct (Ascii.eqb d STAR) eqn:Est.
    { destruct (skip_block_suffix parse_space s) as (c0 & u & Hs & ->).
      assert (Hu : (String.length u <= n)%nat).
      { apply (f_equal String.length) in Hs. rewrite append_length in Hs.
        simpl in Hn. lia. }
      destruct (IH u Hu) as ((sk & Hsk) & H1 & H2).
      split; [|split; assumption].
      exists (String c (String d (c0 ++ sk))). simpl.
      rewrite append_assoc, <- Hsk. now rewrite <- Hs. }
    apply Hstay. simpl. now rewrite Esl, Ed, Est. }
  apply (H (String.length s)). lia.
Qed.

(** The scanner stops on the first byte that is neither white space nor
    inside a comment: what it returns is the input without a skipped
    prefix, does not start with white space or with the opening of a
    comment, and is left where it is by a second call. *)
Theorem parse_space_reaches_token (s : string) :
  (exists skipped, s = (skipped ++ parse_space s)%string) /\
  isspace (peek (parse_space s)) = false /\
  comment_start (parse_space s) = false /\
  parse_space (parse_space s) = parse_space s.
Proof.
  destruct (parse_space_token s) as (H1 & H2 & H3).
  repeat split; try assumption. now apply parse_space_fixed.
Qed.

Lemma parse_space_all_space (ws s : string) :
  all_space ws = true -> parse_space (ws ++ s) = parse_space s.
Proof.
  induction ws as [|c ws IH]; [reflexivity|]. simpl.
  intros H. apply andb_prop in H as [-> H]. now apply IH.
Qed.

Lemma skip_line_text (k : string -> string) (c rest : string) :
  line_text c = true ->
  skip_line k (c ++ String LF rest) = k (String LF rest) /\
  skip_line k c = k EmptyString.
Proof.
  induction c as [|a c IH]; [intros _; split; reflexivity|].
  cbn [line_text]. intros H.
  apply andb_prop in H as [H Hc]. apply andb_prop in H as [Hlf Hnul].
  apply negb_true_iff in Hlf, Hnul.
  simpl. rewrite Hlf, Hnul. cbn [orb]. now apply IH.
Qed.

Lemma skip_block_text (k : string -> string) (c rest : string) :
  block_text c = true ->
  skip_block k (c ++ String STAR (String SLASH rest)) = k rest /\
  skip_block k c = k EmptyString.
Proof.
  induction c as [|a c IH]; [intros _; split; reflexivity|].
  cbn [block_text]. intros H.
  apply andb_prop in H as [H Hc]. apply andb_prop in H as [Hnul Hcl].
  apply negb_true_iff in Hnul, Hcl.
  destruct (IH Hc) as [IH1 IH2].
  change (String a c ++ String STAR (String SLASH rest))%string
    with (String a (c ++ String STAR (String SLASH rest))).
  cbn [skip_block]. rewrite Hnul.
  destruct (Ascii.eqb a STAR); [|split; [exact IH1 | exact IH2]].
  cbn [andb] in Hcl.
  destruct c as [|d c]; [split; [exact IH1 | exact IH2]|].
  cbn [peek] in Hcl.
  change (String d c ++ String STAR (String SLASH rest))%string
    with (String d (c ++ String STAR (String SLASH rest))) in *.
  cbv beta iota. rewrite Hcl. split; [exact IH1 | exact IH2].
Qed.

(** Comments count as white space.  A line comment runs to the end of its
    line, or of the input; a block comment runs through the first star
    directly followed by a slash, or to the end of the input when there is
    none (so the three bytes slash, star, slash open a comment that is
    never closed); a slash followed by anything else is left for the
    caller. *)
Theorem comments_are_skipped :
  (forall ws s, all_space ws = true -> parse_space (ws ++ s) = parse_space s) /\
  (forall c rest,
      line_text c = true ->
      parse_space ("//" ++ c ++ String LF rest) = parse_space rest) /\
  (forall c, line_text c = true -> parse_space ("//" ++ c) = "") /\
  (forall c rest,
      block_text c = true ->
      parse_space ("/*" ++ c ++ "*/" ++ rest) = parse_space rest) /\
  (forall c, block_text c = true -> parse_space ("/*" ++ c) = "") /\
  parse_space "/*/" = "" /\
  (forall d rest,
      d <> SLASH -> d <> STAR ->
      parse_space (String SLASH (String d rest)) = String SLASH (String d rest)) /\
  parse_space "/" = "/".
Proof.
  split; [exact parse_space_all_space|].
  split.
  { intros c rest Hc.
    change (parse_space ("//" ++ c ++ String LF rest))
      with (skip_line parse_space (c ++ String LF rest)).
    now rewrite (proj1 (skip_line_text parse_space c rest Hc)). }
  split.
  { intros c Hc.
    change (parse_space ("//" ++ c)) with (skip_line parse_space c).
    now rewrite (proj2 (skip_line_text parse_space c EmptyString Hc)). }
  split.
  { intros c rest Hc.
    change (parse_space ("/*" ++ c ++ "*/" ++ rest))
      with (skip_block parse_space (c ++ String STAR (String SLASH rest))).
    now rewrite (proj1 (skip_block_text parse_space c rest Hc)). }
  split.
  { intros c Hc.
    change (parse_space ("/*" ++ c)) with (skip_block parse_space c).
    now rewrite (proj2 (skip_block_text parse_space c EmptyString Hc)). }
  split; [reflexivity|].
  split; [|reflexivity].
  intros d rest Hd1 Hd2. cbn [parse_space].
  apply Ascii.eqb_neq in Hd1, Hd2. rewrite Hd1, Hd2. reflexivity.
Qed.

(** * Insertion and lookup *)

Lemma object_at_slot (obj : JYObject) (m : Z) (p : Pair) :
  0 <= m -> nth_error (pairs obj) (Z.to_nat m) = Some p ->
  object_at obj (Slot m) = Live (value p).
Proof.
  intros Hm Hp. simpl. unfold slot_of.
  destruct (Z.ltb_spec m 0); [lia|]. now rewrite Hp.
Qed.

(** The lookup on sorted pairs: the slot of the pair that has the key, or
    [NULL] when no pair has it. *)
Lemma jy_index_s_spec (obj : JYObject) (k : string) :
  sorted_keys (keys obj) ->
  (forall p, In p (pairs obj) -> key p = k ->
     exists m, 0 <= m /\ jy_index_s obj k = Slot m /\
               nth_error (pairs obj) (Z.to_nat m) = Some p) /\
  (~ In k (keys obj) -> jy_index_s obj k = NULL).
Proof.
  intros Hs. unfold keys in *.
  pose proof (key_search_whole (pairs obj) k Hs) as Hk.
  unfold jy_index_s, o_count.
  destruct (key_search (pairs obj) k 0
              (Z.of_N (N.of_nat (List.length (pairs obj))) - 1))
    as [m|l|]; [| |contradiction].
  - destruct Hk as [Hm Hkm]. split.
    + intros p Hp Hkey. exists m. split; [assumption|]. split; [reflexivity|].
      destruct (In_slot_key _ _ Hp) as (i & Hi & Hnth & Hki).
      rewrite Hkey in Hki.
      assert (i = m) by (eapply sorted_keys_slot_unique; eauto).
      now subst i.
    + intros Hnone. exfalso. apply Hnone.
      apply slot_key_spec in Hkm as [_ Hkm].
      eapply nth_error_In; eauto.
  - destruct Hk as (Hl & Hlo & Hhi). split; [|reflexivity].
    intros p Hp Hkey. exfalso.
    destruct (In_slot_key _ _ Hp) as (i & Hi & Hnth & Hki).
    rewrite Hkey in Hki. pose proof (strcmp_refl k).
    destruct (Z.lt_ge_cases i l) as [Hlt|Hge].
    + specialize (Hlo i _ (conj Hi Hlt) Hki). lia.
    + specialize (Hhi i _ Hge Hki). lia.
Qed.

Lemma jy_index_s_live (obj : JYObject) (p : Pair) :
  sorted_keys (keys obj) -> In p (pairs obj) ->
  object_at obj (jy_index_s obj (key p)) = Live (value p).
Proof.
  intros Hs Hp.
  destruct (jy_index_s_spec obj (key p) Hs) as [Hfound _].
  destruct (Hfound p Hp eq_refl) as (m & Hm & -> & Hnth).
  now apply object_at_slot.
Qed.

Lemma In_insert_at (ps : list Pair) (l : Z) (p x : Pair) :
  In x (insert_at ps l p) <-> x = p \/ In x ps.
Proof.
  unfold insert_at. rewrite in_app_iff. simpl.
  assert (H : In x ps <-> In x (firstn (Z.to_nat l) ps)
                          \/ In x (skipn (Z.to_nat l) ps)).
  { rewrite <- in_app_iff, firstn_skipn. tauto. }
  rewrite H. intuition congruence.
Qed.

Lemma length_insert_at (ps : list Pair) (l : Z) (p : Pair) :
  List.length (insert_at ps l p) = S (List.length ps).
Proof.
  unfold insert_at. rewrite length_app. simpl.
  pose proof (f_equal (@List.length Pair) (firstn_skipn (Z.to_nat l) ps)) as H.
  rewrite length_app in H. lia.
Qed.

Lemma In_keys (o : JYObject) (k : string) :
  In k (keys o) <-> exists p, In p (pairs o) /\ key p = k.
Proof.
  unfold keys. rewrite in_map_iff. split; intros (p & H1 & H2); eauto.
Qed.

(** The sorted insertion followed by lookups.  On an object with strictly
    increasing keys, a successful insertion adds one pair; the key was not
    found before and is found afterwards, with the value inserted; and the
    lookup of every other key reaches what it reached before. *)
Theorem insert_then_lookup (out out' : JYObject) (k : string) (val : JYValue) :
  sorted_keys (keys out) ->
  object_insert out k val = Some out' ->
  o_count out' = (o_count out + 1)%N /\
  jy_index_s out k = NULL /\
  object_at out' (jy_index_s out' k) = Live val /\
  (forall k', k' <> k ->
     object_at out' (jy_index_s out' k') = object_at out (jy_index_s out k')).
Proof.
  intros Hs Hins.
  pose proof (object_insert_spec out k val Hs) as Hspec.
  rewrite Hins in Hspec. destruct Hspec as (Hnew & Hs' & l & Hl & Hps).
  assert (Hin : forall x, In x (pairs out') <-> x = mkPair k val \/ In x (pairs out)).
  { intros x. rewrite Hps. apply In_insert_at. }
  split; [|split; [|split]].
  - unfold o_count. rewrite Hps, length_insert_at. lia.
  - now apply (jy_index_s_spec out k Hs).
  - apply (jy_index_s_live out' (mkPair k val) Hs'). apply Hin. now left.
  - intros k' Hne.
    destruct (in_dec string_dec k' (keys out)) as [Hk|Hk].
    + apply In_keys in Hk as (p & Hp & <-).
      rewrite (jy_index_s_live out p Hs Hp).
      apply (jy_index_s_live out' p Hs'). apply Hin. now right.
    + rewrite (proj2 (jy_index_s_spec out k' Hs) Hk).
      rewrite (proj2 (jy_index_s_spec out' k' Hs')); [reflexivity|].
      intros Hk'. apply In_keys in Hk' as (p & Hp & Hkey).
      apply Hin in Hp as [->|Hp]; [simpl in Hkey; congruence|].
      apply Hk. apply In_keys. eauto.
Qed.

(** An insertion into the object parsed from one pair. *)
Lemma insert_then_lookup_example :
  let out := mkObject [mkPair "b" VNull] 16%N in
  let out' := mkObject [mkPair "a" (VBool 1); mkPair "b" VNull] 16%N in
  (sorted_keys (keys out) /\
   object_insert out "a" (VBool 1) = Some out') /\
  o_count out' = (o_count out + 1)%N /\
  jy_index_s out "a" = NULL /\
  object_at out' (jy_index_s out' "a") = Live (VBool 1) /\
  (forall k', k' <> "a" ->
     object_at out' (jy_index_s out' k') = object_at out (jy_index_s out k')).
Proof.
  intros out out'.
  assert (Hs : sorted_keys (keys out)) by (apply sorted_keys_check; reflexivity).
  split; [split; [exact Hs | reflexivity]|].
  apply (insert_then_lookup out out' "a" (VBool 1) Hs). reflexivity.
Defined.

(** Every pair of an object the parser returns is found under its key,
    with its value; a key the object does not hold is answered with
    [NULL]; and the key that the lookup by index reports for a slot leads
    the lookup by key back to that slot. *)
Theorem parsed_pairs_are_found pv (s : string) (o : JYObject) (rest : string) :
  parse_object pv s = Ok o rest ->
  (forall p, In p (pairs o) ->
     object_at o (jy_index_s o (key p)) = Live (value p)) /\
  (forall k, ~ In k (keys o) -> jy_index_s o k = NULL) /\
  (forall i c, (i < o_count o)%N ->
     exists k, jy_index_i_obj o i c = (Slot (Z.of_N i), Live k) /\
               jy_index_s o k = Slot (Z.of_N i)).
Proof.
  intros Hp.
  assert (Hs : sorted_keys (keys o)).
  { apply (parse_object_inv pv (fun _ => True) (fun _ _ _ _ => I) _ _ _ Hp). }
  split; [|split].
  - intros p Hin. now apply jy_index_s_live.
  - intros k. apply (jy_index_s_spec o k Hs).
  - intros i c Hi.
    destruct (jy_index_i_obj_live o i c Hi) as (p & Hnth & ->).
    exists (key p). split; [reflexivity|].
    destruct (jy_index_s_spec o (key p) Hs) as [Hfound _].
    destruct (Hfound p (nth_error_In _ _ Hnth) eq_refl) as (m & Hm & -> & Hm').
    f_equal.
    assert (Hk1 : slot_key (pairs o) m = Some (key p)).
    { apply slot_key_spec. split; [assumption|].
      rewrite nth_error_map, Hm'. reflexivity. }
    assert (Hk2 : slot_key (pairs o) (Z.of_N i) = Some (key p)).
    { apply slot_key_spec. split; [lia|].
      replace (Z.to_nat (Z.of_N i)) with (N.to_nat i) by lia.
      rewrite nth_error_map, Hnth. reflexivity. }
    eapply sorted_keys_slot_unique; eauto.
Qed.

(** The object whose keys arrive as b, a. *)
Lemma parsed_pairs_are_found_example :
  let o := mkObject [mkPair "a" (VNumber Dbl.one);
                     mkPair "b" (VNumber Dbl.zero)] 16%N in
  parse_object (parse_value 1) input_b_a = Ok o "" /\
  (forall p, In p (pairs o) ->
     object_at o (jy_index_s o (key p)) = Live (value p)) /\
  (forall k, ~ In k (keys o) -> jy_index_s o k = NULL) /\
  (forall i c, (i < o_count o)%N ->
     exists k, jy_index_i_obj o i c = (Slot (Z.of_N i), Live k) /\
               jy_index_s o k = Slot (Z.of_N i)).
Proof.
  intros o. split; [reflexivity|].
  apply (parsed_pairs_are_found (parse_value 1) input_b_a o "").
  reflexivity.
Defined.

(** * What every parsed value satisfies *)

Lemma value_all_array (P : JYValue -> Prop) (a : JYArray) :
  value_all P (VArray a) <-> P (VArray a) /\ Forall (value_all P) (values a).
Proof.
  destruct a as [vs cap]. cbn [value_all values]. apply and_iff_compat_l.
  induction vs as [|x vs IH]; split; intros H; auto.
  - destruct H as [Hx H]. constructor; [assumption | now apply IH].
  - inversion H; subst. split; [assumption | now apply IH].
Qed.

Lemma value_all_object (P : JYValue -> Prop) (o : JYObject) :
  value_all P (VObject o) <->
  P (VObject o) /\ Forall (fun p => value_all P (value p)) (pairs o).
Proof.
  destruct o as [ps cap]. cbn [value_all pairs]. apply and_iff_compat_l.
  induction ps as [|x ps IH]; split; intros H; auto.
  - destruct H as [Hx H]. constructor; [assumption | now apply IH].
  - inversion H; subst. split; [assumption | now apply IH].
Qed.

Lemma value_all_here (P : JYValue -> Prop) (v : JYValue) :
  value_all P v -> P v.
Proof. destruct v; simpl; tauto. Qed.

(** Induction over a tree of values. *)
Lemma JYValue_tree_ind (P : JYValue -> Prop) :
  P VNull -> (forall b, P (VBool b)) -> (forall d, P (VNumber d)) ->
  (forall str, P (VString str)) ->
  (forall a, Forall P (values a) -> P (VArray a)) ->
  (forall o, Forall (fun p => P (value p)) (pairs o) -> P (VObject o)) ->
  forall v, P v.
Proof.
  intros Hnull Hbool Hnum Hstr Harr Hobj.
  fix IH 1. intros v. destruct v as [| b | d | str | [vs cap] | [ps cap]].
  - exact Hnull.
  - apply Hbool.
  - apply Hnum.
  - apply Hstr.
  - apply Harr. cbn [values].
    induction vs as [|x vs IHvs]; constructor; [apply IH | exact IHvs].
  - apply Hobj. cbn [pairs].
    induction ps as [|x ps IHps]; constructor; [apply IH | exact IHps].
Qed.

Lemma value_all_impl (P Q : JYValue -> Prop) :
  (forall v, P v -> Q v) -> forall v, value_all P v -> value_all Q v.
Proof.
  intros HPQ v. induction v using JYValue_tree_ind;
    try (simpl; intros [H0 _]; split; [now apply HPQ | exact I]).
  - rewrite !value_all_array. intros [Ha Hall]. split; [now apply HPQ|].
    rewrite Forall_forall in *. auto.
  - rewrite !value_all_object. intros [Ho Hall]. split; [now apply HPQ|].
    rewrite Forall_forall in *. auto.
Qed.

Lemma value_all_and (P Q : JYValue -> Prop) :
  forall v, value_all P v -> value_all Q v ->
            value_all (fun v => P v /\ Q v) v.
Proof.
  intros v. induction v using JYValue_tree_ind;
    try (simpl; intros [H0 _] [H1 _]; repeat split; assumption).
  - rewrite !value_all_array. intros [Ha Hall] [Ha' Hall'].
    split; [now split|]. rewrite Forall_forall in *. auto.
  - rewrite !value_all_object. intros [Ho Hall] [Ho' Hall'].
    split; [now split|]. rewrite Forall_forall in *. auto.
Qed.

(** A property that holds of whatever each recognizer returns holds all
    through the tree the dispatcher returns. *)
Lemma parse_value_all (Q : JYValue -> Prop) :
  Q VNull ->
  (forall s b r, parse_bool s = Some (b, r) -> Q (VBool b)) ->
  (forall s d r, parse_number s = Some (d, r) -> Q (VNumber d)) ->
  (forall s str r, parse_string s = Some (str, r) -> Q (VString str)) ->
  (forall pv s a r, parse_array pv s = Ok a r -> Q (VArray a)) ->
  (forall pv s o r, parse_object pv s = Ok o r -> Q (VObject o)) ->
  forall (fuel : nat) (s : string) (v : JYValue) (rest : string),
    parse_value fuel s = Ok v rest -> value_all Q v.
Proof.
  intros Hnull Hbool Hnum Hstr Harr Hobj.
  induction fuel as [|fuel IH]; intros s v rest; [discriminate|].
  rewrite parse_value_unfold.
  destruct (parse_null s); [intros [= <- _]; split; [assumption | exact I]|].
  destruct (parse_bool s) as [[b t]|] eqn:Eb;
    [intros [= <- _]; split; [eapply Hbool; eauto | exact I]|].
  destruct (parse_number s) as [[d t]|] eqn:En;
    [intros [= <- _]; split; [eapply Hnum; eauto | exact I]|].
  destruct (parse_string s) as [[str t]|] eqn:Es;
    [intros [= <- _]; split; [eapply Hstr; eauto | exact I]|].
  destruct (parse_array (parse_value fuel) s) as [a t| |] eqn:Ea;
    try discriminate.
  - intros [= <- _]. apply value_all_array. split; [eapply Harr; eauto|].
    apply (parse_array_inv _ _ IH _ _ _ Ea).
  - destruct (parse_object (parse_value fuel) s) as [o t| |] eqn:Eo;
      try discriminate.
    intros [= <- _]. apply value_all_object. split; [eapply Hobj; eauto|].
    apply (parse_object_inv _ _ IH _ _ _ Eo).
Qed.

Lemma parse_root_all (Q : JYValue -> Prop) :
  Q VNull ->
  (forall s b r, parse_bool s = Some (b, r) -> Q (VBool b)) ->
  (forall s d r, parse_number s = Some (d, r) -> Q (VNumber d)) ->
  (forall s str r, parse_string s = Some (str, r) -> Q (VString str)) ->
  (forall pv s a r, parse_array pv s = Ok a r -> Q (VArray a)) ->
  (forall pv s o r, parse_object pv s = Ok o r -> Q (VObject o)) ->
  forall (s : string) (doc : JYDocument),
    jy_parse s = Some doc -> value_all Q (VObject (root doc)).
Proof.
  intros Hnull Hbool Hnum Hstr Harr Hobj s doc. unfold jy_parse, parse_root.
  destruct (parse_object (parse_value (String.length s)) s)
    as [o rest| |] eqn:E; try discriminate.
  intros [= <-]. cbn [root]. apply value_all_object.
  split; [eapply Hobj; eauto|].
  apply (parse_object_inv _ _
           (parse_value_all Q Hnull Hbool Hnum Hstr Harr Hobj _) _ _ _ E).
Qed.

(** ** Capacities *)

Lemma grown_push (n : N) :
  (if N.eqb n (grown 16 n) then (grown 16 n + 16)%N else grown 16 n)
  = grown 16 (n + 1).
Proof.
  unfold grown.
  replace (n + 1 + 16 - 1)%N with (n + 16)%N by lia.
  replace (n + 16 - 1)%N with (n + 15)%N by lia.
  pose proof (N.div_mod' (n + 15) 16) as H1.
  pose proof (N.mod_lt (n + 15) 16 ltac:(discriminate)) as H2.
  pose proof (N.div_mod' (n + 16) 16) as H3.
  pose proof (N.mod_lt (n + 16) 16 ltac:(discriminate)) as H4.
  set (q := ((n + 15) / 16)%N) in *. set (r := ((n + 15) mod 16)%N) in *.
  set (q' := ((n + 16) / 16)%N) in *. set (r' := ((n + 16) mod 16)%N) in *.
  clearbody q r q' r'.
  destruct (N.eqb_spec n (16 * q)); lia.
Qed.

Lemma grown_bounds (n : N) :
  (n <= grown 16 n)%N /\ (grown 16 n < n + 16)%N /\
  (grown 16 n = 0 <-> n = 0)%N /\ (grown 16 n mod 16 = 0)%N.
Proof.
  unfold grown.
  replace (n + 16 - 1)%N with (n + 15)%N by lia.
  pose proof (N.div_mod' (n + 15) 16) as H1.
  pose proof (N.mod_lt (n + 15) 16 ltac:(discriminate)) as H2.
  split; [|split; [|split]].
  4: { rewrite N.mul_comm. apply N.Div0.mod_mul. }
  all: set (q := ((n + 15) / 16)%N) in *; set (r := ((n + 15) mod 16)%N) in *;
    clearbody q r; lia.
Qed.

Lemma array_push_capacity (out : JYArray) (res : JYValue) :
  a_capacity out = grown 16 (a_count out) ->
  a_capacity (array_push out res) = grown 16 (a_count (array_push out res)).
Proof.
  intros H. unfold array_push, a_count in *. cbn [values a_capacity].
  rewrite length_app. cbn [List.length].
  replace (N.of_nat (List.length (values out) + 1))
    with (N.of_nat (List.length (values out)) + 1)%N by lia.
  rewrite <- grown_push. rewrite H. reflexivity.
Qed.

Lemma parse_array_loop_capacity pv (n : nat) :
  forall (s : string) (out out' : JYArray) (s' : string),
    a_capacity out = grown 16 (a_count out) ->
    parse_array_loop pv n s out = Ok out' s' ->
    a_capacity out' = grown 16 (a_count out').
Proof.
  induction n as [|n IH]; intros s out out' s' Hout; simpl;
    destruct (Ascii.eqb (peek s) "]"); try discriminate;
    try (intros [= <- <-]; assumption).
  unfold parse_element.
  destruct (pv s) as [res s1| |]; try discriminate.
  pose proof (array_push_capacity out res Hout) as Hpush.
  destruct (Ascii.eqb (peek (parse_space s1)) ","); [now apply IH|].
  destruct (negb (Ascii.eqb (peek (parse_space s1)) "]")); [discriminate|].
  now apply IH.
Qed.

Lemma parse_array_capacity pv (s : string) (a : JYArray) (r : string) :
  parse_array pv s = Ok a r -> a_capacity a = grown 16 (a_count a).
Proof.
  unfold parse_array.
  destruct (negb (Ascii.eqb (peek s) "[")); try discriminate.
  destruct (Ascii.eqb (peek (parse_space (advance s))) NUL); try discriminate.
  apply parse_array_loop_capacity. reflexivity.
Qed.

Lemma object_insert_capacity (out out' : JYObject) (k : string) (val : JYValue) :
  o_capacity out = grown 16 (o_count out) ->
  object_insert out k val = Some out' ->
  o_capacity out' = grown 16 (o_count out') /\
  exists l, pairs out' = insert_at (pairs out) l (mkPair k val).
Proof.
  intros H. unfold object_insert.
  destruct (key_search (pairs out) k 0 (Z.of_N (o_count out) - 1)) as [m|l|];
    try discriminate.
  intros [= <-]. split; [|exists l; reflexivity].
  unfold o_count in *. cbn [pairs o_capacity].
  rewrite length_insert_at.
  replace (N.of_nat (S (List.length (pairs out))))
    with (N.of_nat (List.length (pairs out)) + 1)%N by lia.
  rewrite <- grown_push. rewrite H. reflexivity.
Qed.

(** The loop of [parse_object] keeps the capacity fitting, and a property
    of the keys that holds of whatever [parse_string] returns. *)
Lemma parse_object_loop_shape pv (K : string -> Prop) (n : nat) :
  (forall s k r, parse_string s = Some (k, r) -> K k) ->
  forall (s : string) (out out' : JYObject) (s' : string),
    o_capacity out = grown 16 (o_count out) /\
    Forall (fun p => K (key p)) (pairs out) ->
    parse_object_loop pv n s out = Ok out' s' ->
    o_capacity out' = grown 16 (o_count out') /\
    Forall (fun p => K (key p)) (pairs out').
Proof.
  intros HK.
  induction n as [|n IH]; intros s out out' s' Hout; simpl;
    destruct (Ascii.eqb (peek s) "}"); try discriminate;
    try (intros [= <- <-]; assumption).
  unfold parse_pair.
  destruct (parse_string s) as [[k s1]|] eqn:Ek; try discriminate.
  destruct (negb (Ascii.eqb (peek (parse_space s1)) ":")); try discriminate.
  destruct (pv (parse_space (advance (parse_space s1)))) as [val s2| |];
    try discriminate.
  destruct (object_insert out k val) as [out1|] eqn:Ei; try discriminate.
  destruct Hout as [Hcap Hkeys].
  destruct (object_insert_capacity _ _ _ _ Hcap Ei) as (Hcap1 & l & Hps).
  assert (Hout1 : o_capacity out1 = grown 16 (o_count out1) /\
                  Forall (fun p => K (key p)) (pairs out1)).
  { split; [assumption|]. rewrite Hps.
    apply Forall_insert_at; [assumption|]. simpl. eapply HK; eauto. }
  destruct (Ascii.eqb (peek (parse_space s2)) ","); [now apply IH|].
  destruct (negb (Ascii.eqb (peek (parse_space s2)) "}")); [discriminate|].
  now apply IH.
Qed.

Lemma parse_object_shape pv (K : string -> Prop) (s : string) (o : JYObject)
      (r : string) :
  (forall s k r, parse_string s = Some (k, r) -> K k) ->
  parse_object pv s = Ok o r ->
  o_capacity o = grown 16 (o_count o) /\
  Forall (fun p => K (key p)) (pairs o).
Proof.
  intros HK. unfold parse_object.
  destruct (negb (Ascii.eqb (peek s) "{")); try discriminate.
  destruct (Ascii.eqb (peek (parse_space (advance s))) NUL); try discriminate.
  apply parse_object_loop_shape; [assumption|].
  split; [reflexivity | constructor].
Qed.

Lemma parse_value_capacity (fuel : nat) (s : string) (v : JYValue)
      (rest : string) :
  parse_value fuel s = Ok v rest -> value_all capacity_fits v.
Proof.
  apply parse_value_all; try (intros; exact I).
  - intros pv s0 a r H. simpl. eapply parse_array_capacity; eauto.
  - intros pv s0 o r H. simpl.
    apply (parse_object_shape pv (fun _ => True) s0 o r (fun _ _ _ _ => I) H).
Qed.

(** The buffers of a parsed document fit their content.  All through the
    tree that [jy_parse] (or the value dispatcher) returns, the capacity of
    every array and object is the least multiple of 16 that holds its
    count: the count never exceeds the capacity, fewer than 16 slots are
    spare, and the capacity is 0 (the buffer pointer [NULL]) exactly when
    the container is empty. *)
Theorem parsed_capacities_fit :
  (forall s doc,
      jy_parse s = Some doc -> value_all capacity_fits (VObject (root doc))) /\
  (forall fuel s v rest,
      parse_value fuel s = Ok v rest -> value_all capacity_fits v) /\
  (forall pv s a rest,
      parse_array pv s = Ok a rest ->
      (a_count a <= a_capacity a)%N /\ (a_capacity a < a_count a + 16)%N /\
      (a_capacity a = 0 <-> a_count a = 0)%N) /\
  (forall pv s o rest,
      parse_object pv s = Ok o rest ->
      (o_count o <= o_capacity o)%N /\ (o_capacity o < o_count o + 16)%N /\
      (o_capacity o = 0 <-> o_count o = 0)%N) /\
  (forall n, grown 16 n = (16 * ((n + 15) / 16))%N).
Proof.
  split; [|split; [exact parse_value_capacity|split; [|split]]].
  - apply parse_root_all; try (intros; exact I).
    + intros pv s0 a r H. simpl. eapply parse_array_capacity; eauto.
    + intros pv s0 o r H. simpl.
      apply (parse_object_shape pv (fun _ => True) s0 o r (fun _ _ _ _ => I) H).
  - intros pv s a rest H. apply parse_array_capacity in H. rewrite H.
    pose proof (grown_bounds (a_count a)). tauto.
  - intros pv s o rest H.
    apply (parse_object_shape pv (fun _ => True) s o rest (fun _ _ _ _ => I)) in H.
    destruct H as [H _]. rewrite H.
    pose proof (grown_bounds (o_count o)). tauto.
  - intros n. unfold grown. do 2 f_equal. lia.
Qed.

(** ** Strings *)

Lemma no_nul_app (a b : string) :
  no_nul (a ++ b) = no_nul a && no_nul b.
Proof.
  induction a as [|c a IH]; [reflexivity|]. simpl. rewrite IH.
  now rewrite andb_assoc.
Qed.

Lemma escape_not_nul (e c : ascii) : escape e = Some c -> Ascii.eqb c NUL = false.
Proof.
  unfold escape.
  destruct (Ascii.eqb e "n"); [intros [= <-]; reflexivity|].
  destruct (Ascii.eqb e "r"); [intros [= <-]; reflexivity|].
  destruct (Ascii.eqb e "b"); [intros [= <-]; reflexivity|].
  destruct (Ascii.eqb e "f"); [intros [= <-]; reflexivity|].
  destruct (Ascii.eqb e "t"); [intros [= <-]; reflexivity|].
  destruct (Ascii.eqb e DQUOTE) eqn:E1;
    [apply Ascii.eqb_eq in E1; subst e; intros [= <-]; reflexivity|].
  destruct (Ascii.eqb e BACKSLASH) eqn:E2;
    [apply Ascii.eqb_eq in E2; subst e; intros [= <-]; reflexivity|].
  destruct (Ascii.eqb e SLASH) eqn:E3;
    [apply Ascii.eqb_eq in E3; subst e; intros [= <-]; reflexivity|].
  discriminate.
Qed.

Lemma parse_string_loop_no_nul (s : string) :
  forall (val : string) (cap : N) (val' : string) (cap' : N) (s' : string),
    no_nul val = true ->
    parse_string_loop s val cap = Some (val', cap', s') ->
    no_nul val' = true.
Proof.
  assert (H : forall n s, (String.length s <= n)%nat ->
    forall (val : string) (cap : N) (val' : string) (cap' : N) (s' : string),
      no_nul val = true ->
      parse_string_loop s val cap = Some (val', cap', s') ->
      no_nul val' = true).
  { clear s. induction n as [|n IH]; intros [|c s] Hn val cap val' cap' s' Hval;
      simpl in Hn; try lia; try discriminate.
    cbn [parse_string_loop].
    destruct (Ascii.eqb c DQUOTE); [intros [= <- _ _]; assumption|].
    destruct (Ascii.eqb c LF || Ascii.eqb c NUL) eqn:Ec; [discriminate|].
    apply orb_false_elim in Ec as [_ Enul].
    destruct (Ascii.eqb c BACKSLASH).
    - destruct s as [|e s]; [discriminate|].
      destruct (escape e) as [c'|] eqn:Ee; [|discriminate].
      unfold string_push. apply IH; [simpl in Hn; lia|].
      rewrite no_nul_app, Hval. simpl.
      now rewrite (escape_not_nul _ _ Ee).
    - unfold string_push. apply IH; [lia|].
      rewrite no_nul_app, Hval. simpl. now rewrite Enul. }
  apply (H (String.length s)). lia.
Qed.

Lemma parse_string_no_nul (s val rest : string) :
  parse_string s = Some (val, rest) -> no_nul val = true.
Proof.
  unfold parse_string.
  destruct (negb (Ascii.eqb (peek s) DQUOTE)); [discriminate|].
  destruct (parse_string_loop (advance s) "" 0) as [[[v cap] t]|] eqn:E;
    [|discriminate].
  intros [= <- _].
  apply (parse_string_loop_no_nul (advance s) "" 0%N v cap t eq_refl E).
Qed.

(** The strings of a parsed document are C strings as they stand.  No
    string that [parse_string] returns holds a NUL byte, so the terminator
    that ends its buffer is the first one; all through the tree that
    [jy_parse] returns this holds of every string value and of every
    key. *)
Theorem parsed_strings_hold_no_nul :
  (forall s val rest, parse_string s = Some (val, rest) -> no_nul val = true) /\
  (forall fuel s v rest,
      parse_value fuel s = Ok v rest -> value_all strings_hold_no_nul v) /\
  (forall s doc,
      jy_parse s = Some doc ->
      value_all strings_hold_no_nul (VObject (root doc))).
Proof.
  split; [exact parse_string_no_nul|]. split.
  - apply parse_value_all; try (intros; exact I).
    + intros s str r H. simpl. eapply parse_string_no_nul; eauto.
    + intros pv s o r H. simpl.
      apply (parse_object_shape pv (fun k => no_nul k = true) s o r
               parse_string_no_nul H).
  - apply parse_root_all; try (intros; exact I).
    + intros s str r H. simpl. eapply parse_string_no_nul; eauto.
    + intros pv s o r H. simpl.
      apply (parse_object_shape pv (fun k => no_nul k = true) s o r
               parse_string_no_nul H).
Qed.

(** * The first byte of a value *)

Lemma parse_bool_value (s r : string) (b : Z) :
  parse_bool s = Some (b, r) ->
  (peek s = "t"%char /\ b = 1) \/ (peek s = "f"%char /\ b = 0).
Proof.
  intros H. pose proof (parse_bool_first _ _ _ H) as Hf.
  unfold parse_bool in H.
  destruct (Ascii.eqb_spec (peek s) "t") as [E|E].
  - left. split; [assumption|].
    destruct (match_word "true" s); [|discriminate]. now injection H as <- _.
  - right. destruct Hf as [Hf|Hf]; [contradiction|]. split; [assumption|].
    destruct (match_word "false" s); [|discriminate]. now injection H as <- _.
Qed.

Lemma type_of_first_byte_digit (c : ascii) :
  is_digit c = true -> type_of_first_byte c = Some TYPE_NUMBER.
Proof.
  intros H. unfold type_of_first_byte.
  rewrite (is_digit_not c "n" H eq_refl), (is_digit_not c "t" H eq_refl),
    (is_digit_not c "f" H eq_refl), H.
  cbn [orb]. now rewrite orb_true_r.
Qed.

(** The first byte of the input decides the kind of value: whatever the
    dispatcher returns carries the tag that the byte under the cursor
    announces (n for null, t or f for a boolean, a minus or a digit for a
    number, a quote for a string, an opening bracket for an array, an
    opening brace for an object), a boolean is 1 after t and 0 after f, and
    on any other first byte, the end of the input included, the dispatcher
    fails. *)
Theorem value_type_by_first_byte :
  (forall fuel s v rest,
      parse_value fuel s = Ok v rest ->
      type_of_first_byte (peek s) = Some (type_of v)) /\
  (forall fuel s b rest,
      parse_value fuel s = Ok (VBool b) rest ->
      (peek s = "t"%char /\ b = 1) \/ (peek s = "f"%char /\ b = 0)) /\
  (forall fuel s,
      type_of_first_byte (peek s) = None -> parse_value (S fuel) s = Fail) /\
  (forall fuel, parse_value (S fuel) "" = Fail).
Proof.
  split; [|split; [|split]].
  - intros [|fuel] s v rest; [discriminate|]. rewrite parse_value_unfold.
    destruct (parse_null s) eqn:E1.
    { intros [= <- _]. apply parse_null_first in E1. now rewrite E1. }
    destruct (parse_bool s) as [[b t]|] eqn:E2.
    { intros [= <- _]. apply parse_bool_first in E2 as [E|E]; now rewrite E. }
    destruct (parse_number s) as [[d t]|] eqn:E3.
    { intros [= <- _]. apply parse_number_first in E3 as [E|E];
        [now rewrite E | now apply type_of_first_byte_digit]. }
    destruct (parse_string s) as [[str t]|] eqn:E4.
    { intros [= <- _]. apply parse_string_starts_quoted in E4.
      apply Ascii.eqb_eq in E4. now rewrite E4. }
    destruct (Ascii.eqb_spec (peek s) "[") as [E|Ea].
    { destruct (parse_array (parse_value fuel) s) as [a t| |] eqn:E5;
        try discriminate.
      - intros [= <- _]. now rewrite E.
      - rewrite parse_object_first by now rewrite E. discriminate. }
    rewrite parse_array_first by now apply Ascii.eqb_neq.
    destruct (Ascii.eqb_spec (peek s) "{") as [E|Eo].
    { destruct (parse_object (parse_value fuel) s) as [o t| |] eqn:E6;
        try discriminate.
      intros [= <- _]. now rewrite E. }
    rewrite parse_object_first by now apply Ascii.eqb_neq.
    discriminate.
  - intros [|fuel] s b rest; [discriminate|]. rewrite parse_value_unfold.
    destruct (parse_null s); [discriminate|].
    destruct (parse_bool s) as [[b' t]|] eqn:E2.
    { intros [= <- _]. eapply parse_bool_value; eauto. }
    destruct (parse_number s) as [[d t]|]; [discriminate|].
    destruct (parse_string s) as [[str t]|]; [discriminate|].
    destruct (parse_array (parse_value fuel) s) as [a t| |]; try discriminate.
    destruct (parse_object (parse_value fuel) s) as [o t| |]; discriminate.
  - intros fuel s. unfold type_of_first_byte.
    destruct (Ascii.eqb (peek s) "n") eqn:E1; [discriminate|].
    destruct (Ascii.eqb (peek s) "t") eqn:E2; [discriminate|].
    destruct (Ascii.eqb (peek s) "f") eqn:E3; [discriminate|].
    destruct (Ascii.eqb (peek s) "-") eqn:E4; [discriminate|].
    destruct (is_digit (peek s)) eqn:E5; [discriminate|].
    destruct (Ascii.eqb (peek s) DQUOTE) eqn:E6; [discriminate|].
    destruct (Ascii.eqb (peek s) "[") eqn:E7; [discriminate|].
    destruct (Ascii.eqb (peek s) "{") eqn:E8; [discriminate|].
    intros _. rewrite parse_value_unfold.
    rewrite parse_null_start, parse_bool_start, parse_number_start,
      parse_string_start, parse_array_first, parse_object_first; auto.
  - intros fuel. reflexivity.
Qed.

(** * Printing and parsing back *)

(** ** Strings *)

Lemma parse_string_loop_print_byte (c : ascii) (t val : string) (cap : N) :
  Ascii.eqb c NUL = false ->
  exists cap',
    parse_string_loop (print_byte c ++ t) val cap
    = parse_string_loop t (val ++ String c "") cap'.
Proof.
  intros Hnul. unfold print_byte.
  destruct (Ascii.eqb_spec c DQUOTE) as [->|H1];
    [eexists; cbn; unfold string_push; reflexivity|].
  destruct (Ascii.eqb_spec c BACKSLASH) as [->|H2];
    [eexists; cbn; unfold string_push; reflexivity|].
  cbn [orb].
  destruct (Ascii.eqb_spec c LF) as [->|H3];
    [eexists; cbn; unfold string_push; reflexivity|].
  destruct (Ascii.eqb_spec c CR) as [->|H4];
    [eexists; cbn; unfold string_push; reflexivity|].
  destruct (Ascii.eqb_spec c BS) as [->|H5];
    [eexists; cbn; unfold string_push; reflexivity|].
  destruct (Ascii.eqb_spec c FF) as [->|H6];
    [eexists; cbn; unfold string_push; reflexivity|].
  destruct (Ascii.eqb_spec c TAB) as [->|H7];
    [eexists; cbn; unfold string_push; reflexivity|].
  apply Ascii.eqb_neq in H1, H2, H3.
  eexists. cbn [append parse_string_loop].
  rewrite H1, H3, Hnul, H2. cbn [orb]. unfold string_push. reflexivity.
Qed.

Lemma parse_string_loop_printed (str : string) :
  no_nul str = true ->
  forall (t val : string) (cap : N),
  exists cap',
    parse_string_loop (print_string_loop str ++ t) val cap
    = parse_string_loop t (val ++ str) cap'.
Proof.
  induction str as [|c str IH]; intros Hstr t val cap.
  - exists cap. simpl. now rewrite append_empty_r.
  - cbn [no_nul] in Hstr. apply andb_prop in Hstr as [Hc Hstr].
    apply negb_true_iff in Hc.
    cbn [print_string_loop]. rewrite Hc, append_assoc.
    destruct (parse_string_loop_print_byte c (print_string_loop str ++ t)
                val cap Hc) as [cap1 ->].
    destruct (IH Hstr t (val ++ String c "")%string cap1) as [cap2 ->].
    exists cap2. now rewrite append_assoc.
Qed.

Lemma parse_string_printed (str rest : string) :
  no_nul str = true ->
  parse_string (print_string str ++ rest) = Some (str, rest).
Proof.
  intros Hstr. unfold print_string. rewrite !append_assoc.
  rewrite parse_string_quoted.
  destruct (parse_string_loop_printed str Hstr (q ++ rest) "" 0%N) as [cap ->].
  reflexivity.
Qed.

Lemma print_string_loop_stops (a b : string) :
  no_nul a = true ->
  print_string_loop (a ++ String NUL b) = print_string_loop a.
Proof.
  induction a as [|c a IH]; [reflexivity|].
  cbn [no_nul]. intros H. apply andb_prop in H as [Hc Ha].
  apply negb_true_iff in Hc. simpl. rewrite Hc. now rewrite IH.
Qed.

(** What [print_string] writes for a string is read back by
    [parse_string] as that string, whatever follows the closing quote: the
    quote, the backslash and the five controls that have an escape letter
    come back from their escapes, and every other byte stands for itself.  A
    NUL byte ends the string for the printer. *)
Theorem printed_string_parses_back (str rest : string) :
  no_nul str = true ->
  parse_string (print_string str ++ rest) = Some (str, rest) /\
  (forall tail, print_string (str ++ String NUL tail) = print_string str).
Proof.
  intros Hstr. split; [now apply parse_string_printed|].
  intros tail. unfold print_string. now rewrite print_string_loop_stops.
Qed.

(** A string with a quote, a backslash, a newline, a tab and a slash. *)
Lemma printed_string_parses_back_example :
  let str := String DQUOTE (String BACKSLASH (String LF (String TAB "/x"))) in
  no_nul str = true /\
  print_string str
  = String DQUOTE
      (String BACKSLASH (String DQUOTE
        (String BACKSLASH (String BACKSLASH
          (String BACKSLASH (String "n"
            (String BACKSLASH (String "t" ("/x" ++ q))))))))) /\
  parse_string (print_string str ++ ",") = Some (str, ",") /\
  (forall tail, print_string (str ++ String NUL tail) = print_string str).
Proof.
  intros str. split; [reflexivity|]. split; [reflexivity|].
  apply (printed_string_parses_back str ","). reflexivity.
Defined.

(** ** Values *)

Lemma parse_value_ge (f0 f : nat) (s : string) (v : JYValue) (r : string) :
  parse_value f0 s = Ok v r -> (f0 <= f)%nat -> parse_value f s = Ok v r.
Proof.
  intros H Hf. replace f with ((f - f0) + f0)%nat by lia.
  rewrite parse_value_more; [assumption | congruence].
Qed.

(** What the first byte of a value is not. *)
Lemma value_start_facts (c : ascii) (ty : Type_) :
  type_of_first_byte c = Some ty ->
  isspace c = false /\ Ascii.eqb c SLASH = false /\
  Ascii.eqb c "]" = false /\ Ascii.eqb c "}" = false /\
  Ascii.eqb c NUL = false.
Proof.
  unfold type_of_first_byte.
  destruct (Ascii.eqb_spec c "n") as [->|_]; [intros _; repeat split|].
  destruct (Ascii.eqb_spec c "t") as [->|_]; [intros _; repeat split|].
  destruct (Ascii.eqb_spec c "f") as [->|_]; [intros _; repeat split|].
  destruct (Ascii.eqb_spec c "-") as [->|_]; [intros _; repeat split|].
  cbn [orb].
  destruct (is_digit c) eqn:Ed.
  { intros _. repeat split; try (now apply is_digit_not).
    unfold is_digit, isspace in *.
    apply andb_prop in Ed as [H1 H2]. apply Z.leb_le in H1, H2.
    apply orb_false_intro; [apply Z.eqb_neq; lia|].
    apply andb_false_intro2. apply Z.leb_gt. lia. }
  destruct (Ascii.eqb_spec c DQUOTE) as [->|_]; [intros _; repeat split|].
  destruct (Ascii.eqb_spec c "[") as [->|_]; [intros _; repeat split|].
  destruct (Ascii.eqb_spec c "{") as [->|_]; [intros _; repeat split|].
  discriminate.
Qed.

Lemma parse_space_value_start (s : string) (ty : Type_) :
  type_of_first_byte (peek s) = Some ty -> parse_space s = s.
Proof.
  intros H. apply value_start_facts in H as (H1 & H2 & _).
  apply parse_space_fixed; [assumption|].
  destruct s as [|c [|d s]]; try reflexivity.
  cbn [peek] in H2. cbn [comment_start]. now rewrite H2.
Qed.

(** One turn of the loops, by the byte that follows the value. *)
Lemma parse_element_comma pv (s : string) (out : JYArray) (v : JYValue)
      (t : string) :
  pv s = Ok v (String "," t) ->
  parse_element pv s out = Ok (array_push out v) (parse_space t).
Proof. intros H. unfold parse_element. rewrite H. reflexivity. Qed.

Lemma parse_element_close pv (s : string) (out : JYArray) (v : JYValue)
      (t : string) :
  pv s = Ok v (String "]" t) ->
  parse_element pv s out = Ok (array_push out v) (String "]" t).
Proof. intros H. unfold parse_element. rewrite H. reflexivity. Qed.

Lemma parse_array_loop_close pv (n : nat) (out : JYArray) (t : string) :
  parse_array_loop pv n (String "]" t) out = Ok out t.
Proof. destruct n; reflexivity. Qed.

Lemma parse_pair_comma pv (s : string) (out out1 : JYObject) (k : string)
      (v : JYValue) (t1 t2 : string) :
  parse_string s = Some (k, String ":" t1) ->
  pv (parse_space t1) = Ok v (String "," t2) ->
  object_insert out k v = Some out1 ->
  parse_pair pv s out = Ok out1 (parse_space t2).
Proof.
  intros Hk Hv Hi. unfold parse_pair. rewrite Hk.
  change (parse_space (String ":" t1)) with (String ":" t1).
  cbn [peek advance]. change (Ascii.eqb ":" ":") with true. cbn [negb].
  rewrite Hv, Hi. reflexivity.
Qed.

Lemma parse_pair_close pv (s : string) (out out1 : JYObject) (k : string)
      (v : JYValue) (t1 t2 : string) :
  parse_string s = Some (k, String ":" t1) ->
  pv (parse_space t1) = Ok v (String "}" t2) ->
  object_insert out k v = Some out1 ->
  parse_pair pv s out = Ok out1 (String "}" t2).
Proof.
  intros Hk Hv Hi. unfold parse_pair. rewrite Hk.
  change (parse_space (String ":" t1)) with (String ":" t1).
  cbn [peek advance]. change (Ascii.eqb ":" ":") with true. cbn [negb].
  rewrite Hv, Hi. reflexivity.
Qed.

Lemma parse_object_loop_close pv (n : nat) (out : JYObject) (t : string) :
  parse_object_loop pv n (String "}" t) out = Ok out t.
Proof. destruct n; reflexivity. Qed.

Lemma sorted_keys_app_l (a b : list string) :
  sorted_keys (a ++ b)%list -> sorted_keys a.
Proof.
  intros H i k k' Hi Hj. apply (H i).
  - rewrite nth_error_app1; [assumption|].
    apply nth_error_Some. congruence.
  - rewrite nth_error_app1; [assumption|].
    apply nth_error_Some. congruence.
Qed.

(** A key above all the keys of an object goes into the slot after the
    last one. *)
Lemma object_insert_last (out : JYObject) (k : string) (v : JYValue) :
  o_capacity out = grown 16 (o_count out) ->
  sorted_keys (keys out ++ [k])%list ->
  object_insert out k v
  = Some (mkObject (pairs out ++ [mkPair k v]) (grown 16 (o_count out + 1))).
Proof.
  intros Hcap Hs.
  assert (Hout : sorted_keys (keys out)) by (eapply sorted_keys_app_l; eauto).
  assert (Hlt : forall i ki, slot_key (pairs out) i = Some ki -> strcmp ki k < 0).
  { intros i ki Hi. apply slot_key_spec in Hi as [Hi0 Hi].
    assert (Hlen : (Z.to_nat i < List.length (keys out))%nat).
    { apply nth_error_Some. unfold keys. congruence. }
    apply (sorted_keys_pairwise _ Hs (Z.to_nat i) (List.length (keys out)));
      [assumption | |].
    - rewrite nth_error_app1; assumption.
    - rewrite nth_error_app2, Nat.sub_diag; [reflexivity | lia]. }
  pose proof (key_search_whole (pairs out) k Hout) as Hk.
  unfold object_insert, o_count in *.
  destruct (key_search (pairs out) k 0
              (Z.of_N (N.of_nat (List.length (pairs out))) - 1))
    as [m|l|]; [| |contradiction].
  - destruct Hk as [_ Hk]. apply Hlt in Hk. now apply strcmp_irrefl in Hk.
  - destruct Hk as (Hl & _ & Hhi).
    assert (l = Z.of_nat (List.length (pairs out))).
    { destruct (Z.eq_dec l (Z.of_nat (List.length (pairs out)))) as [E|E];
        [assumption|].
      destruct (slot_key_in_bounds (pairs out) l) as [kl Hkl]; [lia|].
      pose proof (Hhi l kl (Z.le_refl l) Hkl) as H1.
      pose proof (Hlt l kl Hkl) as H2.
      rewrite strcmp_flip in H2. lia. }
    subst l. f_equal. unfold insert_at. rewrite Nat2Z.id.
    rewrite firstn_all, skipn_all. rewrite <- grown_push, <- Hcap.
    reflexivity.
Qed.

Lemma peek_print_string (k t : string) : peek (print_string k ++ t) = DQUOTE.
Proof. reflexivity. Qed.

Lemma Forall_fuel {A : Type} (Q : A -> nat -> Prop) (l : list A) :
  Forall (fun x => exists f0, forall f, (f0 <= f)%nat -> Q x f) l ->
  exists f0, forall f, (f0 <= f)%nat -> Forall (fun x => Q x f) l.
Proof.
  induction 1 as [|x l [fx Hx] _ [fl Hl]].
  - exists 0%nat. constructor.
  - exists (Nat.max fx fl). intros f Hf. constructor.
    + apply Hx. lia.
    + apply Hl. lia.
Qed.

Section Reparse.

Variable printf_f : double -> string.

Lemma print_value_first (v : JYValue) (t : string) :
  reprintable v ->
  type_of_first_byte (peek (print_value printf_f v ++ t)) = Some (type_of v).
Proof.
  destruct v as [| b | d | str | a | o]; cbn [reprintable];
    try reflexivity; try contradiction.
  intros [->| ->]; reflexivity.
Qed.

(** The loop of [parse_array] on the text that the loop of [print_array]
    wrote for the slots [i .. count), followed by the closing bracket. *)
Lemma parse_array_loop_printed pv (vs : list JYValue) :
  Forall (fun v => forall rest, pv (print_value printf_f v ++ rest) = Ok v rest)
         vs ->
  Forall reprintable vs ->
  forall (count i : N) (out : JYArray) (n : nat) (rest : string),
    a_capacity out = grown 16 (a_count out) -> a_count out = i ->
    count = (i + N.of_nat (List.length vs))%N ->
    (List.length vs <= n)%nat ->
    parse_array_loop pv n
      (print_array_loop (print_value printf_f) count vs i ++ String "]" rest)
      out
    = Ok (mkArray (values out ++ vs) (grown 16 count)) rest.
Proof.
  induction vs as [|v vs IH];
    intros Hpv Hre count i out n rest Hcap Hi Hcount Hn.
  - cbn [print_array_loop append]. rewrite parse_array_loop_close.
    assert (Hc : count = a_count out) by (cbn [List.length] in Hcount; lia).
    rewrite Hc, <- Hcap, app_nil_r. now destruct out.
  - inversion Hpv as [|? ? Hv Hvs]; subst.
    inversion Hre as [|? ? Hrv Hrvs]; subst.
    destruct n as [|n]; [cbn [List.length] in Hn; lia|].
    cbn [print_array_loop]. rewrite !append_assoc.
    cbn [parse_array_loop].
    match goal with
    | |- context [peek (print_value printf_f v ++ ?t)] =>
        pose proof (print_value_first v t Hrv) as Hfirst
    end.
    destruct (value_start_facts _ _ Hfirst) as (_ & _ & Hb & _).
    rewrite Hb.
    assert (Hcap1 := array_push_capacity out v Hcap).
    assert (Hcount1 : a_count (array_push out v) = (a_count out + 1)%N).
    { unfold array_push, a_count. cbn [values]. rewrite length_app.
      cbn [List.length]. lia. }
    assert (Hvals : forall l, (values (array_push out v) ++ l = values out ++ v :: l)%list).
    { intros l. unfold array_push. cbn [values]. now rewrite <- app_assoc. }
    destruct vs as [|x vs].
    + replace (a_count out =? a_count out + N.of_nat (List.length [v]) - 1)%N
        with true by (symmetry; apply N.eqb_eq; cbn [List.length]; lia).
      cbn [negb print_array_loop append].
      rewrite (parse_element_close pv _ out v rest (Hv _)).
      rewrite parse_array_loop_close.
      replace (a_count out + N.of_nat (List.length [v]))%N
        with (a_count (array_push out v)) by (cbn [List.length]; lia).
      rewrite <- Hcap1. reflexivity.
    + replace (a_count out =? a_count out + N.of_nat (List.length (v :: x :: vs)) - 1)%N
        with false by (symmetry; apply N.eqb_neq; cbn [List.length]; lia).
      cbn [negb append].
      rewrite (parse_element_comma pv _ out v _ (Hv _)).
      inversion Hrvs as [|? ? Hrx _]; subst.
      match goal with
      | |- context [parse_space ?t] =>
          replace (parse_space t) with t
            by (symmetry; cbn [print_array_loop]; rewrite !append_assoc;
                exact (parse_space_value_start _ _ (print_value_first x _ Hrx)))
      end.
      rewrite (IH Hvs Hrvs
                 (a_count out + N.of_nat (List.length (v :: x :: vs)))%N
                 (a_count out + 1)%N (array_push out v) n rest Hcap1 Hcount1);
        [|cbn [List.length] in *; lia | cbn [List.length] in *; lia].
      now rewrite Hvals.
Qed.

(** The loop of [parse_object] on the text that the loop of [print_object]
    wrote for the slots [i .. count), followed by the closing brace. *)
Lemma parse_object_loop_printed pv (ps : list Pair) :
  Forall (fun p => forall rest,
            pv (print_value printf_f (value p) ++ rest) = Ok (value p) rest)
         ps ->
  Forall (fun p => reprintable (value p)) ps ->
  Forall (fun p => no_nul (key p) = true) ps ->
  forall (count i : N) (out : JYObject) (n : nat) (rest : string),
    o_capacity out = grown 16 (o_count out) -> o_count out = i ->
    count = (i + N.of_nat (List.length ps))%N ->
    sorted_keys (keys out ++ map key ps)%list ->
    (List.length ps <= n)%nat ->
    parse_object_loop pv n
      (print_object_loop (print_value printf_f) count ps i ++ String "}" rest)
      out
    = Ok (mkObject (pairs out ++ ps) (grown 16 count)) rest.
Proof.
  induction ps as [|p ps IH];
    intros Hpv Hre Hkeys count i out n rest Hcap Hi Hcount Hs Hn.
  - cbn [print_object_loop append]. rewrite parse_object_loop_close.
    assert (Hc : count = o_count out) by (cbn [List.length] in Hcount; lia).
    rewrite Hc, <- Hcap, app_nil_r. now destruct out.
  - inversion Hpv as [|? ? Hv Hvs]; subst.
    inversion Hre as [|? ? Hrv Hrvs]; subst.
    inversion Hkeys as [|? ? Hk Hks]; subst.
    destruct n as [|n]; [cbn [List.length] in Hn; lia|].
    cbn [print_object_loop]. rewrite !append_assoc.
    cbn [parse_object_loop].
    rewrite peek_print_string. change (Ascii.eqb DQUOTE "}") with false.
    cbv iota.
    assert (Hs1 : sorted_keys (keys out ++ [key p])%list).
    { apply sorted_keys_app_l with (map key ps).
      rewrite <- app_assoc. exact Hs. }
    pose proof (object_insert_last out (key p) (value p) Hcap Hs1) as Hins.
    replace (mkPair (key p) (value p)) with p in Hins by now destruct p.
    set (out1 := mkObject (pairs out ++ [p]) (grown 16 (o_count out + 1))) in *.
    assert (Hcount1 : o_count out1 = (o_count out + 1)%N).
    { unfold out1, o_count. cbn [pairs]. rewrite length_app.
      cbn [List.length]. lia. }
    assert (Hcap1 : o_capacity out1 = grown 16 (o_count out1)).
    { now rewrite Hcount1. }
    change (":" ++ ?t)%string with (String ":" t).
    destruct ps as [|x ps].
    + replace (o_count out =? o_count out + N.of_nat (List.length [p]) - 1)%N
        with true by (symmetry; apply N.eqb_eq; cbn [List.length]; lia).
      cbn [negb print_object_loop append].
      rewrite (parse_pair_close pv _ out out1 (key p) (value p)
                 (print_value printf_f (value p) ++ String "}" rest) rest);
        [| apply parse_string_printed; assumption
         | rewrite (parse_space_value_start _ _ (print_value_first _ _ Hrv));
           apply Hv
         | exact Hins].
      rewrite parse_object_loop_close.
      replace (o_count out + N.of_nat (List.length [p]))%N
        with (o_count out + 1)%N by (cbn [List.length]; lia).
      reflexivity.
    + replace (o_count out =? o_count out + N.of_nat (List.length (p :: x :: ps)) - 1)%N
        with false by (symmetry; apply N.eqb_neq; cbn [List.length]; lia).
      cbn [negb append].
      match goal with
      | |- context [print_value printf_f (value p) ++ String "," ?t] =>
          rewrite (parse_pair_comma pv _ out out1 (key p) (value p)
                     (print_value printf_f (value p) ++ String "," t) t);
            [| apply parse_string_printed; assumption
             | rewrite (parse_space_value_start _ _
                          (print_value_first _ _ Hrv));
               apply Hv
             | exact Hins]
      end.
      inversion Hks as [|? ? Hkx _]; subst.
      match goal with
      | |- context [parse_space ?t] =>
          replace (parse_space t) with t by reflexivity
      end.
      rewrite (IH Hvs Hrvs Hks
                 (o_count out + N.of_nat (List.length (p :: x :: ps)))%N
                 (o_count out + 1)%N out1 n rest Hcap1 Hcount1);
        [| cbn [List.length] in *; lia
         | unfold out1, keys; cbn [pairs]; rewrite map_app, <- app_assoc;
           exact Hs
         | cbn [List.length] in *; lia].
      unfold out1. cbn [pairs]. now rewrite <- app_assoc.
Qed.

(** Every turn of the printing loops writes at least one byte before the
    closing bracket, so the text is at least as long as the loop has
    turns. *)
Lemma print_array_loop_length pv (vs : list JYValue) :
  forall (count i : N) (rest : string),
    count = (i + N.of_nat (List.length vs))%N ->
    (List.length vs
     <= String.length (print_array_loop pv count vs i ++ String "]" rest))%nat.
Proof.
  induction vs as [|v vs IH]; intros count i rest Hc; [simpl; lia|].
  cbn [print_array_loop]. rewrite !append_assoc, append_length.
  destruct vs as [|x vs].
  - rewrite append_length. cbn [print_array_loop append]. simpl. lia.
  - replace (i =? count - 1)%N with false
      by (symmetry; apply N.eqb_neq; cbn [List.length] in Hc; lia).
    cbn [negb append String.length].
    specialize (IH count (i + 1)%N rest). cbn [List.length] in *.
    assert (count = (i + 1 + N.of_nat (S (List.length vs)))%N) by lia.
    apply IH in H. lia.
Qed.

Lemma print_object_loop_length pv (ps : list Pair) :
  forall (count i : N) (rest : string),
    count = (i + N.of_nat (List.length ps))%N ->
    (List.length ps
     <= String.length (print_object_loop pv count ps i ++ String "}" rest))%nat.
Proof.
  induction ps as [|p ps IH]; intros count i rest Hc; [simpl; lia|].
  cbn [print_object_loop]. rewrite !append_assoc.
  rewrite append_length. change (":" ++ ?t)%string with (String ":" t).
  cbn [String.length]. rewrite append_length.
  destruct ps as [|x ps].
  - rewrite append_length. cbn [print_object_loop append]. simpl. lia.
  - replace (i =? count - 1)%N with false
      by (symmetry; apply N.eqb_neq; cbn [List.length] in Hc; lia).
    cbn [negb append String.length].
    specialize (IH count (i + 1)%N rest). cbn [List.length] in *.
    assert (count = (i + 1 + N.of_nat (S (List.length ps)))%N) by lia.
    apply IH in H. lia.
Qed.

(** With enough nesting budget, the dispatcher reads a printed value back,
    whatever follows it. *)
Lemma print_value_parses (v : JYValue) :
  value_all reprintable v ->
  exists f0, forall f, (f0 <= f)%nat ->
    forall rest, parse_value f (print_value printf_f v ++ rest) = Ok v rest.
Proof.
  induction v as [| b | d | str | a IH | o IH] using JYValue_tree_ind;
    intros Hv.
  - exists 1%nat. intros [|f] Hf rest; [lia | reflexivity].
  - exists 1%nat. intros [|f] Hf rest; [lia|].
    apply value_all_here in Hv. destruct Hv as [-> | ->]; reflexivity.
  - apply value_all_here in Hv. contradiction.
  - exists 1%nat. intros [|f] Hf rest; [lia|].
    apply value_all_here in Hv. cbn [reprintable] in Hv.
    rewrite parse_value_unfold. cbn [print_value].
    rewrite parse_null_start, parse_bool_start, parse_number_start by reflexivity.
    now rewrite parse_string_printed.
  - apply value_all_array in Hv as [Hcap Hall]. cbn [reprintable] in Hcap.
    unfold JAYCEON_ARRAY_GROWTH in Hcap.
    assert (Hre : Forall reprintable (values a)).
    { revert Hall. apply Forall_impl. apply value_all_here. }
    assert (Hex : Forall (fun v => exists f0, forall f, (f0 <= f)%nat ->
                    forall rest,
                      parse_value f (print_value printf_f v ++ rest) = Ok v rest)
                   (values a)).
    { rewrite Forall_forall in *. auto. }
    apply Forall_fuel in Hex as [f0 Hf0].
    exists (S f0). intros [|f] Hf rest; [lia|].
    specialize (Hf0 f ltac:(lia)).
    rewrite parse_value_unfold. cbn [print_value]. unfold print_array.
    rewrite !append_assoc. change ("[" ++ ?t)%string with (String "[" t).
    rewrite parse_null_start, parse_bool_start, parse_number_start,
      parse_string_start by reflexivity.
    unfold parse_array. cbn [peek advance].
    change (Ascii.eqb "[" "[") with true. cbn [negb].
    change ("]" ++ rest)%string with (String "]" rest).
    set (text := (print_array_loop (print_value printf_f) (a_count a)
                    (values a) 0 ++ String "]" rest)%string).
    assert (Hsp : parse_space text = text /\ Ascii.eqb (peek text) NUL = false).
    { unfold text. destruct (values a) as [|x vs] eqn:Ea;
        [split; reflexivity|].
      inversion Hre as [|? ? Hx _]; subst.
      cbn [print_array_loop]. rewrite !append_assoc.
      pose proof (print_value_first x
        ((if negb (0 =? a_count a - 1)%N then "," else "") ++
         print_array_loop (print_value printf_f) (a_count a) vs (0 + 1) ++
         String "]" rest) Hx) as Hfirst.
      split; [eapply parse_space_value_start; eauto|].
      now apply value_start_facts in Hfirst. }
    destruct Hsp as [-> ->].
    unfold text.
    rewrite (parse_array_loop_printed (parse_value f) (values a) Hf0 Hre
               (a_count a) 0%N (mkArray [] 0) _ rest eq_refl eq_refl);
      [| unfold a_count; lia
       | apply Nat.le_le_succ_r; apply print_array_loop_length;
         unfold a_count; lia ].
    cbn [values app]. rewrite <- Hcap. now destruct a.
  - apply value_all_object in Hv as [Hshape Hall].
    cbn [reprintable] in Hshape. destruct Hshape as (Hcap & Hs & Hkeys).
    unfold JAYCEON_OBJECT_GROWTH in Hcap.
    assert (Hre : Forall (fun p => reprintable (value p)) (pairs o)).
    { revert Hall. apply Forall_impl. intros p. apply value_all_here. }
    assert (Hex : Forall (fun p => exists f0, forall f, (f0 <= f)%nat ->
                    forall rest,
                      parse_value f (print_value printf_f (value p) ++ rest)
                      = Ok (value p) rest)
                   (pairs o)).
    { rewrite Forall_forall in *. auto. }
    apply Forall_fuel in Hex as [f0 Hf0].
    exists (S f0). intros [|f] Hf rest; [lia|].
    specialize (Hf0 f ltac:(lia)).
    rewrite parse_value_unfold. cbn [print_value]. unfold print_object.
    rewrite !append_assoc. change ("{" ++ ?t)%string with (String "{" t).
    rewrite parse_null_start, parse_bool_start, parse_number_start,
      parse_string_start, parse_array_first by reflexivity.
    unfold parse_object. cbn [peek advance].
    change (Ascii.eqb "{" "{") with true. cbn [negb].
    change ("}" ++ rest)%string with (String "}" rest).
    set (text := (print_object_loop (print_value printf_f) (o_count o)
                    (pairs o) 0 ++ String "}" rest)%string).
    assert (Hsp : parse_space text = text /\ Ascii.eqb (peek text) NUL = false).
    { unfold text. destruct (pairs o) as [|x ps]; split; reflexivity. }
    destruct Hsp as [-> ->].
    unfold text.
    rewrite (parse_object_loop_printed (parse_value f) (pairs o) Hf0 Hre Hkeys
               (o_count o) 0%N (mkObject [] 0) _ rest eq_refl eq_refl);
      [| unfold o_count; lia
       | exact Hs
       | apply Nat.le_le_succ_r; apply print_object_loop_length;
         unfold o_count; lia ].
    cbn [pairs app]. rewrite <- Hcap. now destruct o.
Qed.

Lemma print_object_parses (o : JYObject) :
  value_all reprintable (VObject o) ->
  exists f0, forall f, (f0 <= f)%nat ->
    forall rest,
      parse_object (parse_value f) (print_object (print_value printf_f) o ++ rest)
      = Ok o rest.
Proof.
  intros Hv. destruct (print_value_parses (VObject o) Hv) as [f0 Hf0].
  exists f0. intros f Hf rest.
  specialize (Hf0 (S f) ltac:(lia) rest).
  rewrite parse_value_unfold in Hf0. cbn [print_value] in Hf0.
  unfold print_object in *. rewrite !append_assoc in *.
  change ("{" ++ ?t)%string with (String "{" t) in *.
  rewrite parse_null_start, parse_bool_start, parse_number_start,
    parse_string_start, parse_array_first in Hf0 by reflexivity.
  destruct (parse_object (parse_value f) _) as [o' t| |]; try discriminate.
  now injection Hf0 as -> ->.
Qed.

End Reparse.

(** A tree of values as the parser builds them, without numbers, is read
    back from what [print_value] writes for it: the dispatcher returns the
    same tree, with the same capacities and the pairs in the same slots,
    and the cursor on what follows the text.  This holds whatever [printf]
    writes for a number, since the tree has none; the nesting budget of the
    embedding only has to exceed the length of the text. *)
Theorem printed_value_parses_back (printf_f : double -> string) (v : JYValue)
        (rest : string) (fuel : nat) :
  value_all reprintable v ->
  (String.length (print_value printf_f v ++ rest) < fuel)%nat ->
  parse_value fuel (print_value printf_f v ++ rest) = Ok v rest.
Proof.
  intros Hv Hfuel.
  destruct (print_value_parses printf_f v Hv) as [f0 Hf0].
  rewrite <- (Hf0 (f0 + fuel)%nat ltac:(lia) rest).
  symmetry. apply parse_value_more. now apply parse_value_total.
Qed.

(** An array that holds a null, a boolean, a string with a quote in it and
    an object with one pair, whose value is an empty array. *)
Lemma printed_value_parses_back_example :
  let inner := mkObject [mkPair "k" (VArray (mkArray [] 0%N))] 16%N in
  let v := VArray (mkArray [VNull; VBool 1; VString (String DQUOTE "x");
                            VObject inner] 16%N) in
  let text := print_value (fun _ => "") v in
  value_all reprintable v /\
  (String.length (text ++ ",") < 40)%nat /\
  text = "[null,true," ++ q ++ String BACKSLASH q ++ "x" ++ q ++ ",{"
         ++ q ++ "k" ++ q ++ ":[]}]" /\
  parse_value 40 (text ++ ",") = Ok v ",".
Proof.
  intros inner v text.
  assert (Hv : value_all reprintable v).
  { cbn. repeat split; auto. apply sorted_keys_single. }
  split; [exact Hv|].
  assert (Hlen : (String.length (text ++ ",") < 40)%nat) by (vm_compute; lia).
  split; [exact Hlen|]. split; [reflexivity|].
  exact (printed_value_parses_back (fun _ => "") v "," 40 Hv Hlen).
Defined.

(** A value of a parsed tree is as the printer needs it, or a number. *)
Lemma parsed_values_reprintable (s : string) (doc : JYDocument) :
  jy_parse s = Some doc ->
  value_all (fun v => type_of v <> TYPE_NUMBER -> reprintable v)
            (VObject (root doc)).
Proof.
  apply parse_root_all.
  - intros _. exact I.
  - intros s0 b r H _. cbn [reprintable].
    destruct (parse_bool_value _ _ _ H) as [[_ ->]|[_ ->]]; auto.
  - intros s0 d r _ H. now contradiction H.
  - intros s0 str r H _. cbn [reprintable]. eapply parse_string_no_nul; eauto.
  - intros pv s0 a r H _. cbn [reprintable]. eapply parse_array_capacity; eauto.
  - intros pv s0 o r H _. cbn [reprintable].
    destruct (parse_object_shape pv (fun k => no_nul k = true) s0 o r
                parse_string_no_nul H) as [Hcap Hkeys].
    split; [exact Hcap|]. split; [|exact Hkeys].
    apply (parse_object_inv pv (fun _ => True) (fun _ _ _ _ => I) _ _ _ H).
Qed.

(** A parsed document without numbers survives printing: [jy_parse]
    accepts what [jy_print] writes for it and returns the same document.
    The text printed is in general not the text parsed: the pairs come out
    in key order, without white space or comments. *)
Theorem parsed_document_survives_printing (printf_f : double -> string)
        (s : string) (doc : JYDocument) :
  jy_parse s = Some doc ->
  value_all (fun v => type_of v <> TYPE_NUMBER) (VObject (root doc)) ->
  jy_parse (jy_print printf_f doc) = Some doc.
Proof.
  intros Hparse Hnum.
  assert (Hv : value_all reprintable (VObject (root doc))).
  { pose proof (value_all_and _ _ _ Hnum
                  (parsed_values_reprintable s doc Hparse)) as H.
    revert H. apply value_all_impl. intros v [H1 H2]. auto. }
  destruct (print_object_parses printf_f (root doc) Hv) as [f0 Hf0].
  unfold jy_parse, parse_root, jy_print.
  set (text := (print_object (print_value printf_f) (root doc)
                ++ String LF "")%string).
  assert (H : parse_object (parse_value (String.length text)) text
              = Ok (root doc) (String LF "")).
  { rewrite <- (Hf0 (f0 + String.length text)%nat ltac:(lia) (String LF "")).
    fold text. symmetry. apply parse_object_extends.
    - intros u Hu. now apply parse_value_more.
    - apply parse_root_total. }
  rewrite H. now destruct doc.
Qed.

(** A document with a comment, white space, keys out of order, an escape
    and nested containers. *)
Lemma parsed_document_survives_printing_example :
  let s := "{ /* c */ " ++ q ++ "b" ++ q ++ " : [true, null, " ++ q
           ++ "x" ++ String BACKSLASH "n" ++ q ++ "], "
           ++ q ++ "a" ++ q ++ ":{} }" in
  let doc := mkDocument
    (mkObject [mkPair "a" (VObject (mkObject [] 0%N));
               mkPair "b" (VArray (mkArray [VBool 1; VNull;
                                            VString (String "x" (String LF ""))]
                                           16%N))] 16%N) in
  jy_parse s = Some doc /\
  value_all (fun v => type_of v <> TYPE_NUMBER) (VObject (root doc)) /\
  jy_print (fun _ => "") doc
  = "{" ++ q ++ "a" ++ q ++ ":{}," ++ q ++ "b" ++ q ++ ":[true,null," ++ q
    ++ "x" ++ String BACKSLASH "n" ++ q ++ "]}" ++ String LF "" /\
  jy_parse (jy_print (fun _ => "") doc) = Some doc.
Proof.
  intros s doc.
  assert (Hp : jy_parse s = Some doc) by (vm_compute; reflexivity).
  assert (Hn : value_all (fun v => type_of v <> TYPE_NUMBER)
                         (VObject (root doc))).
  { cbn. repeat split; discriminate. }
  split; [exact Hp|]. split; [exact Hn|]. split; [reflexivity|].
  exact (parsed_document_survives_printing (fun _ => "") s doc Hp Hn).
Defined.

(** * Whole numbers *)

(** ** Exact rounding *)

Lemma shiftl_pow2 (m : positive) (n : N) :
  Zpos (Pos.shiftl m n) = Zpos m * 2 ^ Z.of_N n.
Proof.
  destruct n as [|p]; [simpl; lia|].
  cbn [Pos.shiftl Z.of_N].
  rewrite (Pos.iter_swap_gen _ _ Zpos xO (Z.mul 2)) by reflexivity.
  change (Pos.iter (Z.mul 2) (Zpos m) p) with (Z.shiftl (Zpos m) (Zpos p)).
  apply Z.shiftl_mul_pow2. lia.
Qed.

Lemma iter_shr_1_exact (p : positive) :
  forall m : positive,
    iter_pos shr_1 p (Build_shr_record (Zpos (Pos.iter xO m p)) false false)
    = Build_shr_record (Zpos m) false false.
Proof.
  induction p as [p IH|p IH|]; intros m; cbn [Pos.iter iter_pos].
  - cbn [shr_1 orb]. now rewrite !IH.
  - now rewrite !IH.
  - reflexivity.
Qed.

(** A mantissa of 53 bits shifted up comes back from rounding as it was:
    nothing is lost. *)
Lemma binary_round_aux_exact (s : bool) (mv : positive) (n : N) (e : Z) :
  Z.log2 (Zpos mv) = 52 -> -1074 <= e + Z.of_N n <= 971 ->
  binary_round_aux Dbl.prec Dbl.emax s (Zpos (Pos.shiftl mv n)) e loc_Exact
  = S754_finite s mv (e + Z.of_N n).
Proof.
  intros Hmv He.
  assert (Hlog : Z.log2 (Zpos (Pos.shiftl mv n)) = 52 + Z.of_N n).
  { rewrite shiftl_pow2, Z.log2_mul_pow2 by lia. lia. }
  unfold binary_round_aux, shr_fexp, fexp, emin, Dbl.prec, Dbl.emax.
  cbn [Zdigits2 shr_record_of_loc]. rewrite digits2_log2, Hlog.
  replace (Z.max (52 + Z.of_N n + 1 + e - 53) (3 - 1024 - 53) - e)
    with (Z.of_N n) by lia.
  assert (Hshr : shr (Build_shr_record (Zpos (Pos.shiftl mv n)) false false)
                     e (Z.of_N n)
                 = (Build_shr_record (Zpos mv) false false, e + Z.of_N n)).
  { destruct n as [|p]; cbn [shr Z.of_N Pos.shiftl].
    - f_equal. lia.
    - now rewrite iter_shr_1_exact. }
  rewrite Hshr. cbn [shr_m loc_of_shr_record round_nearest_even Zdigits2
                     shr_record_of_loc].
  rewrite digits2_log2, Hmv.
  replace (Z.max (52 + 1 + (e + Z.of_N n) - 53) (3 - 1024 - 53)
           - (e + Z.of_N n)) with 0 by lia.
  cbn [shr shr_m].
  destruct (Z.leb_spec (e + Z.of_N n) (1024 - 53)); [reflexivity | lia].
Qed.

(** The mantissa of [int53]: the integer shifted up to 53 bits. *)
Lemma int53_mantissa (v : positive) :
  Zpos v < 2 ^ 53 ->
  let mv := Pos.shiftl v (Z.to_N (52 - Z.log2 (Zpos v))) in
  Zpos mv = Zpos v * 2 ^ (52 - Z.log2 (Zpos v)) /\ Z.log2 (Zpos mv) = 52 /\
  0 <= Z.log2 (Zpos v) <= 52.
Proof.
  intros Hv mv.
  assert (Hl : 0 <= Z.log2 (Zpos v) <= 52).
  { split; [apply Z.log2_nonneg|].
    assert (Z.log2 (Zpos v) < 53); [|lia]. apply Z.log2_lt_pow2; lia. }
  assert (Hmv : Zpos mv = Zpos v * 2 ^ (52 - Z.log2 (Zpos v))).
  { unfold mv. rewrite shiftl_pow2, Z2N.id by lia. reflexivity. }
  split; [exact Hmv|]. split; [|exact Hl].
  rewrite Hmv, Z.log2_mul_pow2 by lia. lia.
Qed.

(** A positive mantissa with the value [v * 2 ^ k] at the exponent [- k]
    rounds to the double that holds [v]. *)
Lemma binary_round_aux_int53 (s : bool) (m v : positive) (k : Z) :
  Zpos v < 2 ^ 53 -> 52 - Z.log2 (Zpos v) <= k ->
  Zpos m = Zpos v * 2 ^ k ->
  binary_round_aux Dbl.prec Dbl.emax s (Zpos m) (- k) loc_Exact = int53 s v.
Proof.
  intros Hv Hk Hm.
  destruct (int53_mantissa v Hv) as (Hmv & Hlog & Hl).
  set (mv := Pos.shiftl v (Z.to_N (52 - Z.log2 (Zpos v)))) in *.
  set (n := Z.to_N (k - (52 - Z.log2 (Zpos v)))).
  assert (Hmn : m = Pos.shiftl mv n).
  { apply Pos2Z.inj. rewrite shiftl_pow2, Hm, Hmv. unfold n.
    rewrite Z2N.id by lia. rewrite <- Z.mul_assoc, <- Z.pow_add_r by lia.
    do 2 f_equal. lia. }
  rewrite Hmn, binary_round_aux_exact; [|assumption | unfold n; lia].
  unfold int53. fold mv. f_equal. unfold n. lia.
Qed.

Lemma shl_align_value (m : positive) (e e' : Z) :
  Zpos (fst (shl_align m e e')) = Zpos m * 2 ^ (e - Z.min e e') /\
  snd (shl_align m e e') = Z.min e e'.
Proof.
  unfold shl_align. destruct (e' - e) as [|d|d] eqn:E; cbn [fst snd].
  - replace (Z.min e e') with e by lia. rewrite Z.sub_diag. lia.
  - replace (Z.min e e') with e by lia. rewrite Z.sub_diag. lia.
  - replace (Z.min e e') with e' by lia.
    change (Pos.iter xO m d) with (Pos.shiftl m (Npos d)).
    rewrite shiftl_pow2. split; [|reflexivity]. do 2 f_equal. lia.
Qed.

Lemma binary_round_int53 (s : bool) (m v : positive) (k : Z) :
  Zpos v < 2 ^ 53 -> 0 <= k -> Zpos m = Zpos v * 2 ^ k ->
  binary_round Dbl.prec Dbl.emax s m (- k) = int53 s v.
Proof.
  intros Hv Hk Hm.
  destruct (int53_mantissa v Hv) as (_ & _ & Hl).
  assert (Hlog : Z.log2 (Zpos m) = Z.log2 (Zpos v) + k).
  { rewrite Hm, Z.log2_mul_pow2 by lia. lia. }
  unfold binary_round.
  pose proof (shl_align_value m (- k)
                (fexp Dbl.prec Dbl.emax (Zpos (digits2_pos m) + - k))) as Hal.
  destruct (shl_align m (- k)
              (fexp Dbl.prec Dbl.emax (Zpos (digits2_pos m) + - k)))
    as [mz ez]. cbn [fst snd] in Hal. destruct Hal as [Hmz Hez].
  revert Hmz Hez. unfold fexp, emin, Dbl.prec, Dbl.emax.
  rewrite digits2_log2, Hlog. intros Hmz Hez.
  destruct (Z.le_gt_cases (52 - Z.log2 (Zpos v)) k) as [Hc|Hc].
  - rewrite Z.min_l in Hmz, Hez by lia. rewrite Z.sub_diag in Hmz.
    subst ez. apply binary_round_aux_int53; try assumption. lia.
  - rewrite Z.min_r in Hmz, Hez by lia.
    replace ez with (- (52 - Z.log2 (Zpos v))) by lia.
    apply binary_round_aux_int53; try assumption; [lia|].
    rewrite Hmz, Hm, <- Z.mul_assoc, <- Z.pow_add_r by lia.
    do 2 f_equal. lia.
Qed.

(** The conversion of an integer below 2^53 is exact. *)
Lemma of_int_int53 (v : positive) :
  Zpos v < 2 ^ 53 ->
  Dbl.of_int (Zpos v) = int53 false v /\ Dbl.of_int (Zneg v) = int53 true v.
Proof.
  intros Hv. unfold Dbl.of_int, binary_normalize.
  split; apply (binary_round_int53 _ v v 0); try assumption; lia.
Qed.

(** The product of two integers is exact as long as it is below 2^53. *)
Lemma mul_int53 (s s' : bool) (a b : positive) :
  Zpos (a * b) < 2 ^ 53 ->
  Dbl.mul (int53 s a) (int53 s' b) = int53 (xorb s s') (a * b).
Proof.
  intros Hab.
  assert (Ha : Zpos a < 2 ^ 53) by nia.
  assert (Hb : Zpos b < 2 ^ 53) by nia.
  destruct (int53_mantissa a Ha) as (Hma & _ & Hla).
  destruct (int53_mantissa b Hb) as (Hmb & _ & Hlb).
  destruct (int53_mantissa (a * b) Hab) as (_ & _ & Hlab).
  unfold int53 at 1 2. unfold Dbl.mul. cbn [SFmul].
  fold Dbl.prec Dbl.emax.
  replace (Z.log2 (Zpos a) - 52 + (Z.log2 (Zpos b) - 52))
    with (- (104 - Z.log2 (Zpos a) - Z.log2 (Zpos b))) by lia.
  apply binary_round_aux_int53; [assumption| |].
  - assert (Z.log2 (Zpos a) + Z.log2 (Zpos b) <= Z.log2 (Zpos a * Zpos b))
      by (apply Z.log2_mul_below; lia).
    rewrite Pos2Z.inj_mul. lia.
  - rewrite !Pos2Z.inj_mul, Hma, Hmb.
    replace (104 - Z.log2 (Zpos a) - Z.log2 (Zpos b))
      with ((52 - Z.log2 (Zpos a)) + (52 - Z.log2 (Zpos b))) by lia.
    rewrite Z.pow_add_r by lia. ring.
Qed.

(** The sum of two positive integers is exact as long as it is below
    2^53. *)
Lemma add_int53 (a b : positive) :
  Zpos (a + b) < 2 ^ 53 ->
  Dbl.add (int53 false a) (int53 false b) = int53 false (a + b).
Proof.
  intros Hab.
  assert (Ha : Zpos a < 2 ^ 53) by lia.
  assert (Hb : Zpos b < 2 ^ 53) by lia.
  destruct (int53_mantissa a Ha) as (Hma & _ & Hla).
  destruct (int53_mantissa b Hb) as (Hmb & _ & Hlb).
  unfold int53 at 1 2. unfold Dbl.add. cbn [SFadd cond_Zopp].
  set (ea := Z.log2 (Zpos a) - 52) in *. set (eb := Z.log2 (Zpos b) - 52) in *.
  destruct (shl_align_value
              (Pos.shiftl a (Z.to_N (52 - Z.log2 (Zpos a)))) ea (Z.min ea eb))
    as [Hxa _].
  destruct (shl_align_value
              (Pos.shiftl b (Z.to_N (52 - Z.log2 (Zpos b)))) eb (Z.min ea eb))
    as [Hxb _].
  replace (Z.min ea (Z.min ea eb)) with (Z.min ea eb) in Hxa by lia.
  replace (Z.min eb (Z.min ea eb)) with (Z.min ea eb) in Hxb by lia.
  set (xa := fst (shl_align _ ea (Z.min ea eb))) in *.
  set (xb := fst (shl_align _ eb (Z.min ea eb))) in *.
  change (Zpos xa + Zpos xb) with (Zpos (xa + xb)).
  cbn [binary_normalize]. fold Dbl.prec Dbl.emax.
  replace (Z.min ea eb) with (- (- Z.min ea eb)) by lia.
  apply binary_round_int53; [assumption | unfold ea, eb; lia |].
  rewrite !Pos2Z.inj_add, Hxa, Hxb, Hma, Hmb.
  rewrite <- !Z.mul_assoc, <- !Z.pow_add_r by (unfold ea, eb; lia).
  replace (52 - Z.log2 (Zpos a) + (ea - Z.min ea eb))
    with (- Z.min ea eb) by (unfold ea; lia).
  replace (52 - Z.log2 (Zpos b) + (eb - Z.min ea eb))
    with (- Z.min ea eb) by (unfold eb; lia).
  ring.
Qed.

(** ** The digit accumulator on whole numbers *)

Lemma of_int_pos (v : positive) :
  Zpos v < 2 ^ 53 -> Dbl.of_int (Zpos v) = int53 false v.
Proof. intros H. now apply of_int_int53. Qed.

Lemma of_int_neg (v : positive) :
  Zpos v < 2 ^ 53 -> Dbl.of_int (Zneg v) = int53 true v.
Proof. intros H. now apply of_int_int53. Qed.

Lemma accumulate_exact (acc d : Z) :
  0 <= acc -> 0 <= d <= 9 -> acc * 10 + d < 2 ^ 53 ->
  Dbl.add (Dbl.mul (Dbl.of_int acc) Dbl.ten) (Dbl.of_int d)
  = Dbl.of_int (acc * 10 + d).
Proof.
  intros Hacc Hd Hlt.
  destruct acc as [|a|a]; [| |lia].
  - change (Dbl.mul (Dbl.of_int 0) Dbl.ten) with Dbl.zero.
    destruct d as [|p|p]; [reflexivity| |lia].
    cbn [Z.mul Z.add]. rewrite (of_int_pos p) by lia. reflexivity.
  - rewrite (of_int_pos a) by lia.
    change Dbl.ten with (Dbl.of_int 10).
    rewrite (of_int_pos 10) by lia.
    rewrite mul_int53 by lia.
    destruct d as [|p|p]; [| |lia].
    + rewrite Z.add_0_r. change (Zpos a * 10) with (Zpos (a * 10)).
      rewrite (of_int_pos (a * 10)) by lia. reflexivity.
    + rewrite (of_int_pos p) by lia.
      rewrite add_int53 by lia.
      change (Zpos a * 10 + Zpos p) with (Zpos (a * 10 + p)).
      now rewrite (of_int_pos (a * 10 + p)) by lia.
Qed.

Lemma int_digits_exact (ds : string) :
  all_digits ds = true ->
  forall acc, 0 <= acc -> decimal acc ds < 2 ^ 53 ->
    int_digits ds (Dbl.of_int acc) = (Dbl.of_int (decimal acc ds), "").
Proof.
  induction ds as [|c ds IH]; intros Hds acc Hacc Hlt; [reflexivity|].
  cbn [all_digits] in Hds. apply andb_prop in Hds as [Hc Hds].
  cbn [int_digits decimal] in *. rewrite Hc.
  pose proof (is_digit_val c Hc) as Hv.
  pose proof (decimal_ge ds Hds (acc * 10 + digit_val c) ltac:(lia)) as Hge.
  rewrite accumulate_exact by lia.
  apply IH; [assumption | lia | assumption].
Qed.

Lemma peek_app_digit (ds t : string) :
  is_digit (peek ds) = true -> peek (ds ++ t) = peek ds.
Proof. destruct ds; [discriminate | reflexivity]. Qed.

(** A whole number below 2^53 is parsed exactly.  For a run of digits that
    does not start with 0 and writes a number below 2^53, followed by
    something that continues no number, [parse_number] returns the double
    that holds that number, or its opposite after a minus sign, and leaves
    the cursor behind the digits: none of the roundings of the digit
    accumulator loses anything. *)
Theorem whole_numbers_parse_exactly (neg : bool) (ds rest : string) :
  all_digits ds = true -> is_digit (peek ds) = true ->
  Ascii.eqb (peek ds) "0" = false ->
  decimal 0 ds < 2 ^ 53 ->
  is_digit (peek rest) = false -> Ascii.eqb (peek rest) "." = false ->
  Ascii.eqb (peek rest) "e" = false -> Ascii.eqb (peek rest) "E" = false ->
  parse_number ((if neg then "-" else "") ++ ds ++ rest)
  = Some (Dbl.of_int (if neg then - decimal 0 ds else decimal 0 ds), rest).
Proof.
  intros Hds Hd H0 Hlt Hr Hp He HE.
  assert (Hpos : 1 <= decimal 0 ds).
  { destruct ds as [|c ds]; [discriminate|]. cbn [peek] in Hd, H0.
    cbn [all_digits] in Hds. apply andb_prop in Hds as [_ Hds].
    cbn [decimal]. pose proof (is_digit_zero c Hd H0).
    pose proof (decimal_ge ds Hds (0 * 10 + digit_val c) ltac:(lia)). lia. }
  destruct (decimal 0 ds) as [|p|p] eqn:Edec; try lia.
  assert (Hint : number_int (ds ++ rest) = Some (int53 false p, rest)).
  { unfold number_int. rewrite peek_app_digit, H0 by assumption.
    rewrite int_digits_app by assumption.
    change Dbl.zero with (Dbl.of_int 0).
    rewrite int_digits_exact by (try assumption; lia).
    cbn [fst]. rewrite Edec, (of_int_pos p) by lia. reflexivity. }
  assert (Hfrac : number_frac (int53 false p) rest = Some (int53 false p, rest)).
  { unfold number_frac. now rewrite Hp. }
  assert (Hexp : number_exp (int53 false p) rest = Some (int53 false p, rest)).
  { unfold number_exp. now rewrite He, HE. }
  rewrite (parse_number_steps neg (ds ++ rest) rest rest rest _ _ _
             ltac:(now rewrite peek_app_digit) Hint Hfrac Hexp).
  do 2 f_equal. destruct neg.
  - change Dbl.minus_one with (Dbl.of_int (-1)).
    rewrite (of_int_neg 1) by lia.
    rewrite mul_int53 by lia. cbn [xorb]. rewrite Pos.mul_1_r.
    change (- Zpos p) with (Zneg p).
    now rewrite (of_int_neg p) by lia.
  - now rewrite (of_int_pos p) by lia.
Qed.

(** The largest whole number below 2^53, and the first one above 2^53 that
    no double holds: it comes back as 2^53. *)
Lemma whole_numbers_parse_exactly_example :
  (all_digits "9007199254740991" = true /\
   is_digit (peek "9007199254740991") = true /\
   Ascii.eqb (peek "9007199254740991") "0" = false /\
   decimal 0 "9007199254740991" < 2 ^ 53 /\
   is_digit (peek "]") = false /\ Ascii.eqb (peek "]") "." = false /\
   Ascii.eqb (peek "]") "e" = false /\ Ascii.eqb (peek "]") "E" = false) /\
  parse_number "-9007199254740991]"
  = Some (Dbl.of_int (- 9007199254740991), "]") /\
  parse_number "9007199254740993" = Some (Dbl.of_int 9007199254740992, "").
Proof.
  split; [repeat split; reflexivity|]. split.
  - apply (whole_numbers_parse_exactly true "9007199254740991" "]");
      reflexivity.
  - vm_compute. reflexivity.
Defined.

(** ** Malformed numbers *)

Lemma parse_number_fails (neg : bool) (s : string) :
  (neg = false -> Ascii.eqb (peek s) "-" = false) ->
  match number_int s with
  | None => True
  | Some (v1, s1) =>
      match number_frac v1 s1 with
      | None => True
      | Some (v2, s2) => number_exp v2 s2 = None
      end
  end ->
  parse_number ((if neg then "-" else "") ++ s) = None.
Proof.
  intros Hm H. unfold parse_number.
  assert (Hsign : (if Ascii.eqb (peek ((if neg then "-" else "") ++ s)) "-"
                   then (1, advance ((if neg then "-" else "") ++ s))
                   else (0, (if neg then "-" else "") ++ s)%string)
                  = ((if neg then 1 else 0), s)).
  { destruct neg; [reflexivity|]. cbn [append]. now rewrite Hm. }
  rewrite Hsign.
  destruct (number_int s) as [[v1 s1]|]; [|reflexivity].
  destruct (number_frac v1 s1) as [[v2 s2]|]; [|reflexivity].
  now rewrite H.
Qed.

(** What [parse_number] rejects.  After a well-formed integer part and
    fraction: an exponent marker that is not followed by a sign, and a
    signed exponent without a digit.  After a well-formed integer part: a
    point that is not followed by a digit.  And, with or without a minus
    sign, anything that does not start with a digit.  What follows may be
    the end of the input. *)
Theorem malformed_numbers_rejected (neg : bool) (ip fp : string) :
  int_part_ok ip = true -> frac_part_ok fp = true ->
  let sign := if neg then "-" else "" in
  (forall ee t,
      (ee = "e" \/ ee = "E")%char ->
      Ascii.eqb (peek t) "+" = false -> Ascii.eqb (peek t) "-" = false ->
      parse_number (sign ++ ip ++ fp ++ String ee t) = None) /\
  (forall ee es t,
      (ee = "e" \/ ee = "E")%char -> (es = "+" \/ es = "-")%char ->
      is_digit (peek t) = false ->
      parse_number (sign ++ ip ++ fp ++ String ee (String es t)) = None) /\
  (forall t,
      is_digit (peek t) = false ->
      parse_number (sign ++ ip ++ String "." t) = None) /\
  (forall t,
      is_digit (peek t) = false ->
      (neg = false -> Ascii.eqb (peek t) "-" = false) ->
      parse_number (sign ++ t) = None).
Proof.
  intros Hip Hfp sign.
  destruct (number_int_app ip Hip) as [v1 Hint].
  destruct (number_frac_app fp v1 Hfp) as [v2 Hfrac].
  assert (Hstart : forall t, neg = false ->
                     Ascii.eqb (peek (ip ++ t)) "-" = false).
  { intros t _. apply is_digit_not; [|reflexivity].
    now apply int_part_starts_digit. }
  assert (Hsteps : forall ee t, (ee = "e" \/ ee = "E")%char ->
            number_int (ip ++ fp ++ String ee t) = Some (v1, (fp ++ String ee t)%string)
            /\ number_frac v1 (fp ++ String ee t) = Some (v2, String ee t)).
  { intros ee t Hee. split.
    - apply Hint. apply frac_part_starts; [assumption|].
      destruct Hee as [-> | ->]; reflexivity.
    - apply Hfrac; destruct Hee as [-> | ->]; reflexivity. }
  split; [|split; [|split]].
  - intros ee t Hee Hplus Hminus.
    apply parse_number_fails; [apply Hstart|].
    destruct (Hsteps ee t Hee) as [-> ->].
    unfold number_exp. cbn [peek advance].
    destruct Hee as [-> | ->]; cbn [Ascii.eqb Bool.eqb orb];
      now rewrite Hplus, Hminus.
  - intros ee es t Hee Hes Hd.
    apply parse_number_fails; [apply Hstart|].
    destruct (Hsteps ee (String es t) Hee) as [-> ->].
    unfold number_exp. cbn [peek advance].
    destruct Hee as [-> | ->], Hes as [-> | ->];
      cbn [Ascii.eqb Bool.eqb orb peek advance]; now rewrite Hd.
  - intros t Hd.
    apply parse_number_fails; [apply Hstart|].
    rewrite (Hint (String "." t)) by reflexivity.
    unfold number_frac. cbn [peek advance Ascii.eqb Bool.eqb].
    now rewrite Hd.
  - intros t Hd Hm.
    apply parse_number_fails; [assumption|].
    unfold number_int.
    destruct (Ascii.eqb_spec (peek t) "0") as [E|E];
      [rewrite E in Hd; discriminate|].
    destruct t as [|c t]; [reflexivity|]. cbn [peek] in Hd.
    cbn [int_digits]. now rewrite Hd.
Qed.

(** The literal 12.5 with its exponent spoilt in the two ways, its point
    left alone, and no digit at all. *)
Lemma malformed_numbers_rejected_example :
  (int_part_ok "12" = true /\ frac_part_ok ".5" = true) /\
  (forall ee t,
      (ee = "e" \/ ee = "E")%char ->
      Ascii.eqb (peek t) "+" = false -> Ascii.eqb (peek t) "-" = false ->
      parse_number ("-" ++ "12" ++ ".5" ++ String ee t) = None) /\
  (forall ee es t,
      (ee = "e" \/ ee = "E")%char -> (es = "+" \/ es = "-")%char ->
      is_digit (peek t) = false ->
      parse_number ("-" ++ "12" ++ ".5" ++ String ee (String es t)) = None) /\
  (forall t,
      is_digit (peek t) = false ->
      parse_number ("-" ++ "12" ++ String "." t) = None) /\
  (forall t,
      is_digit (peek t) = false ->
      (true = false -> Ascii.eqb (peek t) "-" = false) ->
      parse_number ("-" ++ t) = None).
Proof.
  split; [split; reflexivity|].
  exact (malformed_numbers_rejected true "12" ".5" eq_refl eq_refl).
Defined.

(** * Elements of parsed arrays *)

(** Every element of an array the parser returns is reached by its index:
    for an index below the count, [jy_index_i] returns the address of that
    slot, never [NULL], and the slot holds the element parsed at that
    position.  (The buffer of an array with elements is never the null
    one.) *)
Theorem parsed_elements_are_reached pv (s : string) (a : JYArray)
        (rest : string) (k : N) :
  parse_array pv s = Ok a rest -> (k < a_count a)%N ->
  exists v,
    nth_error (values a) (N.to_nat k) = Some v /\
    jy_index_i a k = Slot (Z.of_N k) /\
    array_at a (jy_index_i a k) = Live v.
Proof.
  intros Hp Hk. apply parse_array_capacity in Hp.
  pose proof (grown_bounds (a_count a)) as (_ & _ & Hzero & _).
  rewrite <- Hp in Hzero.
  destruct (nth_error (values a) (N.to_nat k)) as [v|] eqn:E.
  - exists v. split; [reflexivity|].
    assert (Hi : jy_index_i a k = Slot (Z.of_N k)).
    { unfold jy_index_i, value_slot.
      destruct (N.ltb_spec (a_count a) k); [lia|].
      destruct (N.eqb_spec (a_capacity a) 0); [lia | reflexivity]. }
    split; [exact Hi|]. rewrite Hi. cbn [array_at]. unfold slot_of.
    destruct (Z.ltb_spec (Z.of_N k) 0); [lia|].
    replace (Z.to_nat (Z.of_N k)) with (N.to_nat k) by lia.
    now rewrite E.
  - apply nth_error_None in E. unfold a_count in Hk. lia.
Qed.

(** The second element of an array of three. *)
Lemma parsed_elements_are_reached_example :
  let a := mkArray [VNull; VBool 1; VBool 0] 16%N in
  (parse_array (parse_value 1) "[null, true, false]" = Ok a "" /\
   (1 < a_count a)%N) /\
  exists v,
    nth_error (values a) (N.to_nat 1) = Some v /\
    jy_index_i a 1 = Slot (Z.of_N 1) /\
    array_at a (jy_index_i a 1) = Live v.
Proof.
  intros a.
  assert (Hp : parse_array (parse_value 1) "[null, true, false]" = Ok a "")
    by reflexivity.
  assert (Hk : (1 < a_count a)%N) by reflexivity.
  split; [split; assumption|].
  exact (parsed_elements_are_reached (parse_value 1) _ a "" 1%N Hp Hk).
Defined.

(** * The parser and the allocator *)

(** ** Heaps *)

Lemma fresh_not_in (h : Mem.heap) : ~ In (Mem.fresh h) (Mem.live h).
Proof.
  unfold Mem.fresh. intros H.
  assert (Hle : Forall (fun k => (k <= list_max (Mem.live h))%nat) (Mem.live h))
    by (apply list_max_le; lia).
  rewrite Forall_forall in Hle. apply Hle in H. lia.
Qed.

Lemma forallb_skipn {A : Type} (f : A -> bool) (k : nat) :
  forall l, forallb f l = true -> forallb f (skipn k l) = true.
Proof.
  induction k as [|k IH]; intros [|x l] H; try assumption.
  cbn [skipn]. apply IH. cbn [forallb] in H.
  now apply andb_prop in H.
Qed.

Lemma holds_nil (h : Mem.heap) : Mem.holds h h [].
Proof.
  exists []. split; [reflexivity|]. split; [constructor|].
  split; [tauto|]. split; [intros b []|]. now exists 0%nat.
Qed.

Lemma holds_nil_eq (h h' : Mem.heap) :
  Mem.holds h h' [] -> Mem.live h' = Mem.live h.
Proof.
  intros (news & Hl & _ & Hin & _).
  destruct news as [|b news]; [assumption|].
  exfalso. apply (Hin b). now left.
Qed.

(** An allocator that grants every request goes on doing so. *)
Lemma holds_willing (h h' : Mem.heap) (bs : list nat) :
  Mem.holds h h' bs -> Mem.willing h = true -> Mem.willing h' = true.
Proof.
  intros (_ & _ & _ & _ & _ & k & Hk) W. unfold Mem.willing in *.
  rewrite Hk. now apply forallb_skipn.
Qed.

(** The same blocks, listed in another way. *)
Lemma holds_same (h h' : Mem.heap) (bs bs' : list nat) :
  (forall b, In b bs <-> In b bs') ->
  (List.length bs' <= List.length bs)%nat ->
  Mem.holds h h' bs -> Mem.holds h h' bs'.
Proof.
  intros Hsame Hlen (news & Hh & Hnd & Hin & Hout & Hk).
  exists news. split; [assumption|]. split; [|split; [|split]].
  - apply (NoDup_incl_NoDup Hnd Hlen). intros b. apply Hsame.
  - intros b. now rewrite Hin.
  - intros b Hb. apply Hout. now apply Hsame.
  - assumption.
Qed.

Ltac same_blocks :=
  first
    [ intros; repeat (rewrite ?in_app_iff; cbn [In]); tauto
    | repeat (rewrite ?length_app; cbn [List.length]); lia ].

Lemma holds_compose (h h1 h2 : Mem.heap) (A B : list nat) :
  Mem.holds h h1 A -> Mem.holds h1 h2 B -> Mem.holds h h2 (A ++ B)%list.
Proof.
  intros (nA & HlA & HndA & HinA & HoutA & kA & HkA)
         (nB & HlB & HndB & HinB & HoutB & kB & HkB).
  exists (nB ++ nA)%list. split; [now rewrite HlB, HlA, app_assoc|].
  split; [|split; [|split]].
  - apply NoDup_app; auto.
    intros a Ha Hb. apply (HoutB a Hb). rewrite HlA.
    apply in_or_app. left. now apply HinA.
  - intros b. rewrite !in_app_iff, HinA, HinB. tauto.
  - intros b Hb Hh. apply in_app_or in Hb as [Hb|Hb].
    + now apply (HoutA b).
    + apply (HoutB b Hb). rewrite HlA. apply in_or_app. now right.
  - exists (kB + kA)%nat. now rewrite HkB, HkA, skipn_skipn.
Qed.

(** Nothing added on the way from [h] to [h1]. *)
Lemma holds_after (h h1 h2 : Mem.heap) (B : list nat) :
  Mem.holds h h1 [] -> Mem.holds h1 h2 B -> Mem.holds h h2 B.
Proof. intros H1 H2. exact (holds_compose _ _ _ _ _ H1 H2). Qed.

Lemma holds_then (h h1 h2 : Mem.heap) (A : list nat) :
  Mem.holds h h1 A -> Mem.holds h1 h2 [] -> Mem.holds h h2 A.
Proof.
  intros H1 H2. rewrite <- (app_nil_r A). exact (holds_compose _ _ _ _ _ H1 H2).
Qed.

Lemma holds_grant (h : Mem.heap) :
  Mem.holds h (snd (Mem.grant h)) [Mem.fresh h].
Proof.
  exists [Mem.fresh h]. split; [reflexivity|]. split; [|split; [|split]].
  - constructor; [intros [] | constructor].
  - tauto.
  - intros b [<-|[]]. apply fresh_not_in.
  - now exists 0%nat.
Qed.

(** The next answer: a refusal only from an allocator that is not
    willing. *)
Lemma holds_answer (h : Mem.heap) :
  Mem.holds h (snd (Mem.answer h)) [] /\
  (fst (Mem.answer h) = true -> Mem.willing h = false).
Proof.
  unfold Mem.answer, Mem.willing.
  destruct (Mem.refusals h) as [|r rs] eqn:E; cbn [fst snd].
  - split; [apply holds_nil | discriminate].
  - split.
    + exists []. split; [reflexivity|]. split; [constructor|].
      split; [tauto|]. split; [intros b []|]. exists 1%nat. now rewrite E.
    + now intros ->.
Qed.

(** [malloc]: a block that was not allocated, or [NULL] and the heap as it
    was. *)
Lemma holds_malloc (h hk : Mem.heap) (bs : list nat) :
  Mem.holds h hk bs ->
  match Mem.malloc hk with
  | (Mem.Block b, hk') => Mem.holds h hk' (bs ++ [b])
  | (Mem.Null, hk') => Mem.holds h hk' bs /\ Mem.willing h = false
  end.
Proof.
  intros H. unfold Mem.malloc.
  destruct (holds_answer hk) as [Ha Hr].
  destruct (Mem.answer hk) as [[|] hk1]; cbn [fst snd] in *.
  - split; [exact (holds_then _ _ _ _ H Ha)|].
    destruct (Mem.willing h) eqn:W; [|reflexivity].
    rewrite (holds_willing _ _ _ H W) in Hr. now apply Hr.
  - cbn [Mem.grant]. apply holds_compose with hk1;
      [exact (holds_then _ _ _ _ H Ha) | apply (holds_grant hk1)].
Qed.

(** Releasing a block that is held. *)
Lemma holds_free (h hk : Mem.heap) (b : nat) (bs : list nat) :
  Mem.holds h hk (b :: bs) ->
  exists hk', Mem.free (Mem.Block b) hk = Some hk' /\ Mem.holds h hk' bs.
Proof.
  intros (news & Hl & Hnd & Hin & Hout & Hk).
  inversion Hnd as [|? ? Hb Hbs]; subst.
  assert (Hbn : In b news) by (apply Hin; now left).
  unfold Mem.free.
  destruct (in_dec Nat.eq_dec b (Mem.live hk)) as [_|Hno];
    [|exfalso; apply Hno; rewrite Hl; apply in_or_app; now left].
  eexists. split; [reflexivity|].
  exists (remove Nat.eq_dec b news). cbn [Mem.live Mem.refusals].
  split; [|split; [|split; [|split]]].
  - rewrite Hl, remove_app. f_equal. apply notin_remove.
    apply Hout. now left.
  - assumption.
  - intros x. split.
    + intros Hx. apply in_remove in Hx as [Hx Hne].
      apply Hin in Hx as [Hx|Hx]; [congruence | assumption].
    + intros Hx. apply in_in_remove; [congruence|].
      apply Hin. now right.
  - intros x Hx. apply Hout. now right.
  - assumption.
Qed.

(** [free] of a pointer that is held or null. *)
Lemma holds_free_ptr (h hk : Mem.heap) (p : Mem.hptr) (bs : list nat) :
  Mem.holds h hk (Mem.block_of p ++ bs) ->
  exists hk', Mem.free p hk = Some hk' /\ Mem.holds h hk' bs.
Proof.
  destruct p as [|b]; cbn [Mem.block_of app].
  - intros H. exists hk. split; [reflexivity | assumption].
  - apply holds_free.
Qed.

Lemma free_back (h0 hk : Mem.heap) (p : Mem.hptr) :
  Mem.holds h0 hk (Mem.block_of p) ->
  exists h', Mem.free p hk = Some h' /\ Mem.holds h0 h' [].
Proof.
  intros H. rewrite <- (app_nil_r (Mem.block_of p)) in H.
  now apply holds_free_ptr.
Qed.

(** [realloc] of a pointer that is held or null: a new block for the old
    one, or [NULL] and the old block as it was. *)
Lemma holds_realloc (h hk : Mem.heap) (p : Mem.hptr) (bs : list nat) :
  Mem.holds h hk (Mem.block_of p ++ bs) ->
  match Mem.realloc p hk with
  | Some (Mem.Block b, hk') => Mem.holds h hk' (b :: bs)
  | Some (Mem.Null, hk') =>
      Mem.holds h hk' (Mem.block_of p ++ bs) /\ Mem.willing h = false
  | None => False
  end.
Proof.
  intros H. unfold Mem.realloc.
  destruct (holds_answer hk) as [Ha Hr].
  destruct (Mem.answer hk) as [r hk1]; cbn [fst snd] in *.
  pose proof (holds_then _ _ _ _ H Ha) as H1.
  destruct (holds_free_ptr _ _ _ _ H1) as (hk2 & -> & H2).
  destruct r.
  - split; [assumption|].
    destruct (Mem.willing h) eqn:W; [|reflexivity].
    rewrite (holds_willing _ _ _ H W) in Hr. now apply Hr.
  - cbn [Mem.grant].
    apply holds_same with (bs ++ [Mem.fresh hk2])%list; [same_blocks.. |].
    apply holds_compose with hk2; [assumption | apply (holds_grant hk2)].
Qed.

(** ** Releasing a value *)

Lemma free_elems_holds (vs : list Mem.HValue) :
  Forall (fun v => forall h hk F,
            Mem.holds h hk (Mem.blocks v ++ F) ->
            exists hk', Mem.free_value v hk = Some hk' /\ Mem.holds h hk' F)
         vs ->
  forall h hk F,
    Mem.holds h hk (Mem.blocks_elems Mem.blocks vs ++ F) ->
    exists hk', Mem.free_elems Mem.free_value vs hk = Some hk' /\
                Mem.holds h hk' F.
Proof.
  induction 1 as [|v vs Hv _ IH]; intros h hk F Hh.
  - exists hk. split; [reflexivity | assumption].
  - cbn [Mem.blocks_elems flat_map] in Hh. rewrite <- app_assoc in Hh.
    destruct (Hv _ _ _ Hh) as (hk1 & Hf1 & H1).
    destruct (IH _ _ _ H1) as (hk2 & Hf2 & H2).
    exists hk2. cbn [Mem.free_elems]. rewrite Hf1. auto.
Qed.

Lemma free_slots_holds (ps : list Mem.HPair) :
  Forall (fun p => forall h hk F,
            Mem.holds h hk (Mem.blocks (Mem.p_value p) ++ F) ->
            exists hk', Mem.free_value (Mem.p_value p) hk = Some hk' /\
                        Mem.holds h hk' F)
         ps ->
  forall h hk F,
    Mem.holds h hk (Mem.blocks_slots Mem.blocks ps ++ F) ->
    exists hk', Mem.free_slots Mem.free_value ps hk = Some hk' /\
                Mem.holds h hk' F.
Proof.
  induction 1 as [|p ps Hp _ IH]; intros h hk F Hh.
  - exists hk. split; [reflexivity | assumption].
  - cbn [Mem.blocks_slots flat_map] in Hh. rewrite <- !app_assoc in Hh.
    destruct (holds_free_ptr _ _ _ _ Hh) as (hk0 & Hf0 & H0).
    destruct (Hp _ _ _ H0) as (hk1 & Hf1 & H1).
    destruct (IH _ _ _ H1) as (hk2 & Hf2 & H2).
    exists hk2. cbn [Mem.free_slots]. rewrite Hf0, Hf1. auto.
Qed.

Lemma HValue_tree_ind (P : Mem.HValue -> Prop) :
  P Mem.HNull -> (forall b, P (Mem.HBool b)) -> (forall d, P (Mem.HNumber d)) ->
  (forall p str, P (Mem.HString p str)) ->
  (forall a, Forall P (Mem.a_elems a) -> P (Mem.HArray a)) ->
  (forall o, Forall (fun p => P (Mem.p_value p)) (Mem.o_slots o) ->
             P (Mem.HObject o)) ->
  forall v, P v.
Proof.
  intros Hnull Hbool Hnum Hstr Harr Hobj.
  fix IH 1. intros v.
  destruct v as [| b | d | p str | [buf vs cap] | [buf ps cap]].
  - exact Hnull.
  - apply Hbool.
  - apply Hnum.
  - apply Hstr.
  - apply Harr. cbn [Mem.a_elems].
    induction vs as [|x vs IHvs]; constructor; [apply IH | exact IHvs].
  - apply Hobj. cbn [Mem.o_slots].
    induction ps as [|x ps IHps]; constructor; [apply IH | exact IHps].
Qed.

(** [free_value] releases the blocks of the value, each one once, and
    leaves the rest of the heap as it is. *)
Lemma free_value_holds (v : Mem.HValue) :
  forall h hk F,
    Mem.holds h hk (Mem.blocks v ++ F) ->
    exists hk', Mem.free_value v hk = Some hk' /\ Mem.holds h hk' F.
Proof.
  induction v as [| b | d | p str | a IH | o IH] using HValue_tree_ind;
    intros h hk F Hh;
    try (exists hk; split; [reflexivity | exact Hh]).
  - cbn [Mem.blocks Mem.free_value] in *. now apply holds_free_ptr.
  - cbn [Mem.blocks Mem.free_value] in *.
    unfold Mem.blocks_array, Mem.free_array in *.
    rewrite <- app_assoc in Hh.
    destruct (free_elems_holds _ IH _ _ _ Hh) as (hk1 & -> & H1).
    now apply holds_free_ptr.
  - cbn [Mem.blocks Mem.free_value] in *.
    unfold Mem.blocks_object, Mem.free_object in *.
    rewrite <- app_assoc in Hh.
    destruct (free_slots_holds _ IH _ _ _ Hh) as (hk1 & -> & H1).
    now apply holds_free_ptr.
Qed.

Lemma free_array_holds (a : Mem.HArray') (h hk : Mem.heap) (F : list nat) :
  Mem.holds h hk (Mem.blocks_array Mem.blocks a ++ F) ->
  exists hk', Mem.free_array Mem.free_value a hk = Some hk' /\
              Mem.holds h hk' F.
Proof. apply (free_value_holds (Mem.HArray a)). Qed.

Lemma free_object_holds (o : Mem.HObject') (h hk : Mem.heap) (F : list nat) :
  Mem.holds h hk (Mem.blocks_object Mem.blocks o ++ F) ->
  exists hk', Mem.free_object Mem.free_value o hk = Some hk' /\
              Mem.holds h hk' F.
Proof. apply (free_value_holds (Mem.HObject o)). Qed.

Lemma free_array_back (out : Mem.HArray') (h0 hk : Mem.heap) :
  Mem.holds h0 hk (Mem.blocks_array Mem.blocks out) ->
  exists h', Mem.free_array Mem.free_value out hk = Some h' /\
             Mem.holds h0 h' [].
Proof.
  intros H. rewrite <- (app_nil_r (Mem.blocks_array Mem.blocks out)) in H.
  now apply free_array_holds.
Qed.

Lemma free_object_back (out : Mem.HObject') (h0 hk : Mem.heap) :
  Mem.holds h0 hk (Mem.blocks_object Mem.blocks out) ->
  exists h', Mem.free_object Mem.free_value out hk = Some h' /\
             Mem.holds h0 h' [].
Proof.
  intros H. rewrite <- (app_nil_r (Mem.blocks_object Mem.blocks out)) in H.
  now apply free_object_holds.
Qed.

Lemma jy_free_holds (doc : Mem.HDocument) (h hk : Mem.heap) :
  Mem.holds h hk (Mem.blocks_document doc) ->
  exists h', Mem.jy_free doc hk = Some h' /\ Mem.holds h h' [].
Proof.
  unfold Mem.blocks_document, Mem.jy_free. intros Hh.
  destruct (free_object_holds _ _ _ _ Hh) as (hk1 & -> & H1).
  now apply free_back.
Qed.

(** ** The string parser on the heap *)

(** The calls of [free] before a [return NULL]. *)
Ltac gives_back H :=
  let h' := fresh "h'" in
  let Hb := fresh "Hb" in
  first [ destruct (free_back _ _ _ H) as (h' & -> & Hb)
        | destruct (free_array_back _ _ _ H) as (h' & -> & Hb)
        | destruct (free_object_back _ _ _ H) as (h' & -> & Hb) ];
  cbn [Mem.give_back].

Lemma mem_string_push (p : Mem.hptr) (val : string) (cap : N) (c : ascii)
      (h0 hk : Mem.heap) (val1 : string) (cap1 : N) :
  string_push val cap c = (val1, cap1) ->
  Mem.holds h0 hk (Mem.block_of p) ->
  match Mem.string_push p val cap c hk with
  | Some (Some (p', val', cap'), hk') =>
      val' = val1 /\ cap' = cap1 /\ Mem.holds h0 hk' (Mem.block_of p')
  | Some (None, hk') =>
      Mem.holds h0 hk' (Mem.block_of p) /\ Mem.willing h0 = false
  | None => False
  end.
Proof.
  unfold string_push, Mem.string_push. intros [= <- <-] H.
  destruct (N.of_nat (String.length val) =? cap)%N.
  - assert (H1 : Mem.holds h0 hk (Mem.block_of p ++ []))
      by now rewrite app_nil_r.
    pose proof (holds_realloc _ _ _ _ H1) as Hr.
    destruct (Mem.realloc p hk) as [[[|b] hk']|]; [| |contradiction].
    + now rewrite app_nil_r in Hr.
    + split; [reflexivity|]. split; [reflexivity | exact Hr].
  - split; [reflexivity|]. split; [reflexivity | exact H].
Qed.

Lemma mem_parse_string_loop (s : string) :
  forall (p : Mem.hptr) (val : string) (cap : N) (h0 hk : Mem.heap),
    Mem.holds h0 hk (Mem.block_of p) ->
    match Mem.parse_string_loop s p val cap hk with
    | Mem.Done (p', val', cap') rest h' =>
        parse_string_loop s val cap = Some (val', cap', rest) /\
        Mem.holds h0 h' (Mem.block_of p')
    | Mem.Nothing h' =>
        Mem.holds h0 h' [] /\
        (Mem.willing h0 = true -> parse_string_loop s val cap = None)
    | Mem.Fuel => False
    | Mem.Fault => False
    end.
Proof.
  assert (H : forall n s, (String.length s <= n)%nat ->
    forall (p : Mem.hptr) (val : string) (cap : N) (h0 hk : Mem.heap),
      Mem.holds h0 hk (Mem.block_of p) ->
      match Mem.parse_string_loop s p val cap hk with
      | Mem.Done (p', val', cap') rest h' =>
          parse_string_loop s val cap = Some (val', cap', rest) /\
          Mem.holds h0 h' (Mem.block_of p')
      | Mem.Nothing h' =>
          Mem.holds h0 h' [] /\
          (Mem.willing h0 = true -> parse_string_loop s val cap = None)
      | Mem.Fuel => False
      | Mem.Fault => False
      end).
  { clear s. induction n as [|n IH]; intros [|c s] Hn p val cap h0 hk Hh;
      simpl in Hn; try lia;
      try (cbn [Mem.parse_string_loop parse_string_loop];
           gives_back Hh; split; [assumption | reflexivity]).
    cbn [Mem.parse_string_loop parse_string_loop].
    destruct (Ascii.eqb c DQUOTE); [split; [reflexivity | exact Hh]|].
    destruct (Ascii.eqb c LF || Ascii.eqb c NUL);
      [gives_back Hh; split; [assumption | reflexivity]|].
    destruct (Ascii.eqb c BACKSLASH).
    - destruct s as [|e s];
        [gives_back Hh; split; [assumption | reflexivity]|].
      destruct (escape e) as [c'|];
        [|gives_back Hh; split; [assumption | reflexivity]].
      destruct (string_push val cap c') as [val1 cap1] eqn:E.
      pose proof (mem_string_push p val cap c' h0 hk val1 cap1 E Hh) as Hp.
      destruct (Mem.string_push p val cap c' hk)
        as [[[[[p' val'] cap']|] hk']|]; [| |contradiction].
      + destruct Hp as (-> & -> & H').
        apply IH; [simpl in Hn; lia | exact H'].
      + destruct Hp as [H' Hw]. gives_back H'.
        split; [assumption | congruence].
    - destruct (string_push val cap c) as [val1 cap1] eqn:E.
      pose proof (mem_string_push p val cap c h0 hk val1 cap1 E Hh) as Hp.
      destruct (Mem.string_push p val cap c hk)
        as [[[[[p' val'] cap']|] hk']|]; [| |contradiction].
      + destruct Hp as (-> & -> & H'). apply IH; [lia | exact H'].
      + destruct Hp as [H' Hw]. gives_back H'.
        split; [assumption | congruence]. }
  apply (H (String.length s)). lia.
Qed.

Lemma mem_parse_string (s : string) (h : Mem.heap) :
  match Mem.parse_string s h with
  | Mem.Done (p, val) rest h' =>
      parse_string s = Some (val, rest) /\ Mem.holds h h' (Mem.block_of p)
  | Mem.Nothing h' =>
      Mem.holds h h' [] /\ (Mem.willing h = true -> parse_string s = None)
  | Mem.Fuel => False
  | Mem.Fault => False
  end.
Proof.
  unfold Mem.parse_string, parse_string.
  destruct (negb (Ascii.eqb (peek s) DQUOTE));
    [split; [apply holds_nil | reflexivity]|].
  pose proof (mem_parse_string_loop (advance s) Mem.Null "" 0%N h h
                (holds_nil h)) as H.
  destruct (Mem.parse_string_loop (advance s) Mem.Null "" 0 h)
    as [[[p val] cap] rest h'|h'| |]; try contradiction.
  2: { destruct H as [H Hn]. split; [assumption|].
       intros W. now rewrite (Hn W). }
  destruct H as [-> Hh]. cbv zeta.
  assert (H1 : match (if (cap =? N.of_nat (String.length val))%N
                      then match Mem.realloc p h' with
                           | Some (Mem.Null, h1) => Some (None, h1)
                           | Some (newval, h1) => Some (Some newval, h1)
                           | None => None
                           end
                      else Some (Some p, h')) with
               | Some (Some p1, h1) => Mem.holds h h1 (Mem.block_of p1)
               | Some (None, h1) =>
                   Mem.holds h h1 (Mem.block_of p) /\ Mem.willing h = false
               | None => False
               end).
  { destruct (cap =? N.of_nat (String.length val))%N; [|exact Hh].
    assert (Hh' : Mem.holds h h' (Mem.block_of p ++ []))
      by now rewrite app_nil_r.
    pose proof (holds_realloc _ _ _ _ Hh') as Hr.
    destruct (Mem.realloc p h') as [[[|b] h1]|]; [| |contradiction].
    - now rewrite app_nil_r in Hr.
    - exact Hr. }
  destruct (if (cap =? N.of_nat (String.length val))%N
            then match Mem.realloc p h' with
                 | Some (Mem.Null, h1) => Some (None, h1)
                 | Some (newval, h1) => Some (Some newval, h1)
                 | None => None
                 end
            else Some (Some p, h')) as [[[p1|] h1]|]; [| |contradiction].
  - assert (H2 : Mem.holds h h1 (Mem.block_of p1 ++ []))
      by now rewrite app_nil_r.
    pose proof (holds_realloc _ _ _ _ H2) as Hr.
    destruct (Mem.realloc p1 h1) as [[[|b] h2]|]; [| |contradiction].
    + destruct Hr as [Hr _]. rewrite app_nil_r in Hr.
      split; [reflexivity | exact Hr].
    + split; [reflexivity | exact Hr].
  - destruct H1 as [H1 Hw]. gives_back H1.
    split; [assumption | congruence].
Qed.

Lemma parse_string_first (s : string) :
  parse_string s <> None -> peek s = DQUOTE.
Proof.
  unfold parse_string. intros H.
  destruct (Ascii.eqb (peek s) DQUOTE) eqn:E;
    [now apply Ascii.eqb_eq in E | now elim H].
Qed.

(** ** The containers on the heap *)

Lemma blocks_slots_insert (ps : list Mem.HPair) (n : nat) (x : Mem.HPair) :
  (forall b,
      In b (Mem.blocks_slots Mem.blocks (firstn n ps ++ x :: skipn n ps))
      <-> In b (Mem.blocks_slots Mem.blocks ps)
          \/ In b (Mem.block_of (Mem.p_key x) ++ Mem.blocks (Mem.p_value x))) /\
  List.length (Mem.blocks_slots Mem.blocks (firstn n ps ++ x :: skipn n ps))
  = (List.length (Mem.blocks_slots Mem.blocks ps)
     + List.length (Mem.block_of (Mem.p_key x) ++ Mem.blocks (Mem.p_value x)))%nat.
Proof.
  unfold Mem.blocks_slots.
  set (f := fun p : Mem.HPair =>
              (Mem.block_of (Mem.p_key p) ++ Mem.blocks (Mem.p_value p))%list).
  assert (E : flat_map f ps
              = (flat_map f (firstn n ps) ++ flat_map f (skipn n ps))%list)
    by (now rewrite <- flat_map_app, firstn_skipn).
  rewrite E, !flat_map_app. cbn [flat_map]. fold (f x).
  split; [|rewrite !length_app; lia].
  intros b. rewrite !in_app_iff. tauto.
Qed.

Lemma erase_insert (ps : list Mem.HPair) (l : Z) (x : Mem.HPair) :
  map (Mem.erase_pair Mem.erase)
      (firstn (Z.to_nat l) ps ++ x :: skipn (Z.to_nat l) ps)
  = insert_at (map (Mem.erase_pair Mem.erase) ps) l (Mem.erase_pair Mem.erase x).
Proof.
  unfold insert_at. rewrite map_app. cbn [map].
  now rewrite firstn_map, skipn_map.
Qed.

Section OnTheHeap.

(** The two value parsers the containers call back into, which agree. *)
Variable pv_h : string -> Mem.heap -> Mem.outcome Mem.HValue.
Variable pv : string -> result JYValue.
Hypothesis pv_agree :
  forall s h, Mem.agrees Mem.erase Mem.blocks h (pv_h s h) (pv s).

Lemma mem_array_push (out : Mem.HArray') (v : Mem.HValue) (h0 hk : Mem.heap) :
  Mem.holds h0 hk (Mem.blocks_array Mem.blocks out ++ Mem.blocks v) ->
  match Mem.array_push out v hk with
  | Some (Some out', hk') =>
      Mem.erase_array Mem.erase out'
      = array_push (Mem.erase_array Mem.erase out) (Mem.erase v) /\
      Mem.holds h0 hk' (Mem.blocks_array Mem.blocks out')
  | Some (None, hk') =>
      Mem.holds h0 hk' (Mem.blocks v ++ Mem.blocks_array Mem.blocks out) /\
      Mem.willing h0 = false
  | None => False
  end.
Proof.
  intros H. unfold Mem.array_push, array_push, Mem.erase_array.
  unfold a_count, Mem.a_count. cbn [values a_capacity].
  rewrite length_map.
  destruct (N.of_nat (List.length (Mem.a_elems out)) =? Mem.a_cap out)%N.
  - assert (H1 : Mem.holds h0 hk
                   (Mem.block_of (Mem.a_values out)
                    ++ (Mem.blocks_elems Mem.blocks (Mem.a_elems out)
                        ++ Mem.blocks v))).
    { revert H. unfold Mem.blocks_array. apply holds_same; same_blocks. }
    pose proof (holds_realloc _ _ _ _ H1) as Hr.
    destruct (Mem.realloc (Mem.a_values out) hk) as [[[|b] hk']|];
      [| |contradiction].
    + destruct Hr as [Hr Hw]. split; [|assumption].
      revert Hr. unfold Mem.blocks_array. apply holds_same; same_blocks.
    + cbn [Mem.a_elems Mem.a_cap]. split; [now rewrite map_app|].
      revert Hr. unfold Mem.blocks_array, Mem.blocks_elems.
      cbn [Mem.a_elems Mem.a_values Mem.block_of].
      rewrite flat_map_app. cbn [flat_map]. apply holds_same; same_blocks.
  - cbn [Mem.a_elems Mem.a_cap]. split; [now rewrite map_app|].
    revert H. unfold Mem.blocks_array, Mem.blocks_elems.
    cbn [Mem.a_elems Mem.a_values].
    rewrite flat_map_app. cbn [flat_map]. apply holds_same; same_blocks.
Qed.

Lemma mem_parse_element (s : string) (out : Mem.HArray') (h0 hk : Mem.heap) :
  Mem.holds h0 hk (Mem.blocks_array Mem.blocks out) ->
  Mem.agrees (Mem.erase_array Mem.erase) (Mem.blocks_array Mem.blocks) h0
             (Mem.parse_element pv_h s out hk)
             (parse_element pv s (Mem.erase_array Mem.erase out)).
Proof.
  intros H. unfold Mem.parse_element, parse_element.
  pose proof (pv_agree s hk) as Hv.
  destruct (pv_h s hk) as [v r hk'|hk'| |]; cbn [Mem.agrees] in Hv;
    try contradiction.
  - destruct Hv as [-> Hv].
    pose proof (holds_compose _ _ _ _ _ H Hv) as H1.
    pose proof (mem_array_push out v h0 hk' H1) as Hp.
    destruct (Mem.array_push out v hk') as [[[out'|] hk'']|];
      [| |contradiction].
    + destruct Hp as [<- H2]. cbv zeta.
      destruct (Ascii.eqb (peek (parse_space r)) ",");
        [split; [reflexivity | exact H2]|].
      destruct (negb (Ascii.eqb (peek (parse_space r)) "]")).
      * gives_back H2. split; [assumption | reflexivity].
      * split; [reflexivity | exact H2].
    + destruct Hp as [H2 Hw].
      destruct (free_value_holds _ _ _ _ H2) as (hk3 & -> & H3).
      gives_back H3. split; [assumption | congruence].
  - destruct Hv as [Hv Hf]. pose proof (holds_then _ _ _ _ H Hv) as H1.
    gives_back H1. split; [assumption|].
    intros W. now rewrite (Hf (holds_willing _ _ _ H W)).
  - rewrite Hv. reflexivity.
Qed.

Lemma mem_parse_array_loop (n : nat) :
  forall (s : string) (out : Mem.HArray') (h0 hk : Mem.heap),
    Mem.holds h0 hk (Mem.blocks_array Mem.blocks out) ->
    Mem.agrees (Mem.erase_array Mem.erase) (Mem.blocks_array Mem.blocks) h0
               (Mem.parse_array_loop pv_h n s out hk)
               (parse_array_loop pv n s (Mem.erase_array Mem.erase out)).
Proof.
  induction n as [|n IH]; intros s out h0 hk H;
    cbn [Mem.parse_array_loop parse_array_loop];
    destruct (Ascii.eqb (peek s) "]");
    try (split; [reflexivity | exact H]); try reflexivity.
  pose proof (mem_parse_element s out h0 hk H) as He.
  destruct (Mem.parse_element pv_h s out hk) as [out' r hk'|hk'| |];
    cbn [Mem.agrees] in He; try contradiction.
  - destruct He as [-> He]. now apply IH.
  - destruct He as [He Hf]. split; [assumption|].
    intros W. now rewrite (Hf W).
  - rewrite He. reflexivity.
Qed.

Lemma mem_parse_array (s : string) (h : Mem.heap) :
  Mem.agrees (Mem.erase_array Mem.erase) (Mem.blocks_array Mem.blocks) h
             (Mem.parse_array pv_h s h) (parse_array pv s).
Proof.
  unfold Mem.parse_array, parse_array.
  destruct (negb (Ascii.eqb (peek s) "["));
    [split; [apply holds_nil | reflexivity]|].
  cbv zeta.
  destruct (Ascii.eqb (peek (parse_space (advance s))) NUL);
    [split; [apply holds_nil | reflexivity]|].
  apply (mem_parse_array_loop _ _ (Mem.mkHArray Mem.Null [] 0%N)).
  apply holds_nil.
Qed.

Lemma mem_object_grow (out : Mem.HObject') (F : list nat) (h0 hk : Mem.heap) :
  Mem.holds h0 hk (Mem.block_of (Mem.o_pairs out) ++ F) ->
  match Mem.object_grow out hk with
  | Some (Some out1, hk1) =>
      Mem.o_slots out1 = Mem.o_slots out /\
      Mem.o_cap out1
      = (if (Mem.o_count out =? Mem.o_cap out)%N
         then (Mem.o_cap out + JAYCEON_OBJECT_GROWTH)%N else Mem.o_cap out) /\
      Mem.holds h0 hk1 (Mem.block_of (Mem.o_pairs out1) ++ F)
  | Some (None, hk1) =>
      Mem.holds h0 hk1 (Mem.block_of (Mem.o_pairs out) ++ F) /\
      Mem.willing h0 = false
  | None => False
  end.
Proof.
  intros H. unfold Mem.object_grow.
  destruct (Mem.o_count out =? Mem.o_cap out)%N.
  - pose proof (holds_realloc _ _ _ _ H) as Hr.
    destruct (Mem.realloc (Mem.o_pairs out) hk) as [[[|b] hk']|];
      [| |contradiction].
    + exact Hr.
    + split; [reflexivity|]. split; [reflexivity | exact Hr].
  - split; [reflexivity|]. split; [reflexivity | exact H].
Qed.

(** The key, the value and the object released, as on three of the ways
    out of the loop of [parse_object]. *)
Lemma free_pair_back (kp : Mem.hptr) (v : Mem.HValue) (out : Mem.HObject')
      (h0 hk : Mem.heap) :
  Mem.holds h0 hk (Mem.block_of kp
                   ++ Mem.blocks v ++ Mem.blocks_object Mem.blocks out) ->
  exists h',
    match Mem.free kp hk with
    | Some h =>
        match Mem.free_value v h with
        | Some h => Mem.give_back (Mem.free_object Mem.free_value out h)
        | None => Mem.Fault
        end
    | None => Mem.Fault
    end = (Mem.Nothing h' : Mem.outcome Mem.HObject') /\
    Mem.holds h0 h' [].
Proof.
  intros H.
  destruct (holds_free_ptr _ _ _ _ H) as (h1 & -> & H1).
  destruct (free_value_holds _ _ _ _ H1) as (h2 & -> & H2).
  gives_back H2. now exists h'.
Qed.

Lemma free_key_back (kp : Mem.hptr) (out : Mem.HObject') (h0 hk : Mem.heap) :
  Mem.holds h0 hk (Mem.blocks_object Mem.blocks out ++ Mem.block_of kp) ->
  exists h',
    match Mem.free kp hk with
    | Some h => Mem.give_back (Mem.free_object Mem.free_value out h)
    | None => Mem.Fault
    end = (Mem.Nothing h' : Mem.outcome Mem.HObject') /\
    Mem.holds h0 h' [].
Proof.
  intros H.
  assert (H' : Mem.holds h0 hk (Mem.block_of kp
                                ++ Mem.blocks_object Mem.blocks out))
    by (revert H; apply holds_same; same_blocks).
  destruct (holds_free_ptr _ _ _ _ H') as (h1 & -> & H1).
  gives_back H1. now exists h'.
Qed.

Lemma mem_parse_pair (s : string) (out : Mem.HObject') (h0 hk : Mem.heap) :
  Mem.holds h0 hk (Mem.blocks_object Mem.blocks out) ->
  Mem.agrees (Mem.erase_object Mem.erase) (Mem.blocks_object Mem.blocks) h0
             (Mem.parse_pair pv_h s out hk)
             (parse_pair pv s (Mem.erase_object Mem.erase out)).
Proof.
  intros H. unfold Mem.parse_pair, parse_pair.
  pose proof (mem_parse_string s hk) as Hk.
  destruct (Mem.parse_string s hk) as [[kp k] r1 hk1|hk1| |];
    try contradiction.
  2: { destruct Hk as [Hk Hf]. pose proof (holds_then _ _ _ _ H Hk) as H1.
       gives_back H1. split; [assumption|].
       intros W. now rewrite (Hf (holds_willing _ _ _ H W)). }
  destruct Hk as [-> Hk]. cbv zeta.
  pose proof (holds_compose _ _ _ _ _ H Hk) as H1.
  destruct (negb (Ascii.eqb (peek (parse_space r1)) ":")).
  { destruct (free_key_back _ _ _ _ H1) as (h' & -> & Hb).
    split; [assumption | reflexivity]. }
  set (s2 := parse_space (advance (parse_space r1))).
  pose proof (pv_agree s2 hk1) as Hv.
  destruct (pv_h s2 hk1) as [v r2 hk2|hk2| |]; cbn [Mem.agrees] in Hv;
    try contradiction.
  2: { destruct Hv as [Hv Hf].
       destruct (free_key_back _ _ _ _ (holds_then _ _ _ _ H1 Hv))
         as (h' & -> & Hb).
       split; [assumption|].
       intros W. now rewrite (Hf (holds_willing _ _ _ H1 W)). }
  2: { rewrite Hv. reflexivity. }
  destruct Hv as [-> Hv].
  pose proof (holds_compose _ _ _ _ _ H1 Hv) as H2.
  assert (H3 : Mem.holds h0 hk2
                 (Mem.block_of (Mem.o_pairs out)
                  ++ (Mem.blocks_slots Mem.blocks (Mem.o_slots out)
                      ++ Mem.block_of kp ++ Mem.blocks v))).
  { revert H2. unfold Mem.blocks_object. apply holds_same; same_blocks. }
  pose proof (mem_object_grow out _ h0 hk2 H3) as Hg.
  destruct (Mem.object_grow out hk2) as [[[out1|] hk3]|]; [| |contradiction].
  2: { destruct Hg as [H4 Hw].
       assert (H5 : Mem.holds h0 hk3
                      (Mem.block_of kp
                       ++ Mem.blocks v ++ Mem.blocks_object Mem.blocks out)).
       { revert H4. unfold Mem.blocks_object. apply holds_same; same_blocks. }
       destruct (free_pair_back _ _ _ _ _ H5) as (h' & -> & Hb).
       split; [assumption | congruence]. }
  destruct Hg as (Hslots & Hcap & H4).
  assert (H5 : Mem.holds h0 hk3
                 (Mem.block_of kp
                  ++ Mem.blocks v ++ Mem.blocks_object Mem.blocks out1)).
  { revert H4. unfold Mem.blocks_object. rewrite Hslots.
    apply holds_same; same_blocks. }
  unfold object_insert, Mem.erase_object, o_count, Mem.o_count in *.
  cbn [pairs o_capacity]. rewrite Hslots, length_map.
  destruct (key_search (map (Mem.erase_pair Mem.erase) (Mem.o_slots out)) k 0
              (Z.of_N (N.of_nat (List.length (Mem.o_slots out))) - 1))
    as [m|l|].
  - destruct (free_pair_back _ _ _ _ _ H5) as (h' & -> & Hb).
    split; [assumption | reflexivity].
  - set (x := Mem.mkHPair kp k v).
    set (out2 := Mem.mkHObject (Mem.o_pairs out1)
                   (firstn (Z.to_nat l) (Mem.o_slots out)
                    ++ x :: skipn (Z.to_nat l) (Mem.o_slots out))
                   (Mem.o_cap out1)).
    assert (H6 : Mem.holds h0 hk3 (Mem.blocks_object Mem.blocks out2)).
    { revert H4. unfold Mem.blocks_object, out2.
      cbn [Mem.o_slots Mem.o_pairs].
      destruct (blocks_slots_insert (Mem.o_slots out) (Z.to_nat l) x)
        as [Hin Hlen].
      apply holds_same.
      - intros b. rewrite !in_app_iff, Hin. cbn [x Mem.p_key Mem.p_value].
        rewrite !in_app_iff. tauto.
      - rewrite !length_app, Hlen. cbn [x Mem.p_key Mem.p_value].
        rewrite !length_app. lia. }
    assert (He : mkObject
                   (insert_at (map (Mem.erase_pair Mem.erase) (Mem.o_slots out))
                              l (mkPair k (Mem.erase v)))
                   (if (N.of_nat (List.length (Mem.o_slots out)) =? Mem.o_cap out)%N
                    then (Mem.o_cap out + JAYCEON_OBJECT_GROWTH)%N
                    else Mem.o_cap out)
                 = Mem.erase_object Mem.erase out2).
    { unfold Mem.erase_object, out2. cbn [Mem.o_slots Mem.o_cap].
      rewrite erase_insert, Hcap. reflexivity. }
    cbn [Mem.erase_object] in He. rewrite He.
    fold x. fold out2.
    destruct (Ascii.eqb (peek (parse_space r2)) ",");
      [split; [reflexivity | exact H6]|].
    destruct (negb (Ascii.eqb (peek (parse_space r2)) "}")).
    + gives_back H6. split; [assumption | reflexivity].
    + split; [reflexivity | exact H6].
  - destruct (free_pair_back _ _ _ _ _ H5) as (h' & -> & Hb).
    split; [assumption | reflexivity].
Qed.

Lemma mem_parse_object_loop (n : nat) :
  forall (s : string) (out : Mem.HObject') (h0 hk : Mem.heap),
    Mem.holds h0 hk (Mem.blocks_object Mem.blocks out) ->
    Mem.agrees (Mem.erase_object Mem.erase) (Mem.blocks_object Mem.blocks) h0
               (Mem.parse_object_loop pv_h n s out hk)
               (parse_object_loop pv n s (Mem.erase_object Mem.erase out)).
Proof.
  induction n as [|n IH]; intros s out h0 hk H;
    cbn [Mem.parse_object_loop parse_object_loop];
    destruct (Ascii.eqb (peek s) "}");
    try (split; [reflexivity | exact H]); try reflexivity.
  pose proof (mem_parse_pair s out h0 hk H) as He.
  destruct (Mem.parse_pair pv_h s out hk) as [out' r hk'|hk'| |];
    cbn [Mem.agrees] in He; try contradiction.
  - destruct He as [-> He]. now apply IH.
  - destruct He as [He Hf]. split; [assumption|].
    intros W. now rewrite (Hf W).
  - rewrite He. reflexivity.
Qed.

Lemma mem_parse_object (s : string) (h : Mem.heap) :
  Mem.agrees (Mem.erase_object Mem.erase) (Mem.blocks_object Mem.blocks) h
             (Mem.parse_object pv_h s h) (parse_object pv s).
Proof.
  unfold Mem.parse_object, parse_object.
  destruct (negb (Ascii.eqb (peek s) "{"));
    [split; [apply holds_nil | reflexivity]|].
  cbv zeta.
  destruct (Ascii.eqb (peek (parse_space (advance s))) NUL);
    [split; [apply holds_nil | reflexivity]|].
  apply (mem_parse_object_loop _ _ (Mem.mkHObject Mem.Null [] 0%N)).
  apply holds_nil.
Qed.

(** A text that does not start a container: both parsers of containers
    return [NULL] at once. *)
Lemma mem_parse_array_first (s : string) (h : Mem.heap) :
  Ascii.eqb (peek s) "[" = false -> Mem.parse_array pv_h s h = Mem.Nothing h.
Proof. intros H. unfold Mem.parse_array. now rewrite H. Qed.

Lemma mem_parse_object_first (s : string) (h : Mem.heap) :
  Ascii.eqb (peek s) "{" = false -> Mem.parse_object pv_h s h = Mem.Nothing h.
Proof. intros H. unfold Mem.parse_object. now rewrite H. Qed.

End OnTheHeap.

Lemma parse_array_starts pv (s : string) :
  parse_array pv s <> Fail -> peek s = "["%char.
Proof.
  intros H. destruct (Ascii.eqb (peek s) "[") eqn:E;
    [now apply Ascii.eqb_eq in E | now elim H; apply parse_array_first].
Qed.

(** The value dispatcher on the heap agrees with the dispatcher of the
    first embedding. *)
Lemma mem_parse_value (fuel : nat) :
  forall (s : string) (h : Mem.heap),
    Mem.agrees Mem.erase Mem.blocks h (Mem.parse_value fuel s h)
               (parse_value fuel s).
Proof.
  induction fuel as [|fuel IH]; intros s h; [reflexivity|].
  cbn [Mem.parse_value]. rewrite parse_value_unfold.
  destruct (parse_null s); [split; [reflexivity | apply holds_nil]|].
  destruct (parse_bool s) as [[b t]|];
    [split; [reflexivity | apply holds_nil]|].
  destruct (parse_number s) as [[d t]|];
    [split; [reflexivity | apply holds_nil]|].
  pose proof (mem_parse_string s h) as Hs.
  destruct (Mem.parse_string s h) as [[p str] t h1|h1| |];
    try contradiction.
  { destruct Hs as [-> Hs]. split; [reflexivity | exact Hs]. }
  destruct Hs as [Hs Hsf].
  destruct (parse_string s) as [[str t]|] eqn:Eps.
  { (* the string was given up for a refusal *)
    assert (Hq : peek s = DQUOTE) by (apply parse_string_first; congruence).
    rewrite mem_parse_array_first, mem_parse_object_first
      by (rewrite Hq; reflexivity).
    split; [assumption|]. intros W. now specialize (Hsf W). }
  clear Hsf.
  pose proof (mem_parse_array _ _ IH s h1) as Ha.
  destruct (Mem.parse_array (Mem.parse_value fuel) s h1) as [a t h2|h2| |];
    cbn [Mem.agrees] in Ha; try contradiction.
  { destruct Ha as [-> Ha]. split; [reflexivity|].
    exact (holds_after _ _ _ _ Hs Ha). }
  2: { rewrite Ha. reflexivity. }
  destruct Ha as [Ha Haf].
  pose proof (holds_after _ _ _ _ Hs Ha) as Hs2.
  destruct (Ascii.eqb (peek s) "[") eqn:Eb.
  { (* an array, given up or not *)
    apply Ascii.eqb_eq in Eb.
    rewrite mem_parse_object_first by (rewrite Eb; reflexivity).
    split; [assumption|]. intros W.
    rewrite (Haf (holds_willing _ _ _ Hs W)).
    rewrite parse_object_first by (rewrite Eb; reflexivity). reflexivity. }
  rewrite (parse_array_first _ _ Eb).
  pose proof (mem_parse_object _ _ IH s h2) as Ho.
  destruct (Mem.parse_object (Mem.parse_value fuel) s h2) as [o t h3|h3| |];
    cbn [Mem.agrees] in Ho; try contradiction.
  - destruct Ho as [-> Ho]. split; [reflexivity|].
    exact (holds_after _ _ _ _ Hs2 Ho).
  - destruct Ho as [Ho Hof]. split; [exact (holds_after _ _ _ _ Hs2 Ho)|].
    intros W. now rewrite (Hof (holds_willing _ _ _ Hs2 W)).
  - rewrite Ho. reflexivity.
Qed.

(** [jy_parse] on the heap: the document of the first embedding, held by
    the heap, or no document and the blocks of the heap as they were. *)
Lemma mem_jy_parse (s : string) (h : Mem.heap) :
  match Mem.jy_parse s h with
  | Mem.Done doc rest h' =>
      jy_parse s = Some (Mem.erase_document doc) /\
      Mem.holds h h' (Mem.blocks_document doc)
  | Mem.Nothing h' =>
      Mem.holds h h' [] /\ (Mem.willing h = true -> jy_parse s = None)
  | Mem.Fuel => False
  | Mem.Fault => False
  end.
Proof.
  unfold Mem.jy_parse, jy_parse.
  pose proof (holds_malloc h h [] (holds_nil h)) as Hm.
  destruct (Mem.malloc h) as [[|b] h1].
  { destruct Hm as [Hm Hw]. split; [assumption | congruence]. }
  cbn [app] in Hm.
  pose proof (mem_parse_object _ _ (mem_parse_value (String.length s)) s h1)
    as Ho.
  pose proof (parse_root_total s) as Htot. unfold parse_root in *.
  destruct (Mem.parse_object (Mem.parse_value (String.length s)) s h1)
    as [o rest h'|h'| |]; cbn [Mem.agrees] in Ho; try contradiction.
  - destruct Ho as [-> Ho]. split; [reflexivity|].
    unfold Mem.blocks_document. cbn [Mem.d_root Mem.d_ptr Mem.block_of].
    apply holds_same with ([b] ++ Mem.blocks_object Mem.blocks o)%list;
      [same_blocks.. |].
    exact (holds_compose _ _ _ _ _ Hm Ho).
  - destruct Ho as [Ho Hf].
    pose proof (holds_then _ _ _ _ Hm Ho) as H1.
    destruct (free_back _ _ (Mem.Block b) H1) as (h2 & -> & H2).
    cbn [Mem.give_back]. split; [assumption|].
    intros W. now rewrite (Hf (holds_willing _ _ _ Hm W)).
Qed.

(** ** What [free_value] releases *)

Lemma releases_nil : Mem.releases [] (fun h => Some h).
Proof.
  intros h. split; [constructor|]. split; [intros b []|].
  split; [|reflexivity]. intros b. cbn [In]. tauto.
Qed.

Lemma releases_free (p : Mem.hptr) : Mem.releases (Mem.block_of p) (Mem.free p).
Proof.
  intros h. destruct p as [|b]; [apply releases_nil|].
  cbn [Mem.free Mem.block_of].
  destruct (in_dec Nat.eq_dec b (Mem.live h)) as [Hb|Hb].
  - cbn [Mem.live Mem.refusals].
    split; [constructor; [intros [] | constructor]|].
    split; [intros x [<-|[]]; assumption|]. split; [|reflexivity].
    intros x. cbn [In]. split.
    + intros Hx. apply in_remove in Hx as [Hx Hne]. split; [assumption|].
      intros [->|[]]. now apply Hne.
    + intros [Hx Hne]. apply in_in_remove; [|assumption].
      intros ->. apply Hne. now left.
  - intros [_ Hin]. apply Hb, Hin. now left.
Qed.

Lemma NoDup_app_apart {A : Type} (l l' : list A) (a : A) :
  NoDup (l ++ l') -> In a l -> In a l' -> False.
Proof.
  induction l as [|x l IH]; intros Hnd Hl Hl'; [destruct Hl|].
  cbn [app] in Hnd. inversion Hnd as [|? ? Hx Hnd']; subst.
  destruct Hl as [->|Hl]; [|now apply IH].
  apply Hx. apply in_or_app. now right.
Qed.

Lemma releases_seq (A B : list nat) (f g : Mem.heap -> option Mem.heap) :
  Mem.releases A f -> Mem.releases B g ->
  Mem.releases (A ++ B)
               (fun h => match f h with None => None | Some h1 => g h1 end).
Proof.
  intros Hf Hg h. specialize (Hf h).
  destruct (f h) as [h1|].
  - destruct Hf as (HndA & HinA & HA & HrA). specialize (Hg h1).
    destruct (g h1) as [h2|].
    + destruct Hg as (HndB & HinB & HB & HrB).
      split; [|split; [|split]].
      * apply NoDup_app; auto.
        intros a Ha Hb. apply HinB, HA in Hb. now apply Hb.
      * apply incl_app; [assumption|]. intros b Hb. now apply HinB, HA in Hb.
      * intros b. rewrite HB, HA, in_app_iff. tauto.
      * congruence.
    + intros [Hnd Hin]. apply Hg. split.
      * now apply NoDup_app_remove_l in Hnd.
      * intros b Hb. apply HA. split.
        -- apply Hin. apply in_or_app. now right.
        -- intros Ha. exact (NoDup_app_apart _ _ _ Hnd Ha Hb).
  - intros [Hnd Hin]. apply Hf. split.
    + now apply NoDup_app_remove_r in Hnd.
    + intros b Hb. apply Hin. apply in_or_app. now left.
Qed.

Lemma releases_elems (vs : list Mem.HValue) :
  Forall (fun v => Mem.releases (Mem.blocks v) (Mem.free_value v)) vs ->
  Mem.releases (Mem.blocks_elems Mem.blocks vs)
               (Mem.free_elems Mem.free_value vs).
Proof.
  induction 1 as [|v vs Hv _ IH]; [apply releases_nil|].
  exact (releases_seq _ _ _ _ Hv IH).
Qed.

Lemma releases_slots (ps : list Mem.HPair) :
  Forall (fun p => Mem.releases (Mem.blocks (Mem.p_value p))
                                (Mem.free_value (Mem.p_value p))) ps ->
  Mem.releases (Mem.blocks_slots Mem.blocks ps)
               (Mem.free_slots Mem.free_value ps).
Proof.
  induction 1 as [|p ps Hp _ IH]; [apply releases_nil|].
  intros h.
  pose proof (releases_seq _ _ _ _
                (releases_seq _ _ _ _ (releases_free (Mem.p_key p)) Hp) IH h)
    as H.
  cbn [Mem.blocks_slots flat_map Mem.free_slots]. cbv beta in H.
  destruct (Mem.free (Mem.p_key p) h) as [h1|]; exact H.
Qed.

Lemma free_value_releases (v : Mem.HValue) :
  Mem.releases (Mem.blocks v) (Mem.free_value v).
Proof.
  induction v as [| b | d | p str | a IH | o IH] using HValue_tree_ind;
    try apply releases_nil.
  - apply releases_free.
  - exact (releases_seq _ _ _ _ (releases_elems _ IH)
             (releases_free (Mem.a_values a))).
  - exact (releases_seq _ _ _ _ (releases_slots _ IH)
             (releases_free (Mem.o_pairs o))).
Qed.

Lemma jy_free_releases (doc : Mem.HDocument) :
  Mem.releases (Mem.blocks_document doc) (Mem.jy_free doc).
Proof.
  exact (releases_seq _ _ _ _ (free_value_releases (Mem.HObject (Mem.d_root doc)))
           (releases_free (Mem.d_ptr doc))).
Qed.

(** ** [jy_parse] and [jy_free] on the heap *)


(** When [jy_parse] returns [NULL], for a text it rejects or for a
    request the allocator refused, every block it had allocated is
    released: the blocks allocated afterwards are those allocated
    before. *)
Theorem failed_parse_leaves_no_block (s : string) (h h' : Mem.heap) :
  Mem.jy_parse s h = Mem.Nothing h' -> Mem.live h' = Mem.live h.
Proof.
  intros E. pose proof (mem_jy_parse s h) as H. rewrite E in H.
  now apply holds_nil_eq.
Qed.

Lemma failed_parse_leaves_no_block_example :
  Mem.jy_parse input_nested
               (Mem.mkHeap [3; 7]%nat [false; false; false; true])
  = Mem.Nothing (Mem.mkHeap [3; 7]%nat []) /\
  Mem.jy_parse input_a_a (Mem.mkHeap [3; 7]%nat [])
  = Mem.Nothing (Mem.mkHeap [3; 7]%nat []) /\
  Mem.live (Mem.mkHeap [3; 7]%nat [])
  = Mem.live (Mem.mkHeap [3; 7]%nat [false; false; false; true]).
Proof.
  assert (E : Mem.jy_parse input_nested
                (Mem.mkHeap [3; 7]%nat [false; false; false; true])
              = Mem.Nothing (Mem.mkHeap [3; 7]%nat []))
    by (vm_compute; reflexivity).
  split; [exact E|]. split; [vm_compute; reflexivity|].
  exact (failed_parse_leaves_no_block _ _ _ E).
Defined.

(** The document [jy_parse] returns holds blocks that are distinct
    (no two pointers of the document share a buffer), none of which was
    allocated before the call; and the blocks allocated after the call are
    these and those allocated before, no other. *)
Theorem parsed_document_holds_fresh_blocks
        (s : string) (h : Mem.heap) (doc : Mem.HDocument) (rest : string)
        (h' : Mem.heap) :
  Mem.jy_parse s h = Mem.Done doc rest h' ->
  NoDup (Mem.blocks_document doc) /\
  (forall b, In b (Mem.blocks_document doc) -> ~ In b (Mem.live h)) /\
  (forall b, In b (Mem.live h')
             <-> In b (Mem.blocks_document doc) \/ In b (Mem.live h)).
Proof.
  intros E. pose proof (mem_jy_parse s h) as H. rewrite E in H.
  destruct H as [_ (news & Hl & Hnd & Hin & Hout & _)].
  split; [assumption|]. split; [assumption|].
  intros b. rewrite Hl, in_app_iff, Hin. tauto.
Qed.

Lemma parsed_document_holds_fresh_blocks_example :
  let doc :=
    Mem.mkHDocument (Mem.Block 8)
      (Mem.mkHObject (Mem.Block 10)
         [Mem.mkHPair (Mem.Block 11) "a" (Mem.HNumber Dbl.one);
          Mem.mkHPair (Mem.Block 9) "b" (Mem.HNumber Dbl.zero)] 16%N) in
  let h' := Mem.mkHeap [11; 10; 9; 8; 3; 7]%nat [] in
  Mem.jy_parse input_b_a (Mem.mkHeap [3; 7]%nat []) = Mem.Done doc "" h' /\
  Mem.blocks_document doc = [11; 9; 10; 8]%nat /\
  NoDup (Mem.blocks_document doc) /\
  (forall b, In b (Mem.blocks_document doc) -> ~ In b [3; 7]%nat) /\
  (forall b, In b (Mem.live h')
             <-> In b (Mem.blocks_document doc) \/ In b [3; 7]%nat).
Proof.
  intros doc h'.
  assert (E : Mem.jy_parse input_b_a (Mem.mkHeap [3; 7]%nat [])
              = Mem.Done doc "" h') by (vm_compute; reflexivity).
  split; [exact E|]. split; [reflexivity|].
  exact (parsed_document_holds_fresh_blocks _ _ _ _ _ E).
Defined.

(** [jy_free] on the document [jy_parse] returned is defined, and
    releases all that [jy_parse] allocated: the blocks allocated after it
    are those allocated before the call of [jy_parse]. *)
Theorem parsed_document_is_released
        (s : string) (h : Mem.heap) (doc : Mem.HDocument) (rest : string)
        (h' : Mem.heap) :
  Mem.jy_parse s h = Mem.Done doc rest h' ->
  exists h'', Mem.jy_free doc h' = Some h'' /\ Mem.live h'' = Mem.live h.
Proof.
  intros E. pose proof (mem_jy_parse s h) as H. rewrite E in H.
  destruct H as [_ H].
  destruct (jy_free_holds _ _ _ H) as (h'' & Hf & Hh).
  exists h''. split; [assumption | now apply holds_nil_eq].
Qed.

Lemma parsed_document_is_released_example :
  exists doc h',
    Mem.jy_parse input_nested (Mem.mkHeap [3; 7]%nat [false; false; true])
    = Mem.Done doc "" h' /\
    List.length (Mem.live h') = 11%nat /\
    exists h'', Mem.jy_free doc h' = Some h'' /\ Mem.live h'' = [3; 7]%nat.
Proof.
  eexists. eexists.
  assert (E : forall r, r = Mem.jy_parse input_nested
                            (Mem.mkHeap [3; 7]%nat [false; false; true]) ->
                        Mem.jy_parse input_nested
                          (Mem.mkHeap [3; 7]%nat [false; false; true]) = r)
    by (intros r ->; reflexivity).
  split; [apply E; vm_compute; reflexivity|].
  split; [reflexivity|].
  refine (parsed_document_is_released input_nested
            (Mem.mkHeap [3; 7]%nat [false; false; true]) _ "" _ _).
  vm_compute. reflexivity.
Defined.

(** The requests the allocator refuses never change the document:
    what [jy_parse] returns on the heap, whatever was refused on the way
    (the request that trims the buffer of a string can be), is the document
    of the first embedding, where no request is refused. *)
Theorem refusals_keep_the_document
        (s : string) (h : Mem.heap) (doc : Mem.HDocument) (rest : string)
        (h' : Mem.heap) :
  Mem.jy_parse s h = Mem.Done doc rest h' ->
  jy_parse s = Some (Mem.erase_document doc).
Proof.
  intros E. pose proof (mem_jy_parse s h) as H. rewrite E in H.
  now destruct H.
Qed.

Lemma refusals_keep_the_document_example :
  let doc :=
    Mem.mkHDocument (Mem.Block 8)
      (Mem.mkHObject (Mem.Block 10)
         [Mem.mkHPair (Mem.Block 11) "a" (Mem.HNumber Dbl.one);
          Mem.mkHPair (Mem.Block 9) "b" (Mem.HNumber Dbl.zero)] 16%N) in
  Mem.jy_parse input_b_a (Mem.mkHeap [3; 7]%nat [false; false; true])
  = Mem.Done doc "" (Mem.mkHeap [11; 10; 9; 8; 3; 7]%nat []) /\
  jy_parse input_b_a
  = Some (mkDocument (mkObject [mkPair "a" (VNumber Dbl.one);
                                mkPair "b" (VNumber Dbl.zero)] 16%N)).
Proof.
  intros doc.
  assert (E : Mem.jy_parse input_b_a
                (Mem.mkHeap [3; 7]%nat [false; false; true])
              = Mem.Done doc "" (Mem.mkHeap [11; 10; 9; 8; 3; 7]%nat []))
    by (vm_compute; reflexivity).
  split; [exact E|].
  exact (refusals_keep_the_document _ _ _ _ _ E).
Defined.

(** With an allocator that grants every request, [jy_parse] on the
    heap and [jy_parse] of the first embedding return the same: the same
    document, once the pointers are left out, or both [NULL]. *)
Theorem willing_allocator_agrees (s : string) (h : Mem.heap) :
  Mem.willing h = true ->
  jy_parse s
  = match Mem.jy_parse s h with
    | Mem.Done doc _ _ => Some (Mem.erase_document doc)
    | _ => None
    end.
Proof.
  intros W. pose proof (mem_jy_parse s h) as H.
  destruct (Mem.jy_parse s h) as [doc rest h'|h'| |]; try contradiction.
  - now destruct H.
  - destruct H as [_ H]. now apply H.
Qed.

Lemma willing_allocator_agrees_example :
  Mem.willing (Mem.mkHeap [3; 7]%nat [false; false]) = true /\
  jy_parse input_a_a = None /\
  jy_parse input_nested
  = match Mem.jy_parse input_nested (Mem.mkHeap [3; 7]%nat [false; false]) with
    | Mem.Done doc _ _ => Some (Mem.erase_document doc)
    | _ => None
    end.
Proof.
  split; [reflexivity|]. split; [vm_compute; reflexivity|].
  apply (willing_allocator_agrees input_nested
           (Mem.mkHeap [3; 7]%nat [false; false])).
  reflexivity.
Defined.

(** [jy_free] is defined on the heaps in which the blocks of the
    document are allocated, these being distinct, and on no other: a
    pointer of the document that is not allocated, or that the document
    holds twice, is a [free] of a block that is not allocated.  Where it is
    defined it releases the blocks of the document and nothing else, and
    makes no request. *)
Theorem jy_free_releases_the_document (doc : Mem.HDocument) (h : Mem.heap) :
  ((exists h', Mem.jy_free doc h = Some h')
   <-> NoDup (Mem.blocks_document doc) /\
       (forall b, In b (Mem.blocks_document doc) -> In b (Mem.live h))) /\
  (forall h',
      Mem.jy_free doc h = Some h' ->
      (forall b, In b (Mem.live h')
                 <-> In b (Mem.live h) /\ ~ In b (Mem.blocks_document doc)) /\
      Mem.refusals h' = Mem.refusals h).
Proof.
  pose proof (jy_free_releases doc h) as H.
  destruct (Mem.jy_free doc h) as [h1|].
  - destruct H as (Hnd & Hin & Hl & Hr). split.
    + split; [intros _; now split | intros _; now exists h1].
    + intros h' [= <-]. now split.
  - split; [|discriminate].
    split; [intros [h' Hh']; discriminate | intros Hc; now elim H].
Qed.

(** ** The pointers of a parsed value *)

Lemma string_push_set (p : Mem.hptr) (val : string) (cap : N) (c : ascii)
      (h : Mem.heap) (p' : Mem.hptr) (val' : string) (cap' : N)
      (h' : Mem.heap) :
  Mem.is_block p = true \/ (cap = 0%N /\ val = ""%string) ->
  Mem.string_push p val cap c h = Some (Some (p', val', cap'), h') ->
  Mem.is_block p' = true.
Proof.
  unfold Mem.string_push. intros Hinv.
  destruct (N.of_nat (String.length val) =? cap)%N eqn:E.
  - destruct (Mem.realloc p h) as [[[|b] h1]|]; try discriminate.
    now intros [= <- _ _ _].
  - intros [= <- _ _ _]. destruct Hinv as [Hp|[-> ->]]; [assumption|].
    discriminate.
Qed.

Lemma mem_parse_string_loop_set (s : string) :
  forall (p : Mem.hptr) (val : string) (cap : N) (h : Mem.heap),
    Mem.is_block p = true \/ (cap = 0%N /\ val = ""%string) ->
    match Mem.parse_string_loop s p val cap h with
    | Mem.Done (p', val', cap') _ _ =>
        Mem.is_block p' = true \/ (cap' = 0%N /\ val' = ""%string)
    | _ => True
    end.
Proof.
  assert (H : forall n s, (String.length s <= n)%nat ->
    forall (p : Mem.hptr) (val : string) (cap : N) (h : Mem.heap),
      Mem.is_block p = true \/ (cap = 0%N /\ val = ""%string) ->
      match Mem.parse_string_loop s p val cap h with
      | Mem.Done (p', val', cap') _ _ =>
          Mem.is_block p' = true \/ (cap' = 0%N /\ val' = ""%string)
      | _ => True
      end).
  { clear s. induction n as [|n IH]; intros [|c s] Hn p val cap h Hinv;
      simpl in Hn; try lia;
      try (cbn [Mem.parse_string_loop]; now destruct (Mem.free p h)).
    cbn [Mem.parse_string_loop].
    destruct (Ascii.eqb c DQUOTE); [exact Hinv|].
    destruct (Ascii.eqb c LF || Ascii.eqb c NUL);
      [now destruct (Mem.free p h)|].
    destruct (Ascii.eqb c BACKSLASH).
    - destruct s as [|e s]; [now destruct (Mem.free p h)|].
      destruct (escape e) as [c'|]; [|now destruct (Mem.free p h)].
      destruct (Mem.string_push p val cap c' h)
        as [[[[[p' val'] cap']|] h']|] eqn:E; [| |exact I].
      + apply IH; [simpl in Hn; lia|]. left.
        exact (string_push_set _ _ _ _ _ _ _ _ _ Hinv E).
      + now destruct (Mem.free p h').
    - destruct (Mem.string_push p val cap c h)
        as [[[[[p' val'] cap']|] h']|] eqn:E; [| |exact I].
      + apply IH; [lia|]. left.
        exact (string_push_set _ _ _ _ _ _ _ _ _ Hinv E).
      + now destruct (Mem.free p h'). }
  apply (H (String.length s)). lia.
Qed.

(** The buffer of a parsed string is a block, also that of the empty
    string, and also when the request that trims it is refused. *)
Lemma mem_parse_string_set (s : string) (h : Mem.heap) :
  match Mem.parse_string s h with
  | Mem.Done (p, _) _ _ => Mem.is_block p = true
  | _ => True
  end.
Proof.
  unfold Mem.parse_string.
  destruct (negb (Ascii.eqb (peek s) DQUOTE)); [exact I|].
  pose proof (mem_parse_string_loop_set (advance s) Mem.Null "" 0%N h
                (or_intror (conj eq_refl eq_refl))) as H.
  destruct (Mem.parse_string_loop (advance s) Mem.Null "" 0 h)
    as [[[p val] cap] rest h'|h'| |]; try exact I.
  cbv zeta.
  assert (H1 : match (if (cap =? N.of_nat (String.length val))%N
                      then match Mem.realloc p h' with
                           | Some (Mem.Null, h1) => Some (None, h1)
                           | Some (newval, h1) => Some (Some newval, h1)
                           | None => None
                           end
                      else Some (Some p, h')) with
               | Some (Some p1, _) => Mem.is_block p1 = true
               | _ => True
               end).
  { destruct (cap =? N.of_nat (String.length val))%N eqn:E.
    - now destruct (Mem.realloc p h') as [[[|b] h1]|].
    - destruct H as [Hp|[-> ->]]; [assumption | discriminate]. }
  destruct (if (cap =? N.of_nat (String.length val))%N
            then match Mem.realloc p h' with
                 | Some (Mem.Null, h1) => Some (None, h1)
                 | Some (newval, h1) => Some (Some newval, h1)
                 | None => None
                 end
            else Some (Some p, h')) as [[[p1|] h1]|]; try exact I.
  - now destruct (Mem.realloc p1 h1) as [[[|b] h2]|].
  - now destruct (Mem.free p h1).
Qed.

Lemma forallb_firstn {A : Type} (f : A -> bool) (k : nat) :
  forall l, forallb f l = true -> forallb f (firstn k l) = true.
Proof.
  induction k as [|k IH]; intros [|x l] H; try reflexivity.
  cbn [firstn forallb] in *. apply andb_prop in H as [-> H].
  now apply IH.
Qed.

Section PointersOnTheHeap.

Variable pv_h : string -> Mem.heap -> Mem.outcome Mem.HValue.
Hypothesis pv_set :
  forall s h,
    match pv_h s h with
    | Mem.Done v _ _ => Mem.pointers_set v = true
    | _ => True
    end.

Lemma array_push_set (out : Mem.HArray') (v : Mem.HValue) (h : Mem.heap)
      (out' : Mem.HArray') (h' : Mem.heap) :
  Mem.array_set Mem.pointers_set out = true ->
  Mem.pointers_set v = true ->
  Mem.array_push out v h = Some (Some out', h') ->
  Mem.array_set Mem.pointers_set out' = true.
Proof.
  unfold Mem.array_push, Mem.array_set. intros Ho Hv.
  apply andb_prop in Ho as [Hall Hp].
  destruct (Mem.a_count out =? Mem.a_cap out)%N eqn:E.
  - destruct (Mem.realloc (Mem.a_values out) h) as [[[|b] h1]|];
      try discriminate.
    intros [= <- _]. cbn [Mem.a_elems Mem.a_values Mem.is_block].
    rewrite forallb_app, Hall. cbn [forallb]. now rewrite Hv.
  - intros [= <- _]. cbn [Mem.a_elems Mem.a_values].
    rewrite forallb_app, Hall. cbn [forallb]. rewrite Hv. cbn [andb].
    destruct (Mem.is_block (Mem.a_values out)); [reflexivity|].
    cbn [orb] in Hp. apply andb_prop in Hp as [H1 H2].
    apply N.eqb_eq in H1, H2. rewrite H1, H2 in E. discriminate.
Qed.

Lemma mem_parse_element_set (s : string) (out : Mem.HArray') (h : Mem.heap) :
  Mem.array_set Mem.pointers_set out = true ->
  match Mem.parse_element pv_h s out h with
  | Mem.Done out' _ _ => Mem.array_set Mem.pointers_set out' = true
  | _ => True
  end.
Proof.
  intros Ho. unfold Mem.parse_element.
  pose proof (pv_set s h) as Hv.
  destruct (pv_h s h) as [v r h1|h1| |]; try exact I.
  - destruct (Mem.array_push out v h1) as [[[out'|] h2]|] eqn:E;
      [| |exact I].
    + pose proof (array_push_set _ _ _ _ _ Ho Hv E) as Ho'. cbv zeta.
      destruct (Ascii.eqb (peek (parse_space r)) ","); [exact Ho'|].
      destruct (negb (Ascii.eqb (peek (parse_space r)) "]")); [|exact Ho'].
      now destruct (Mem.free_array Mem.free_value out' h2).
    + destruct (Mem.free_value v h2) as [h3|]; [|exact I].
      now destruct (Mem.free_array Mem.free_value out h3).
  - now destruct (Mem.free_array Mem.free_value out h1).
Qed.

Lemma mem_parse_array_loop_set (n : nat) :
  forall (s : string) (out : Mem.HArray') (h : Mem.heap),
    Mem.array_set Mem.pointers_set out = true ->
    match Mem.parse_array_loop pv_h n s out h with
    | Mem.Done out' _ _ => Mem.array_set Mem.pointers_set out' = true
    | _ => True
    end.
Proof.
  induction n as [|n IH]; intros s out h Ho;
    cbn [Mem.parse_array_loop];
    destruct (Ascii.eqb (peek s) "]"); try exact Ho; try exact I.
  pose proof (mem_parse_element_set s out h Ho) as He.
  destruct (Mem.parse_element pv_h s out h) as [out' r h'|h'| |];
    try exact I.
  now apply IH.
Qed.

Lemma mem_parse_array_set (s : string) (h : Mem.heap) :
  match Mem.parse_array pv_h s h with
  | Mem.Done a _ _ => Mem.array_set Mem.pointers_set a = true
  | _ => True
  end.
Proof.
  unfold Mem.parse_array.
  destruct (negb (Ascii.eqb (peek s) "[")); [exact I|]. cbv zeta.
  destruct (Ascii.eqb (peek (parse_space (advance s))) NUL); [exact I|].
  now apply mem_parse_array_loop_set.
Qed.

Lemma object_grow_set (out : Mem.HObject') (h : Mem.heap)
      (out' : Mem.HObject') (h' : Mem.heap) :
  Mem.object_set Mem.pointers_set out = true ->
  Mem.object_grow out h = Some (Some out', h') ->
  Mem.o_slots out' = Mem.o_slots out /\
  Mem.is_block (Mem.o_pairs out') = true.
Proof.
  unfold Mem.object_grow, Mem.object_set. intros Ho.
  apply andb_prop in Ho as [Hall Hp].
  destruct (Mem.o_count out =? Mem.o_cap out)%N eqn:E.
  - destruct (Mem.realloc (Mem.o_pairs out) h) as [[[|b] h1]|];
      try discriminate.
    intros [= <- _]. now split.
  - intros [= <- _]. split; [reflexivity|].
    destruct (Mem.is_block (Mem.o_pairs out)); [reflexivity|].
    cbn [orb] in Hp. apply andb_prop in Hp as [H1 H2].
    apply N.eqb_eq in H1, H2. rewrite H1, H2 in E. discriminate.
Qed.

Lemma mem_parse_pair_set (s : string) (out : Mem.HObject') (h : Mem.heap) :
  Mem.object_set Mem.pointers_set out = true ->
  match Mem.parse_pair pv_h s out h with
  | Mem.Done out' _ _ => Mem.object_set Mem.pointers_set out' = true
  | _ => True
  end.
Proof.
  intros Ho. unfold Mem.parse_pair.
  pose proof (mem_parse_string_set s h) as Hk.
  destruct (Mem.parse_string s h) as [[kp k] r1 h1|h1| |]; try exact I.
  2: now destruct (Mem.free_object Mem.free_value out h1).
  cbv zeta.
  destruct (negb (Ascii.eqb (peek (parse_space r1)) ":")).
  { destruct (Mem.free kp h1) as [h2|]; [|exact I].
    now destruct (Mem.free_object Mem.free_value out h2). }
  set (s2 := parse_space (advance (parse_space r1))).
  pose proof (pv_set s2 h1) as Hv.
  destruct (pv_h s2 h1) as [v r2 h2|h2| |]; try exact I.
  2: { destruct (Mem.free kp h2) as [h3|]; [|exact I].
       now destruct (Mem.free_object Mem.free_value out h3). }
  destruct (Mem.object_grow out h2) as [[[out1|] h3]|] eqn:E; [| |exact I].
  2: { destruct (Mem.free kp h3) as [h4|]; [|exact I].
       destruct (Mem.free_value v h4) as [h5|]; [|exact I].
       now destruct (Mem.free_object Mem.free_value out h5). }
  destruct (object_grow_set _ _ _ _ Ho E) as [Hslots Hp].
  assert (Hgive : match
                    match Mem.free kp h3 with
                    | Some h4 =>
                        match Mem.free_value v h4 with
                        | Some h5 =>
                            Mem.give_back
                              (Mem.free_object Mem.free_value out1 h5)
                        | None => Mem.Fault
                        end
                    | None => Mem.Fault
                    end
                  with
                  | Mem.Done out' _ _ =>
                      Mem.object_set Mem.pointers_set out' = true
                  | _ => True
                  end).
  { destruct (Mem.free kp h3) as [h4|]; [|exact I].
    destruct (Mem.free_value v h4) as [h5|]; [|exact I].
    now destruct (Mem.free_object Mem.free_value out1 h5). }
  destruct (key_search (map (Mem.erase_pair Mem.erase) (Mem.o_slots out1)) k 0
              (Z.of_N (Mem.o_count out1) - 1)) as [m|l|]; try exact Hgive.
  clear Hgive.
  set (out2 := Mem.mkHObject (Mem.o_pairs out1)
                 (firstn (Z.to_nat l) (Mem.o_slots out1)
                  ++ Mem.mkHPair kp k v :: skipn (Z.to_nat l) (Mem.o_slots out1))
                 (Mem.o_cap out1)).
  assert (Ho2 : Mem.object_set Mem.pointers_set out2 = true).
  { unfold Mem.object_set in *. apply andb_prop in Ho as [Hall _].
    cbn [out2 Mem.o_slots Mem.o_pairs]. rewrite Hp, Hslots.
    rewrite forallb_app. cbn [forallb].
    rewrite (forallb_firstn _ _ _ Hall), (forallb_skipn _ _ _ Hall).
    unfold Mem.pair_set at 1. cbn [Mem.p_key Mem.p_value].
    now rewrite Hk, Hv. }
  destruct (Ascii.eqb (peek (parse_space r2)) ","); [exact Ho2|].
  destruct (negb (Ascii.eqb (peek (parse_space r2)) "}")); [|exact Ho2].
  now destruct (Mem.free_object Mem.free_value out2 h3).
Qed.

Lemma mem_parse_object_loop_set (n : nat) :
  forall (s : string) (out : Mem.HObject') (h : Mem.heap),
    Mem.object_set Mem.pointers_set out = true ->
    match Mem.parse_object_loop pv_h n s out h with
    | Mem.Done out' _ _ => Mem.object_set Mem.pointers_set out' = true
    | _ => True
    end.
Proof.
  induction n as [|n IH]; intros s out h Ho;
    cbn [Mem.parse_object_loop];
    destruct (Ascii.eqb (peek s) "}"); try exact Ho; try exact I.
  pose proof (mem_parse_pair_set s out h Ho) as He.
  destruct (Mem.parse_pair pv_h s out h) as [out' r h'|h'| |];
    try exact I.
  now apply IH.
Qed.

Lemma mem_parse_object_set (s : string) (h : Mem.heap) :
  match Mem.parse_object pv_h s h with
  | Mem.Done o _ _ => Mem.object_set Mem.pointers_set o = true
  | _ => True
  end.
Proof.
  unfold Mem.parse_object.
  destruct (negb (Ascii.eqb (peek s) "{")); [exact I|]. cbv zeta.
  destruct (Ascii.eqb (peek (parse_space (advance s))) NUL); [exact I|].
  now apply mem_parse_object_loop_set.
Qed.

End PointersOnTheHeap.

Lemma mem_parse_value_set (fuel : nat) :
  forall (s : string) (h : Mem.heap),
    match Mem.parse_value fuel s h with
    | Mem.Done v _ _ => Mem.pointers_set v = true
    | _ => True
    end.
Proof.
  induction fuel as [|fuel IH]; intros s h; [exact I|].
  cbn [Mem.parse_value].
  destruct (parse_null s); [reflexivity|].
  destruct (parse_bool s) as [[b t]|]; [reflexivity|].
  destruct (parse_number s) as [[d t]|]; [reflexivity|].
  pose proof (mem_parse_string_set s h) as Hs.
  destruct (Mem.parse_string s h) as [[p str] t h1|h1| |]; try exact I.
  { exact Hs. }
  pose proof (mem_parse_array_set _ IH s h1) as Ha.
  destruct (Mem.parse_array (Mem.parse_value fuel) s h1) as [a t h2|h2| |];
    try exact I.
  { exact Ha. }
  pose proof (mem_parse_object_set _ IH s h2) as Ho.
  destruct (Mem.parse_object (Mem.parse_value fuel) s h2) as [o t h3|h3| |];
    try exact I.
  exact Ho.
Qed.

(** In the document [jy_parse] returns the pointers a reader goes
    through are set, whatever the allocator refused on the way: the
    document itself, the buffer of every string and of every key (also of
    the empty string, and also when the request that trims it was
    refused), and the buffer of every array and object, unless its count
    and its capacity are zero. *)
Theorem parsed_pointers_are_set
        (s : string) (h : Mem.heap) (doc : Mem.HDocument) (rest : string)
        (h' : Mem.heap) :
  Mem.jy_parse s h = Mem.Done doc rest h' ->
  Mem.is_block (Mem.d_ptr doc) = true /\
  Mem.object_set Mem.pointers_set (Mem.d_root doc) = true.
Proof.
  unfold Mem.jy_parse.
  destruct (Mem.malloc h) as [[|b] h1]; [discriminate|].
  pose proof (mem_parse_object_set _ (mem_parse_value_set (String.length s))
                s h1) as Ho.
  destruct (Mem.parse_object (Mem.parse_value (String.length s)) s h1)
    as [o r h2|h2| |]; try discriminate.
  - intros [= <- _ _]. now split.
  - now destruct (Mem.free (Mem.Block b) h2).
Qed.

Lemma parsed_pointers_are_set_example :
  let doc :=
    Mem.mkHDocument (Mem.Block 8)
      (Mem.mkHObject (Mem.Block 11)
         [Mem.mkHPair (Mem.Block 9) "" (Mem.HString (Mem.Block 10) "");
          Mem.mkHPair (Mem.Block 12) "e" (Mem.HArray (Mem.mkHArray Mem.Null [] 0%N))]
         16%N) in
  Mem.jy_parse ("{" ++ q ++ q ++ ":" ++ q ++ q ++ "," ++ q ++ "e" ++ q ++ ":[]}")
               (Mem.mkHeap [3; 7]%nat [false; false; true; false; true])
  = Mem.Done doc "" (Mem.mkHeap [12; 11; 10; 9; 8; 3; 7]%nat []) /\
  Mem.is_block (Mem.d_ptr doc) = true /\
  Mem.object_set Mem.pointers_set (Mem.d_root doc) = true.
Proof.
  intros doc.
  assert (E : Mem.jy_parse
                ("{" ++ q ++ q ++ ":" ++ q ++ q ++ "," ++ q ++ "e" ++ q ++ ":[]}")
                (Mem.mkHeap [3; 7]%nat [false; false; true; false; true])
              = Mem.Done doc "" (Mem.mkHeap [12; 11; 10; 9; 8; 3; 7]%nat []))
    by (vm_compute; reflexivity).
  split; [exact E|].
  exact (parsed_pointers_are_set _ _ _ _ _ E).
Defined.
